(** * Rhythm analyzer: a shallow embedding of [rhythm_analyzer.py]

    The development follows the Python source function by function.

    - Python floats are modelled as exact rationals ([Q]).  Every statement
      about a computed time or tempo is therefore a statement of exact
      arithmetic; the concrete inputs used below are dyadic or short decimal
      values on which the binary64 computation takes the same branches.
      Where a comparison of computed floats decides what the source returns,
      the statement keeps [rounding_margin] away from the boundary, and the
      arithmetic in question is repeated in binary64 (Rocq's primitive
      floats) to show what the source does at the boundary itself.
    - A raised exception is modelled by [None] in an [option] result.
    - numpy / scipy / librosa are external libraries: the operations the
      analyzer calls from them are the fields of the class [Audio].
    - Python [dict]s whose iteration order is observable are association
      lists in insertion order. *)

From Stdlib Require FloatOps SpecFloat.
From Stdlib Require Import PrimFloat.
From Stdlib Require Import String QArith Qround Qabs ZArith List Bool Lia Lqa.
From Stdlib Require Import Sorted.
Import ListNotations.
Open Scope string_scope.
Open Scope list_scope.
Open Scope Q_scope.

Set Implicit Arguments.

(* A decimal float literal denotes the nearest binary64 value, as it does
   in Python. *)
Set Warnings "-inexact-float".

(* ================================================================== *)
(** * Part I: definitions                                              *)
(* ================================================================== *)

(** ** Python numerics on rationals *)

Definition Qltb (x y : Q) : bool := negb (Qle_bool y x).
Definition Qgtb (x y : Q) : bool := Qltb y x.
Definition Qgeb (x y : Q) : bool := Qle_bool y x.

(** [min(a, b)] and [max(a, b)] return the first argument on ties. *)
Definition py_min (a b : Q) : Q := if Qltb b a then b else a.
Definition py_max (a b : Q) : Q := if Qltb a b then b else a.

(** [int(x)]: truncation toward zero. *)
Definition py_int (x : Q) : Z :=
  if Qle_bool 0 x then Qfloor x else Qceiling x.

(** [round(x)]: nearest integer, ties to the even one. *)
Definition py_round (x : Q) : Z :=
  let f := Qfloor x in
  let r := x - inject_Z f in
  if Qltb r (1#2) then f
  else if Qltb (1#2) r then (f + 1)%Z
  else if Z.even f then f else (f + 1)%Z.

(** [round(x, n)]: nearest multiple of [10^-n], ties to even. *)
Definition py_round_digits (x : Q) (n : nat) : Q :=
  let scale := inject_Z (10 ^ Z.of_nat n) in
  inject_Z (py_round (x * scale)) / scale.

(** [x / y] on floats raises [ZeroDivisionError] when [y] is zero. *)
Definition py_div (x y : Q) : option Q :=
  if Qeq_bool y 0 then None else Some (x / y).

(** [x // y] and [x % y] on floats, for a non-zero [y]. *)
Definition py_floordiv (x y : Q) : Q := inject_Z (Qfloor (x / y)).
Definition py_mod (x y : Q) : Q := x - y * inject_Z (Qfloor (x / y)).

(** A small error monad for code that may raise. *)
Definition bind {A B : Type} (m : option A) (k : A -> option B) : option B :=
  match m with
  | Some a => k a
  | None => None
  end.

Notation "x <- m ;; k" := (bind m (fun x => k))
  (at level 61, m at next level, right associativity).

(** [try: body  except: handler] *)
Definition try_except {A : Type} (body : option A) (handler : A) : A :=
  match body with
  | Some a => a
  | None => handler
  end.

(** ** Sorting and order statistics *)

Section Sorting.
Variable A : Type.
Variable key : A -> Q.

(** [list.sort(key=...)] and [sorted] are stable; a stable sort is
    determined by its input, so insertion from the right models it. *)
Fixpoint insert_by (x : A) (l : list A) : list A :=
  match l with
  | [] => [x]
  | y :: l' =>
      if Qle_bool (key x) (key y) then x :: l else y :: insert_by x l'
  end.

Definition sort_by (l : list A) : list A := fold_right insert_by [] l.
End Sorting.

Definition py_sorted (l : list Q) : list Q := sort_by (fun x => x) l.

(** [set(l)] followed by [sorted]: duplicates (equal floats) are dropped. *)
Fixpoint insert_set (x : Q) (l : list Q) : list Q :=
  match l with
  | [] => [x]
  | y :: l' =>
      if Qltb x y then x :: l
      else if Qeq_bool x y then l
      else y :: insert_set x l'
  end.

Definition sorted_set (l : list Q) : list Q := fold_right insert_set [] l.

(** [np.diff] *)
Fixpoint np_diff (l : list Q) : list Q :=
  match l with
  | a :: (b :: _) as l' => (b - a) :: np_diff l'
  | _ => []
  end.

(** [np.median] of a non-empty list (numpy returns nan on an empty one,
    which no caller below relies on; the model returns 0 there). *)
Definition np_median (l : list Q) : Q :=
  let s := py_sorted l in
  let n := length s in
  if Nat.even n
  then (nth (n / 2 - 1) s 0 + nth (n / 2) s 0) / 2
  else nth (n / 2) s 0.

(** [np.percentile(l, q)] with the default linear interpolation. *)
Definition np_percentile (l : list Q) (q : Q) : Q :=
  let s := py_sorted l in
  let pos := q / 100 * inject_Z (Z.of_nat (length s - 1)) in
  let lo := Z.to_nat (Qfloor pos) in
  let frac := pos - inject_Z (Qfloor pos) in
  nth lo s 0 + frac * (nth (S lo) s (nth lo s 0) - nth lo s 0).

(** ** Data model (the pydantic models) *)

(** An entry of [BeatResult.downbeats]: [{'time': ..., 'beat_position': ...}] *)
Record Downbeat : Type := mkDownbeat {
  downbeat_time : Q;
  beat_position : Z
}.

Record BeatResult : Type := mkBeatResult {
  bpm : Q;
  bpm_confidence : Q;
  beats : list Q;
  downbeats : list Downbeat;
  time_signature : Z
}.

Record DrumHit : Type := mkDrumHit {
  time : Q;
  type : string;
  confidence : Q;
  features : option (list (string * Q))
}.

(** ** The external signal-processing libraries *)

(** What [librosa.beat.beat_track] returns as tempo: an array or a scalar. *)
Inductive Tempo : Type :=
| TempoArray (a : list Q)
| TempoScalar (t : Q).

Class Audio : Type := {
  (** a waveform ([np.ndarray]) *)
  Signal : Type;
  (** [len(y)] *)
  len : Signal -> N;
  (** [float(np.sqrt(np.mean(y[start:end] ** 2)))] *)
  rms : Signal -> Z -> Z -> Q;
  (** [sosfilt(butter(order, [low, high], btype='band', output='sos'), y)];
      [None] when scipy raises *)
  butter_sosfilt : Z -> Q -> Q -> Signal -> option Signal;
  (** [np.isfinite(y).all()] *)
  isfinite_all : Signal -> bool;
  (** [apply_hpss_preprocessing(y, sr)] *)
  apply_hpss_preprocessing : Signal -> Z -> Signal;
  (** [librosa.frames_to_time(librosa.onset.onset_detect(y=y, sr=sr,
      backtrack=False, delta=delta), sr=sr)]; [None] when librosa raises *)
  onset_detect_times : Signal -> Z -> Q -> option (list Q);
  (** [librosa.beat.beat_track(y=y, sr=sr)], the frames already converted
      with [librosa.frames_to_time] *)
  beat_track : Signal -> Z -> Tempo * list Q;
  (** [np.mean(beat_strengths) / (np.max(onset_env) + 1e-10)] *)
  beat_strength_ratio : Signal -> Z -> Q
}.

(** ** Beat detection fallback and half-time correction *)

(** [np.arange(0, stop, step)] for a non-zero step:
    [ceil(stop / step)] values [i * step]. *)
Definition np_arange0 (stop step : Q) : list Q :=
  map (fun i => inject_Z (Z.of_nat i) * step)
      (seq 0 (Z.to_nat (Qceiling (stop / step)))).

(** [[{'time': float(beats[i]), 'beat_position': (i % 4) + 1}
      for i in range(len(beats))]] *)
Definition downbeats_mod4 (bs : list Q) : list Downbeat :=
  map (fun i => mkDownbeat (nth i bs 0) (Z.of_nat i mod 4 + 1))
      (seq 0 (length bs)).

Section BeatDetection.
Context {AU : Audio}.

Definition detect_beats_librosa (y : Signal) (sr : Z) : option BeatResult :=
  let '(tempo, beats0) := beat_track y sr in
  let bpm :=
    match tempo with
    | TempoArray a => match a with t :: _ => t | [] => 120 end
    | TempoScalar t => t
    end in
  beats1 <-
    (if (length beats0 <? 2)%nat
     then
       duration <- py_div (inject_Z (Z.of_N (len y))) (inject_Z sr) ;;
       beat_interval <- py_div 60 bpm ;;
       Some (np_arange0 duration beat_interval)
     else Some beats0) ;;
  let bpm_confidence := beat_strength_ratio y sr in
  Some (mkBeatResult bpm (py_min bpm_confidence 1) beats1
                     (downbeats_mod4 beats1) 4).
End BeatDetection.

(** What [correct_half_time_spectral] writes to the log; the two
    "HALF-TIME DETECTED" messages tell the two rules apart. *)
Inductive HalfTimeLog : Type :=
| NoCorrectionNeeded
| HalfTimeLowConfidence
| SpectralCheck (actual_total : Z) (expected_total density_ratio : Q)
| HalfTimeSpectral
| CorrectionFailed.

(** The "Interpolate beats" loop, written twice in the source (once per
    rule) with the same text. *)
Definition interpolate_beats (old_beats : list Q) : list Q :=
  let new_beats :=
    fold_left
      (fun new_beats i =>
         (new_beats ++ [nth i old_beats 0])
           ++ [(nth i old_beats 0 + nth (i + 1) old_beats 0) / 2])
      (seq 0 (length old_beats - 1)) [] in
  match old_beats with
  | [] => new_beats
  | _ :: _ => new_beats ++ [last old_beats 0]
  end.

(** The [BeatResult(...)] both rules return, up to the new confidence. *)
Definition doubled_result (beat_result : BeatResult) (new_confidence : Q)
  : BeatResult :=
  let new_beats := interpolate_beats (beats beat_result) in
  mkBeatResult (bpm beat_result * 2) new_confidence new_beats
               (downbeats_mod4 new_beats) (time_signature beat_result).

Section HalfTime.
Context {AU : Audio}.

Definition correct_half_time_spectral_log
    (y : Signal) (sr : Z) (beat_result : BeatResult)
  : list HalfTimeLog * BeatResult :=
  let detected_bpm := bpm beat_result in
  let confidence := bpm_confidence beat_result in
  if Qgeb detected_bpm 100 || Qgtb confidence (7#10)
  then ([NoCorrectionNeeded], beat_result)
  else if Qltb detected_bpm 95 && Qltb confidence (1#2)
  then ([HalfTimeLowConfidence],
        doubled_result beat_result (py_min (confidence * (13#10)) (7#10)))
  else
    try_except
      (let nyq := inject_Z sr / 2 in
       l <- py_div 5000 nyq ;;
       let low := py_min l (9#10) in
       h <- py_div 15000 nyq ;;
       let high := py_min h (99#100) in
       if Qgeb low high then Some ([], beat_result)
       else
         y_hihat <- butter_sosfilt 4 low high y ;;
         hihat_times <- onset_detect_times y_hihat sr (1#10) ;;
         duration <- py_div (inject_Z (Z.of_N (len y))) (inject_Z sr) ;;
         beat_len <- py_div 60 detected_bpm ;;
         let bar_duration := beat_len * 4 in
         num_bars <- py_div duration bar_duration ;;
         let expected_transients_per_bar := 8 in
         let expected_total := num_bars * expected_transients_per_bar in
         let actual_total := Z.of_nat (length hihat_times) in
         density_ratio <- py_div (inject_Z actual_total) (expected_total + 1) ;;
         let checked := SpectralCheck actual_total expected_total density_ratio in
         if Qgtb density_ratio (3#2)
         then Some ([checked; HalfTimeSpectral],
                    doubled_result beat_result
                      (py_min (confidence * (12#10)) (85#100)))
         else Some ([checked], beat_result))
      ([CorrectionFailed], beat_result).

Definition correct_half_time_spectral
    (y : Signal) (sr : Z) (beat_result : BeatResult) : BeatResult :=
  snd (correct_half_time_spectral_log y sr beat_result).

(** [detect_beats] when madmom is unavailable or has failed. *)
Definition detect_beats_fallback (y : Signal) (sr : Z) : option BeatResult :=
  result <- detect_beats_librosa y sr ;;
  Some (correct_half_time_spectral y sr result).
End HalfTime.

(** The half-time rules in the words of the specification. *)

(** "insert the midpoint between every pair of consecutive beats" *)
Fixpoint with_midpoints (l : list Q) : list Q :=
  match l with
  | a :: ((b :: _) as l') => a :: (a + b) / 2 :: with_midpoints l'
  | _ => l
  end.

(** The pairs the interpolation loop appends: each beat but the last,
    followed by the midpoint to its successor. *)
Fixpoint midpoint_pairs (l : list Q) : list Q :=
  match l with
  | a :: ((b :: _) as l') => a :: (a + b) / 2 :: midpoint_pairs l'
  | _ => []
  end.

(** "rebuild downbeats by assigning beat_position = (i mod ts) + 1" *)
Fixpoint number_beats (ts : Z) (i : nat) (bs : list Q) : list Downbeat :=
  match bs with
  | [] => []
  | b :: bs' => mkDownbeat b (Z.of_nat i mod ts + 1) :: number_beats ts (S i) bs'
  end.

Definition rebuild_downbeats (ts : Z) (bs : list Q) : list Downbeat :=
  number_beats ts 0 bs.

(** "the expected 8 hits/bar" at the current BPM, over the whole waveform *)
Definition expected_onsets (duration detected_bpm : Q) : Q :=
  duration / (60 / detected_bpm * 4) * 8.

(** "the bpm and beats are doubled" *)
Definition is_doubled (r r' : BeatResult) : Prop :=
  bpm r' = bpm r * 2 /\ beats r' = with_midpoints (beats r).

(** Rule B in the words of the specification: the result is doubled
    precisely when the onsets counted in the 5-15 kHz band exceed 1.5 times
    the expected count. *)
Definition rule_B_claim {AU : Audio} (y : Signal) (sr : Z) (r : BeatResult)
  : Prop :=
  bpm r < 100 -> bpm_confidence r <= 7#10 ->
  ~ (bpm r < 95 /\ bpm_confidence r < 1#2) ->
  forall (y_hihat : Signal) (hihat_times : list Q),
    butter_sosfilt 4 (py_min (5000 / (inject_Z sr / 2)) (9#10))
                     (py_min (15000 / (inject_Z sr / 2)) (99#100)) y
    = Some y_hihat ->
    onset_detect_times y_hihat sr (1#10) = Some hihat_times ->
    (is_doubled r (correct_half_time_spectral y sr r) <->
     (3#2) * expected_onsets (inject_Z (Z.of_N (len y)) / inject_Z sr) (bpm r)
     < inject_Z (Z.of_nat (length hihat_times))).

(** "Rule A fires": the low-confidence branch is the one taken. *)
Definition rule_A_fires {AU : Audio} (y : Signal) (sr : Z) (r : BeatResult)
  : Prop :=
  fst (correct_half_time_spectral_log y sr r) = [HalfTimeLowConfidence].

(** ** Quantizer *)

(** An entry of [grid_positions]. *)
Record GridPosition : Type := mkGridPosition {
  bar : Z;
  beat : Z;
  subbeat : Z;
  original_time : Q;
  quantized_time : Q
}.

(** The body of the loop of [quantize_to_grid] for one [hit];
    [beat_duration] and [grid_duration] are the two quotients computed
    before the loop and are not zero. *)
Definition quantize_hit
    (beat_duration grid_duration swing_offset : Q)
    (downbeat_offset quantize_strength : Q) (subdivision : Z)
    (hit : DrumHit) : DrumHit * GridPosition :=
  let rel_time := time hit - downbeat_offset in
  let grid_index := py_round (rel_time / grid_duration) in
  let grid_time :=
    if (grid_index mod 2 =? 1)%Z
    then inject_Z grid_index * grid_duration + swing_offset
    else inject_Z grid_index * grid_duration in
  let grid_time := grid_time + downbeat_offset in
  let quantized_time :=
    time hit + (grid_time - time hit) * quantize_strength in
  let total_beats := rel_time / beat_duration in
  let bar := (py_int (py_floordiv total_beats 4) + 1)%Z in
  let beat_in_bar := (py_int (py_mod total_beats 4) + 1)%Z in
  let subbeat :=
    (py_int (py_mod total_beats 1 * inject_Z subdivision) + 1)%Z in
  (mkDrumHit quantized_time (type hit) (confidence hit) (features hit),
   mkGridPosition bar beat_in_bar subbeat (time hit) quantized_time).

(** [quantize_to_grid]; [None] is the [ZeroDivisionError] of [60.0 / bpm]
    or of [beat_duration / subdivision]. *)
Definition quantize_to_grid
    (hits : list DrumHit) (bpm downbeat_offset : Q)
    (swing quantize_strength : Q) (subdivision : Z)
  : option (list DrumHit * list GridPosition) :=
  beat_duration <- py_div 60 bpm ;;
  grid_duration <- py_div beat_duration (inject_Z subdivision) ;;
  let swing_ratio := swing / 100 in
  let swing_offset := (swing_ratio - (1#2)) * grid_duration in
  Some
    (fold_left
       (fun '(quantized_hits, grid_positions) hit =>
          let '(q, g) :=
            quantize_hit beat_duration grid_duration swing_offset
                         downbeat_offset quantize_strength subdivision hit in
          (quantized_hits ++ [q], grid_positions ++ [g]))
       hits ([], [])).

(** The loop body [quantize_to_grid] runs with its arguments. *)
Definition quantize_with
    (bpm downbeat_offset swing quantize_strength : Q) (subdivision : Z)
  : DrumHit -> DrumHit * GridPosition :=
  quantize_hit (60 / bpm) (60 / bpm / inject_Z subdivision)
               ((swing / 100 - (1#2)) * (60 / bpm / inject_Z subdivision))
               downbeat_offset quantize_strength subdivision.

(** The quantizer in the words of the specification. *)

(** "Grid step duration = 60 / bpm / subdivision" *)
Definition step_duration (bpm : Q) (subdivision : Z) : Q :=
  60 / bpm / inject_Z subdivision.

(** The time of grid step [k]: "odd-indexed steps receive a swing offset of
    (swing/100 - 0.5) x step_duration". *)
Definition grid_step_time (bpm downbeat_offset swing : Q) (k : Z) : Q :=
  downbeat_offset + inject_Z k * step_duration bpm 4
  + (if Z.odd k then (swing / 100 - (1#2)) * step_duration bpm 4 else 0).

(** Step [k] is a nearest grid step to time [t]: no step of the straight
    grid is closer. *)
Definition nearest_step (bpm downbeat_offset t : Q) (k : Z) : Prop :=
  forall j : Z,
    Qabs (t - (downbeat_offset + inject_Z k * step_duration bpm 4))
    <= Qabs (t - (downbeat_offset + inject_Z j * step_duration bpm 4)).

(** "Output time = original x (1 - strength) + snapped x strength" *)
Definition snapped_to (bpm downbeat_offset swing strength : Q)
    (hit out : DrumHit) : Prop :=
  exists k : Z,
    nearest_step bpm downbeat_offset (time hit) k /\
    time out ==
    time hit * (1 - strength)
    + grid_step_time bpm downbeat_offset swing k * strength.

(** Only the time of a hit may differ. *)
Definition same_but_time (hit out : DrumHit) : Prop :=
  type out = type hit /\ confidence out = confidence hit
  /\ features out = features hit.

(** Quantizing the output of a full-strength quantization again gives the
    same times. *)
Definition quantizer_idempotent (hits : list DrumHit)
    (bpm downbeat_offset swing : Q) : Prop :=
  forall once g1,
    quantize_to_grid hits bpm downbeat_offset swing 1 4 = Some (once, g1) ->
    exists twice g2,
      quantize_to_grid once bpm downbeat_offset swing 1 4 = Some (twice, g2)
      /\ Forall2 (fun a b => time a == time b /\ same_but_time a b)
                 once twice.

(** ** Swing estimation *)

(** [detect_swing].  A zero [beat_duration] makes numpy's quotient
    infinite or nan, which fails both comparisons; the rational quotient is
    then 0, which fails the first one. *)
Definition detect_swing
    (hits : list DrumHit) (beats : list Q) (time_signature : Z) : Q :=
  if (length hits <? 4)%nat || (length beats <? 2)%nat then 50
  else
    let hit_times := map time hits in
    let beat_duration := np_median (np_diff beats) in
    let offbeat_ratios :=
      fold_left
        (fun offbeat_ratios i =>
           let beat_start := nth i beats 0 in
           let beat_end := nth (i + 1) beats 0 in
           let beat_hits :=
             filter (fun t => Qgeb t beat_start && Qltb t beat_end)
                    hit_times in
           fold_left
             (fun offbeat_ratios hit_time =>
                let position := (hit_time - beat_start) / beat_duration in
                if Qltb (35#100) position && Qltb position (75#100)
                then offbeat_ratios ++ [position * 100]
                else offbeat_ratios)
             beat_hits offbeat_ratios)
        (seq 0 (length beats - 1)) [] in
    if (length offbeat_ratios <? 2)%nat then 50
    else
      let swing := np_median offbeat_ratios in
      py_max 40 (py_min 75 swing).

(** The estimator in the words of the specification. *)

(** The beat intervals: consecutive pairs of beats. *)
Fixpoint beat_intervals (beats : list Q) : list (Q * Q) :=
  match beats with
  | a :: ((b :: _) as l) => (a, b) :: beat_intervals l
  | _ => []
  end.

(** For each beat interval, the position (as a percentage) of each hit of
    the interval whose position lies strictly in (0.35, 0.75); [width]
    gives the length a position is measured against. *)
Definition offbeat_percentages
    (width : Q -> Q -> Q) (hit_times beats : list Q) : list Q :=
  flat_map
    (fun '(s, e) =>
       map (fun p => p * 100)
           (filter (fun p => Qltb (35#100) p && Qltb p (75#100))
                   (map (fun t => (t - s) / width s e)
                        (filter (fun t => Qgeb t s && Qltb t e) hit_times))))
    (beat_intervals beats).

(** "the median ... as a percentage clamped to [40, 75]", "50 whenever
    fewer than two such offbeat hits exist" *)
Definition swing_estimate
    (width : Q -> Q -> Q) (hits : list DrumHit) (beats : list Q) : Q :=
  let ps := offbeat_percentages width (map time hits) beats in
  if (length ps <? 2)%nat then 50
  else py_max 40 (py_min 75 (np_median ps)).

(** The fractional position within the interval itself. *)
Definition interval_width (s e : Q) : Q := e - s.

Definition swing_claim (hits : list DrumHit) (beats : list Q) : Prop :=
  forall time_signature,
    detect_swing hits beats time_signature
    == swing_estimate interval_width hits beats.

(** ** Band-pass filter

    [bandpass_filter] is a local function of three detectors; the three
    copies differ in what they do with a filtered signal that is not
    finite.  [None] is the [ZeroDivisionError] of [lowcut / nyq], raised
    outside the [try]. *)

Module BeatAligned.
Section Filter.
Context {AU : Audio}.

(** in [detect_drums_beat_aligned] *)
Definition bandpass_filter
    (data : Signal) (lowcut highcut fs : Q) (order : Z) : option Signal :=
  let nyq := (1#2) * fs in
  l <- py_div lowcut nyq ;;
  let low := py_max l (1#100) in
  h <- py_div highcut nyq ;;
  let high := py_min h (99#100) in
  if Qgeb low high then Some data
  else
    Some (try_except
            (filtered <- butter_sosfilt order low high data ;;
             Some filtered)
            data).
End Filter.
End BeatAligned.

Module PerDrum.
Section Filter.
Context {AU : Audio}.

(** in [detect_onsets_per_drum] *)
Definition bandpass_filter
    (data : Signal) (lowcut highcut fs : Q) (order : Z) : option Signal :=
  let nyq := (1#2) * fs in
  l <- py_div lowcut nyq ;;
  let low := py_max l (1#100) in
  h <- py_div highcut nyq ;;
  let high := py_min h (99#100) in
  if Qgeb low high then Some data
  else
    Some (try_except
            (filtered <- butter_sosfilt order low high data ;;
             if negb (isfinite_all filtered) then Some data
             else Some filtered)
            data).
End Filter.
End PerDrum.

Module Adaptive.
Section Filter.
Context {AU : Audio}.

(** in [detect_adaptive] *)
Definition bandpass_filter
    (data : Signal) (lowcut highcut fs : Q) (order : Z) : option Signal :=
  let nyq := (1#2) * fs in
  l <- py_div lowcut nyq ;;
  let low := py_max l (1#100) in
  h <- py_div highcut nyq ;;
  let high := py_min h (99#100) in
  if Qgeb low high then Some data
  else
    Some (try_except
            (filtered <- butter_sosfilt order low high data ;;
             Some (if isfinite_all filtered then filtered else data))
            data).
End Filter.
End Adaptive.

(** The cutoffs as the filter constructor receives them: normalised to
    Nyquist and clamped. *)
Definition normalized_low (lowcut fs : Q) : Q :=
  py_max (lowcut / ((1#2) * fs)) (1#100).
Definition normalized_high (highcut fs : Q) : Q :=
  py_min (highcut / ((1#2) * fs)) (99#100).

(** ** Beat-aligned drum detection *)

(** [x in [..]] on integers; truthiness of a list. *)
Definition Z_in (x : Z) (l : list Z) : bool := existsb (Z.eqb x) l.
Definition nonempty {A : Type} (l : list A) : bool :=
  match l with [] => false | _ :: _ => true end.

(** [dict.get] on an association list in insertion order. *)
Fixpoint assoc {V : Type} (k : string) (d : list (string * V)) : option V :=
  match d with
  | [] => None
  | (k', v) :: d' => if String.eqb k k' then Some v else assoc k d'
  end.

Section BeatAlignedDetection.
Context {AU : Audio}.

(** [get_energy_at_time] with its default [window_ms=30] *)
Definition get_energy_at_time
    (audio : Signal) (sample_rate : Z) (time_sec : Q) : Q :=
  let window_ms := 30 in
  let center := py_int (time_sec * inject_Z sample_rate) in
  let half_window :=
    py_int (window_ms * inject_Z sample_rate / 1000 / 2) in
  let start := Z.max 0 (center - half_window) in
  let end_ := Z.min (Z.of_N (len audio)) (center + half_window) in
  if (end_ <=? start)%Z then 0 else rms audio start end_.

(** The "16th note positions" loop. *)
Definition sixteenth_positions (beats : list Q) : list Q :=
  let sixteenth_notes :=
    fold_left
      (fun sixteenth_notes i =>
         let beat_duration := nth (i + 1) beats 0 - nth i beats 0 in
         (((sixteenth_notes ++ [nth i beats 0])
             ++ [nth i beats 0 + beat_duration * (25#100)])
            ++ [nth i beats 0 + beat_duration * (5#10)])
           ++ [nth i beats 0 + beat_duration * (75#100)])
      (seq 0 (length beats - 1)) [] in
  if (0 <? length beats)%nat
  then sixteenth_notes ++ [last beats 0]
  else sixteenth_notes.

(** [detect_drums_beat_aligned].  The result dictionary is the list of
    its items in insertion order.  [None] is a [ZeroDivisionError]: of the
    filter at sample rate 0, or of [i % time_signature]. *)
Definition detect_drums_beat_aligned
    (y : Signal) (sr : Z) (beats : list Q) (time_signature : Z)
  : option (list (string * list Q)) :=
  let y_perc := apply_hpss_preprocessing y sr in
  y_low <- BeatAligned.bandpass_filter y_perc 20 300 (inject_Z sr) 4 ;;
  y_mid <- BeatAligned.bandpass_filter y_perc 150 2000 (inject_Z sr) 4 ;;
  y_high <- BeatAligned.bandpass_filter y_perc 5000
              (py_min 16000 (inject_Z sr / 2 - 100)) (inject_Z sr) 4 ;;
  let low_energies := map (get_energy_at_time y_low sr) beats in
  let mid_energies := map (get_energy_at_time y_mid sr) beats in
  let high_energies := map (get_energy_at_time y_high sr) beats in
  let low_threshold :=
    if nonempty low_energies then np_median low_energies * 1
    else 1#100 in
  let mid_threshold :=
    if nonempty mid_energies then np_median mid_energies * 1
    else 1#100 in
  let high_threshold :=
    if nonempty high_energies then np_median high_energies * (8#10)
    else 1#100 in
  (* the 8th-note loop has the text of the beat interpolation loop *)
  let eighth_notes := interpolate_beats beats in
  let sixteenth_notes := sixteenth_positions beats in
  if (time_signature =? 0)%Z && nonempty beats then None
  else
    let backbeat_indices :=
      filter (fun i => Z_in (Z.of_nat i mod time_signature) [1; 3]%Z)
             (seq 0 (length beats)) in
    let all_mid_energies :=
      map (fun i => get_energy_at_time y_mid sr (nth i beats 0))
          backbeat_indices in
    let all_high_at_backbeat :=
      map (fun i => get_energy_at_time y_high sr (nth i beats 0))
          backbeat_indices in
    let snare_threshold_adaptive :=
      if nonempty all_mid_energies then np_percentile all_mid_energies 40
      else mid_threshold in
    let clap_threshold_adaptive :=
      if nonempty all_high_at_backbeat
      then np_percentile all_high_at_backbeat 35
      else high_threshold in
    let '(snare, clap) :=
      fold_left
        (fun '(snare, clap) '(i, beat_time) =>
           let beat_in_bar := (Z.of_nat i mod time_signature)%Z in
           let mid_energy := get_energy_at_time y_mid sr beat_time in
           let high_energy := get_energy_at_time y_high sr beat_time in
           let low_energy := get_energy_at_time y_low sr beat_time in
           let snare :=
             if Z_in beat_in_bar [1; 3]%Z
             then
               if Qgtb mid_energy snare_threshold_adaptive
               then snare ++ [beat_time]
               else if Qgtb mid_energy (mid_threshold * (12#10))
                       && Qgtb mid_energy (low_energy * (3#10))
                    then snare ++ [beat_time]
                    else snare
             else snare in
           let clap :=
             if Z_in beat_in_bar [1; 3]%Z
             then
               if Qgtb high_energy clap_threshold_adaptive
               then clap ++ [beat_time]
               else clap
             else clap in
           (snare, clap))
        (combine (seq 0 (length beats)) beats) ([], []) in
    let all_low_energies :=
      map (get_energy_at_time y_low sr) sixteenth_notes in
    let kick_threshold_adaptive :=
      if nonempty all_low_energies then np_percentile all_low_energies 60
      else low_threshold in
    let kick :=
      fold_left
        (fun kick '(idx, sixteenth_time) =>
           let low_energy := get_energy_at_time y_low sr sixteenth_time in
           let beat_idx := (Z.of_nat idx / 4)%Z in
           let sub_idx := (Z.of_nat idx mod 4)%Z in
           let beat_in_bar := (beat_idx mod time_signature)%Z in
           let position_in_bar := (beat_in_bar * 4 + sub_idx)%Z in
           if Z_in position_in_bar [0; 8]%Z
           then
             if Qgtb low_energy kick_threshold_adaptive
             then kick ++ [sixteenth_time] else kick
           else if Z_in position_in_bar [4; 12]%Z
           then
             if Qgtb low_energy (kick_threshold_adaptive * (12#10))
             then kick ++ [sixteenth_time] else kick
           else if Z_in position_in_bar [2; 6; 10; 14]%Z
           then
             if Qgtb low_energy (kick_threshold_adaptive * (11#10))
             then kick ++ [sixteenth_time] else kick
           else kick)
        (combine (seq 0 (length sixteenth_notes)) sixteenth_notes) [] in
    let all_high_energies :=
      map (get_energy_at_time y_high sr) eighth_notes in
    let hihat_threshold_adaptive :=
      if nonempty all_high_energies then np_percentile all_high_energies 50
      else high_threshold in
    let hihat :=
      fold_left
        (fun hihat eighth_time =>
           let high_energy := get_energy_at_time y_high sr eighth_time in
           let low_energy := get_energy_at_time y_low sr eighth_time in
           if Qgtb high_energy hihat_threshold_adaptive
              && Qgtb high_energy (low_energy * (8#10))
           then hihat ++ [eighth_time] else hihat)
        eighth_notes [] in
    let results :=
      [("kick", kick); ("snare", snare); ("hihat", hihat);
       ("clap", clap); ("tom", []); ("perc", [])] in
    Some (map (fun '(drum_type, times) => (drum_type, sorted_set times))
              results).
End BeatAlignedDetection.

(** ** Genre heuristic *)

Definition count_type (ty : string) (hits : list DrumHit) : Q :=
  inject_Z (Z.of_nat (length (filter (fun h => String.eqb (type h) ty) hits))).

(** [score += d] under a condition *)
Definition add_if (c : bool) (d score : Q) : Q :=
  if c then score + d else score.

(** [max(genre_scores, key=genre_scores.get)]: the first key of maximal
    score. *)
Fixpoint best_key (d : list (string * Q)) : option (string * Q) :=
  match d with
  | [] => None
  | (k, v) :: d' =>
      match best_key d' with
      | Some (k', v') => if Qltb v v' then Some (k', v') else Some (k, v)
      | None => Some (k, v)
      end
  end.

Definition detect_genre (bpm : Q) (hits : list DrumHit) (swing : Q)
  : option string * Q :=
  let kick_count := count_type "kick" hits in
  let snare_count := count_type "snare" hits in
  let clap_count := count_type "clap" hits in
  let hihat_count := count_type "hihat" hits in
  let total_hits := inject_Z (Z.max (Z.of_nat (length hits)) 1) in
  let kick_ratio := kick_count / total_hits in
  let snare_ratio := snare_count / total_hits in
  let clap_ratio := clap_count / total_hits in
  let hihat_ratio := hihat_count / total_hits in
  let between lo hi := Qle_bool lo bpm && Qle_bool bpm hi in
  let genre_scores :=
    (if between 118 138
     then [("edm",
            py_min
              (add_if (Qltb (Qabs (swing - 50)) 5) (15#100)
                 (add_if (Qgtb clap_ratio (8#100) || Qgtb snare_ratio (8#100))
                         (15#100)
                    (add_if (Qgtb kick_ratio (15#100)) (2#10) (5#10))))
              1)]
     else [])
    ++ (if between 115 130
        then [("afro_house",
               py_min
                 (add_if (Qgtb hihat_ratio (2#10)) (15#100)
                    (add_if (Qgtb swing 54) (25#100)
                       (add_if (Qltb kick_ratio (15#100)) (15#100) (4#10))))
                 1)]
        else [])
    ++ (if between 60 90 || between 130 180
        then [("trap",
               py_min
                 (add_if (Qltb kick_ratio (12#100)) (15#100)
                    (add_if (Qgtb hihat_ratio (3#10)) (2#10)
                       (add_if (Qltb snare_ratio (8#100)) (2#10) (4#10))))
                 1)]
        else [])
    ++ (if between 85 135
        then [("pop",
               py_min
                 (add_if (Qle_bool 48 swing && Qle_bool swing 55) (15#100)
                    (add_if (Qgtb kick_ratio (8#100)
                             && Qltb kick_ratio (25#100)) (15#100)
                       (add_if (Qgtb snare_ratio (8#100)) (2#10) (35#100))))
                 1)]
        else [])
    ++ (if between 80 120
        then [("hip_hop",
               py_min
                 (add_if (Qgtb kick_ratio (6#100)
                          && Qltb kick_ratio (20#100)) (15#100)
                    (add_if (Qgtb snare_ratio (6#100)) (15#100)
                       (add_if (Qle_bool 52 swing && Qle_bool swing 62)
                               (25#100) (35#100))))
                 1)]
        else [])
    ++ (if between 95 145
        then [("kpop",
               py_min
                 (add_if (Qgtb clap_ratio (5#100)) (15#100)
                    (add_if (Qgtb kick_ratio (12#100)
                             && Qgtb snare_ratio (8#100)) (2#10) (3#10)))
                 1)]
        else []) in
  match best_key genre_scores with
  | None => (None, 0)
  | Some (best_genre, best_confidence) =>
      if Qltb best_confidence (5#10) then (None, 0)
      else (Some best_genre, best_confidence)
  end.

(** ** Pattern filter *)

Definition half_beats : list Q :=
  map (fun i => inject_Z (Z.of_nat i) * (5#10)) (seq 0 8).
Definition quarter_beats : list Q :=
  map (fun i => inject_Z (Z.of_nat i) * (25#100)) (seq 0 16).

Definition EXPECTED_POSITIONS : list (string * list (string * list Q)) :=
  [("kick",
    [("edm", [0; 1; 2; 3]); ("pop", [0; 2]); ("trap", [0; 25#10]);
     ("afro_house", [0; 2]); ("default", [0; 2])]);
   ("snare",
    [("edm", [1; 3]); ("pop", [1; 3]); ("trap", [2]);
     ("afro_house", [1; 3]); ("default", [1; 3])]);
   ("clap",
    [("edm", [1; 3]); ("pop", [1; 3]); ("trap", [2]);
     ("afro_house", [1; 3]); ("default", [1; 3])]);
   ("hihat",
    [("edm", half_beats); ("pop", half_beats); ("trap", quarter_beats);
     ("afro_house", half_beats); ("default", half_beats)]);
   ("tom",
    [("default", [0; 5#10; 1; 15#10; 2; 25#10; 3; 35#10])]);
   ("perc", [("default", quarter_beats)])].

(** float [x % y], raising on a zero [y] *)
Definition py_fmod (x y : Q) : option Q :=
  if Qeq_bool y 0 then None else Some (py_mod x y).

(** [filter_hits_by_pattern].  The [stats] dictionary only feeds the log,
    except that counting a hit of an unknown type as removed raises
    [KeyError]. *)
Definition filter_hits_by_pattern
    (hits : list DrumHit) (bpm downbeat_time : Q) (time_signature : Z)
    (genre : option string) (tolerance_ms : Q) : option (list DrumHit) :=
  if negb (nonempty hits) then Some []
  else
    beat_duration <- py_div 60 bpm ;;
    let bar_duration := beat_duration * inject_Z time_signature in
    let tolerance_sec := tolerance_ms / 1000 in
    fold_left
      (fun acc hit =>
         filtered <- acc ;;
         let drum_type := type hit in
         let hit_time := time hit in
         let positions_dict :=
           match assoc drum_type EXPECTED_POSITIONS with
           | Some d => d
           | None => [("default", half_beats)]
           end in
         let default_positions :=
           match assoc "default" positions_dict with
           | Some p => p
           | None => []
           end in
         let expected_positions :=
           match genre with
           | Some g =>
               match assoc g positions_dict with
               | Some p => p
               | None => default_positions
               end
           | None => default_positions
           end in
         let time_from_downbeat := hit_time - downbeat_time in
         if Qltb time_from_downbeat 0
         then
           match assoc drum_type EXPECTED_POSITIONS with
           | Some _ => Some filtered
           | None => None
           end
         else
           m <- py_fmod time_from_downbeat bar_duration ;;
           let bar_position := m / beat_duration in
           let is_expected :=
             existsb
               (fun expected_pos =>
                  let distance := Qabs (bar_position - expected_pos) in
                  let distance_sec := distance * beat_duration in
                  Qle_bool distance_sec tolerance_sec)
               expected_positions in
           if is_expected then Some (filtered ++ [hit]) else Some filtered)
      hits (Some []).

(** ** Standard analysis *)

Module RhythmAnalysisResult.
Record t : Type := mk {
  bpm : Q;
  bpm_confidence : Q;
  beats : list Q;
  downbeats : list Downbeat;
  time_signature : Z;
  hits : list DrumHit;
  swing : Q;
  analysis_method : string;
  duration : Q;
  analysis_source : string;
  detected_genre : option string;
  genre_confidence : Q;
  pattern_filter_applied : bool;
  hits_before_filter : Z;
  hits_after_filter : Z
}.
End RhythmAnalysisResult.

(** "Convert to DrumHit objects" over the items of the detection result,
    then "Sort by time" ([hits.sort(key=lambda h: h.time)]). *)
Definition detected_hits
    (drums_path : bool) (beat_aligned_hits : list (string * list Q))
  : list DrumHit :=
  let hits :=
    flat_map
      (fun '(drum_type, times) =>
         map (fun t =>
                let confidence := if drums_path then 90#100 else 70#100 in
                mkDrumHit t drum_type confidence None)
             times)
      beat_aligned_hits in
  sort_by time hits.

Section Pipeline.
Context {AU : Audio}.

(** [analyze_rhythm] from stage 2 on: [beat_result] and [method] are what
    [detect_beats] returned, [stem] the drums stem and its sample rate
    when the separation delivered one.  [None] is an exception leaving
    the endpoint. *)
Definition analyze_rhythm_from
    (beat_result : BeatResult) (method : string)
    (y_full : Signal) (sr_full : Z) (stem : option (Signal * Z))
    (apply_pattern_filter : bool) (pattern_tolerance_ms : Q)
  : option RhythmAnalysisResult.t :=
  duration <- py_div (inject_Z (Z.of_N (len y_full))) (inject_Z sr_full) ;;
  let '(y_drums, sr, drums_path, analysis_source) :=
    match stem with
    | Some (y_stem, sr_stem) => (y_stem, sr_stem, true, "drums_stem")
    | None => (y_full, sr_full, false, "full_mix")
    end in
  beat_aligned_hits <-
    detect_drums_beat_aligned y_drums sr (beats beat_result)
                              (time_signature beat_result) ;;
  let hits := detected_hits drums_path beat_aligned_hits in
  let swing :=
    detect_swing hits (beats beat_result) (time_signature beat_result) in
  let '(detected_genre, genre_confidence) :=
    detect_genre (bpm beat_result) hits swing in
  let hits_before_filter := Z.of_nat (length hits) in
  filtered <-
    (if apply_pattern_filter && nonempty (downbeats beat_result)
     then
       let downbeat_time :=
         match downbeats beat_result with
         | d :: _ => downbeat_time d
         | [] => 0
         end in
       hits' <- filter_hits_by_pattern
                  hits (bpm beat_result) downbeat_time
                  (time_signature beat_result) detected_genre
                  pattern_tolerance_ms ;;
       Some (hits', true)
     else Some (hits, false)) ;;
  let '(hits, pattern_filter_applied) := filtered in
  let hits_after_filter := Z.of_nat (length hits) in
  let analysis_method := String.append method (String.append "+" analysis_source) in
  let analysis_method :=
    if pattern_filter_applied
    then String.append analysis_method "+pattern_filter"
    else analysis_method in
  Some (RhythmAnalysisResult.mk
          (bpm beat_result) (bpm_confidence beat_result)
          (beats beat_result) (downbeats beat_result)
          (time_signature beat_result) hits swing analysis_method
          duration analysis_source detected_genre genre_confidence
          pattern_filter_applied hits_before_filter hits_after_filter).

(** [analyze_rhythm] when beat detection takes the librosa path. *)
Definition analyze_rhythm
    (y_full : Signal) (sr : Z) (stem : option (Signal * Z))
    (apply_pattern_filter : bool) (pattern_tolerance_ms : Q)
  : option RhythmAnalysisResult.t :=
  _ <- py_div (inject_Z (Z.of_N (len y_full))) (inject_Z sr) ;;
  beat_result <- detect_beats_fallback y_full sr ;;
  analyze_rhythm_from beat_result "librosa" y_full sr stem
                      apply_pattern_filter pattern_tolerance_ms.

(** The hits of the same run before the pattern filter. *)
Definition hits_before_pattern_filter
    (beat_result : BeatResult) (y_full : Signal) (sr_full : Z)
    (stem : option (Signal * Z)) : option (list DrumHit) :=
  let '(y_drums, sr, drums_path) :=
    match stem with
    | Some (y_stem, sr_stem) => (y_stem, sr_stem, true)
    | None => (y_full, sr_full, false)
    end in
  beat_aligned_hits <-
    detect_drums_beat_aligned y_drums sr (beats beat_result)
                              (time_signature beat_result) ;;
  Some (detected_hits drums_path beat_aligned_hits).
End Pipeline.

(** The keys of the detection result in insertion order, and the place of
    a drum type among them. *)
Definition DRUM_ORDER : list string :=
  ["kick"; "snare"; "hihat"; "clap"; "tom"; "perc"].

Fixpoint index_of (ty : string) (l : list string) : nat :=
  match l with
  | [] => 0
  | k :: l' => if String.eqb ty k then 0 else S (index_of ty l')
  end.

Definition drum_rank (ty : string) : nat := index_of ty DRUM_ORDER.

(** The order the specification asks of the hits of an output: by time,
    hits of equal time by the lexicographic order of their type names.
    (Strict monotonicity in time alone asks for more.) *)
Definition time_then_type (a b : DrumHit) : Prop :=
  time a < time b \/
  (time a == time b /\ String.ltb (type a) (type b) = true).

Definition hit_order_claim (hits : list DrumHit) : Prop :=
  StronglySorted time_then_type hits.

(** The order of the hits before sorting: by place of the type in the
    detection result, hits of one type by time. *)
Definition detection_order (a b : DrumHit) : Prop :=
  (drum_rank (type a) < drum_rank (type b))%nat \/ time a < time b.

(** The order the analysis produces: by time, hits of equal time in the
    order of the detection result. *)
Definition time_then_detection_order (a b : DrumHit) : Prop :=
  time a < time b \/
  (time a == time b /\ (drum_rank (type a) < drum_rank (type b))%nat).

(** ** Adaptive rescan *)

(** An element of the [existing_hits] JSON array; the detector reads only
    [h.get('time', 0)]. *)
Record ExistingHit : Type := mkExistingHit {
  existing_time : option Q;
  existing_type : string
}.

Definition get_time (h : ExistingHit) : Q :=
  match existing_time h with
  | Some t => t
  | None => 0
  end.

(** An element of [new_hits]. *)
Module NewHit.
Record t : Type := mk {
  time : Q;
  type : string;
  confidence : Q;
  bar : Z;
  grid_position : Z;
  energy : Q;
  threshold_used : Q;
  is_quiet_bar : bool;
  source : string
}.
End NewHit.

(** An element of [bar_energies]. *)
Module BarEnergy.
Record t : Type := mk {
  bar : Z;
  rms : Q;
  is_quiet : bool;
  relative_energy : Q
}.
End BarEnergy.

(** The [target_bars] form field once read: ["quiet"], a list of bar
    numbers, or anything else (absent, empty or not a list of integers),
    which scans all bars. *)
Inductive TargetBars : Type :=
| TargetQuiet
| TargetList (bars : list Z)
| TargetAll.

Module AdaptiveResult.
Record t : Type := mk {
  total_bars : Z;
  bars_scanned : Z;
  quiet_bars : list Z;
  median_bar_energy : Q;
  bar_energies : list BarEnergy.t;
  new_hits : list NewHit.t
}.
End AdaptiveResult.

(** [range(n)] and [range(1, n + 1)] on integers *)
Definition py_range (n : Z) : list Z :=
  map Z.of_nat (seq 0 (Z.to_nat n)).
Definition py_range1 (n : Z) : list Z :=
  map Z.of_nat (seq 1 (Z.to_nat n)).

Definition DRUM_FILTERS : list (string * (Q * Q)) :=
  [("kick", (20, 250)); ("snare", (150, 2000)); ("hihat", (5000, 15000));
   ("clap", (1000, 4000)); ("tom", (80, 500)); ("perc", (2000, 8000))].

Definition BASE_THRESHOLDS : list (string * Q) :=
  [("kick", 10#1000); ("snare", 8#1000); ("hihat", 5#1000);
   ("clap", 6#1000); ("tom", 8#1000); ("perc", 4#1000)].

Module Adaptive16.
(** the [EXPECTED_POSITIONS] local to [detect_adaptive] *)
Definition EXPECTED_POSITIONS : list (string * list Z) :=
  [("kick", [0; 8]); ("snare", [4; 12]);
   ("hihat", [0; 2; 4; 6; 8; 10; 12; 14]); ("clap", [4; 12]);
   ("tom", []); ("perc", [0; 2; 4; 6; 8; 10; 12; 14])]%Z.
End Adaptive16.

Section AdaptiveDetection.
Context {AU : Audio}.

Definition get_window_energy
    (audio : Signal) (time_sec : Q) (sr window_samples : Z) : Q :=
  let center_sample := py_int (time_sec * inject_Z sr) in
  let start := Z.max 0 (center_sample - window_samples / 2) in
  let end_ :=
    Z.min (Z.of_N (len audio)) (center_sample + window_samples / 2) in
  if (end_ <=? start)%Z then 0 else rms audio start end_.

(** The body of the innermost loop: one grid position of one drum type
    in one bar.  The state is [existing_times] and [new_hits]. *)
Definition scan_position
    (sr window_samples : Z) (duration bar_start grid_duration : Q)
    (bar_num : Z) (is_quiet : bool)
    (drum_type : string) (filtered_y : Signal) (threshold : Q)
    (st : list Q * list NewHit.t) (grid_pos : Z)
  : list Q * list NewHit.t :=
  let '(existing_times, new_hits) := st in
  let hit_time := bar_start + inject_Z grid_pos * grid_duration in
  if Qltb hit_time 0 || Qgeb hit_time duration then st
  else if existsb (fun t => Qltb (Qabs (t - hit_time)) (3#100))
                  existing_times
  then st
  else
    let energy := get_window_energy filtered_y hit_time sr window_samples in
    if Qgtb energy threshold
    then
      (existing_times ++ [py_round_digits hit_time 3],
       new_hits ++
         [NewHit.mk (py_round_digits hit_time 4) drum_type
                    (py_round_digits (py_min (energy / threshold) 1) 3)
                    bar_num grid_pos (py_round_digits energy 5)
                    (py_round_digits threshold 5) is_quiet
                    "adaptive_detection"])
    else st.

(** The loop over the drum types of one bar. *)
Definition scan_bar
    (sr window_samples : Z) (duration downbeat_offset bar_duration : Q)
    (grid_duration sensitivity_boost : Q)
    (bar_energies : list BarEnergy.t)
    (filtered_audio : list (string * Signal))
    (st : list Q * list NewHit.t) (bar_num : Z)
  : option (list Q * list NewHit.t) :=
  let bar_idx := (bar_num - 1)%Z in
  let bar_start := downbeat_offset + inject_Z bar_idx * bar_duration in
  let bar_info :=
    find (fun b => (BarEnergy.bar b =? bar_num)%Z) bar_energies in
  let is_quiet :=
    match bar_info with
    | Some b => BarEnergy.is_quiet b
    | None => false
    end in
  threshold_multiplier <-
    (if is_quiet then py_div 1 sensitivity_boost else Some 1) ;;
  fold_left
    (fun acc '(drum_type, positions) =>
       st <- acc ;;
       if negb (nonempty positions) then Some st
       else
         filtered_y <- assoc drum_type filtered_audio ;;
         base <- assoc drum_type BASE_THRESHOLDS ;;
         let threshold := base * threshold_multiplier in
         Some (fold_left
                 (scan_position sr window_samples duration bar_start
                                grid_duration bar_num is_quiet drum_type
                                filtered_y threshold)
                 positions st))
    Adaptive16.EXPECTED_POSITIONS (Some st).

(** [detect_adaptive] on the decoded waveform [y] (loaded at 44.1 kHz)
    and the parsed form fields.  [None] is the ['success': False] answer
    of the handler of the enclosing [try]. *)
Definition detect_adaptive
    (y : Signal) (bpm downbeat_offset : Q) (time_signature : Z)
    (existing : list ExistingHit) (target_bars : TargetBars)
    (sensitivity_boost : Q) : option AdaptiveResult.t :=
  let sr := 44100%Z in
  duration <- py_div (inject_Z (Z.of_N (len y))) (inject_Z sr) ;;
  let existing_times :=
    map (fun h => py_round_digits (get_time h) 3) existing in
  beat_duration <- py_div 60 bpm ;;
  let bar_duration := beat_duration * inject_Z time_signature in
  bars <- py_div duration bar_duration ;;
  let total_bars := (py_int bars + 1)%Z in
  let y_perc := apply_hpss_preprocessing y sr in
  let bar_rms :=
    map (fun bar_idx =>
           let bar_start :=
             downbeat_offset + inject_Z bar_idx * bar_duration in
           let bar_end := bar_start + bar_duration in
           let start_sample :=
             Z.max 0 (py_int (bar_start * inject_Z sr)) in
           let end_sample :=
             Z.min (Z.of_N (len y_perc)) (py_int (bar_end * inject_Z sr)) in
           if (start_sample <? end_sample)%Z
           then ((bar_idx + 1)%Z, rms y_perc start_sample end_sample)
           else ((bar_idx + 1)%Z, 0))
        (py_range total_bars) in
  let all_rms := filter (fun r => Qgtb r 0) (map snd bar_rms) in
  let median_rms :=
    if nonempty all_rms then np_median all_rms else 1#100 in
  let bar_energies :=
    map (fun '(bar, r) =>
           BarEnergy.mk bar r (Qltb r (median_rms * (6#10)))
             (if Qgtb median_rms 0
              then py_round_digits (r / median_rms) 3 else 0))
        bar_rms in
  let quiet_bars :=
    map BarEnergy.bar (filter BarEnergy.is_quiet bar_energies) in
  let bars_to_scan :=
    match target_bars with
    | TargetQuiet => quiet_bars
    | TargetList bars => bars
    | TargetAll => py_range1 total_bars
    end in
  filtered_audio <-
    fold_left
      (fun acc '(drum_type, (low, high)) =>
         filtered_audio <- acc ;;
         f <- Adaptive.bandpass_filter
                y_perc low (py_min high (inject_Z sr / 2 - 100))
                (inject_Z sr) 4 ;;
         Some (filtered_audio ++ [(drum_type, f)]))
      DRUM_FILTERS (Some []) ;;
  let grid_duration := beat_duration / 4 in
  let window_samples := py_int (inject_Z sr * (5#100)) in
  scanned <-
    fold_left
      (fun acc bar_num =>
         st <- acc ;;
         scan_bar sr window_samples duration downbeat_offset bar_duration
                  grid_duration sensitivity_boost bar_energies
                  filtered_audio st bar_num)
      bars_to_scan (Some (existing_times, [])) ;;
  let new_hits := sort_by NewHit.time (snd scanned) in
  Some (AdaptiveResult.mk total_bars (Z.of_nat (length bars_to_scan))
                          quiet_bars (py_round_digits median_rms 5)
                          bar_energies new_hits).
End AdaptiveDetection.

(** What the scanning loops maintain, for the rounded times [times0] of
    the pre-existing hits: they stay in [existing_times], and every new
    hit carries the rounding of a grid time that is at least 30 ms away
    from each of them. *)
Definition scan_invariant (times0 : list Q) (st : list Q * list NewHit.t)
  : Prop :=
  incl times0 (fst st) /\
  Forall (fun n =>
            exists hit_time,
              NewHit.time n = py_round_digits hit_time 4 /\
              Forall (fun t => 3#100 <= Qabs (t - hit_time)) times0)
         (snd st).

(** The rescan in the words of the specification: no new hit within 30 ms
    of a pre-existing hit of the same type. *)
Definition rescan_claim
    (existing : list ExistingHit) (new_hits : list NewHit.t) : Prop :=
  forall n e t,
    In n new_hits -> In e existing ->
    existing_type e = NewHit.type n -> existing_time e = Some t ->
    3#100 <= Qabs (NewHit.time n - t).

(** ** Synthetic audio for concrete runs

    A clip records what the external libraries report about it: its length
    in samples, the beat tracker's output, the onset times found in a band,
    and the RMS energy of a sample range in a band.  Filtering tags the
    clip with the band; HPSS is the identity. *)
Record Clip : Type := mkClip {
  clip_len : N;
  clip_band : option (Q * Q);
  clip_tempo : Tempo;
  clip_beats : list Q;
  clip_strength : Q;
  clip_onsets : option (Q * Q) -> option (list Q);
  clip_rms : option (Q * Q) -> Z -> Z -> Q
}.

Definition clip_in_band (low high : Q) (c : Clip) : Clip :=
  mkClip (clip_len c) (Some (low, high)) (clip_tempo c) (clip_beats c)
         (clip_strength c) (clip_onsets c) (clip_rms c).

#[export] Instance clip_audio : Audio := {|
  Signal := Clip;
  len := clip_len;
  rms := fun c => clip_rms c (clip_band c);
  butter_sosfilt := fun _ low high c => Some (clip_in_band low high c);
  isfinite_all := fun _ => true;
  apply_hpss_preprocessing := fun c _ => c;
  onset_detect_times := fun c _ _ => clip_onsets c (clip_band c);
  beat_track := fun c _ => (clip_tempo c, clip_beats c);
  beat_strength_ratio := fun c _ => clip_strength c
|}.

(** Eight bars' worth of nothing: 75 BPM reported with confidence 0.4. *)
Definition clip_75 : Clip :=
  mkClip 176400 None (TempoScalar 75) [0; 8#10; 16#10; 24#10] (4#10)
         (fun _ => Some []) (fun _ _ _ => 0).

(** One bar (4 s at 60 BPM, 44.1 kHz) with [n] onsets in every band,
    reported at 60 BPM with confidence 0.6. *)
Definition clip_one_bar (n : nat) : Clip :=
  mkClip 176400 None (TempoArray [60]) [0; 1; 2; 3] (6#10)
         (fun _ => Some (map (fun i => inject_Z (Z.of_nat i) * (2#10)) (seq 0 n)))
         (fun _ _ _ => 0).

Definition clip_60 : Clip := clip_one_bar 13.

(** What the fallback tracker reports on [clip_one_bar n]. *)
Definition result_60 : BeatResult :=
  mkBeatResult 60 (6#10) [0; 1; 2; 3] (downbeats_mod4 [0; 1; 2; 3]) 4.

(** Two seconds at 120 BPM (beats at 0, 0.5, 1, 1.5 s, confidence 0.8) with
    one loud event at 0.5 s in the mid and high bands: the 30 ms window
    around 0.5 s is samples 21389 to 22711, and only there the energy is 1.
    The bands are recognised by their normalised upper edge. *)
Definition clip_backbeat : Clip :=
  mkClip 88200 None (TempoScalar 120) [0; 1#2; 1; 3#2] (8#10)
         (fun _ => Some [])
         (fun band start end_ =>
            match band with
            | Some (_, high) =>
                if Qltb (5#100) high && (start =? 21389)%Z && (end_ =? 22711)%Z
                then 1 else 0
            | None => 0
            end).

(** The same two seconds with, in addition, a low-band event at 0.25 s
    (samples 10364 to 11686). *)
Definition clip_syncopated : Clip :=
  mkClip 88200 None (TempoScalar 120) [0; 1#2; 1; 3#2] (8#10)
         (fun _ => Some [])
         (fun band start end_ =>
            match band with
            | Some (_, high) =>
                if Qltb (5#100) high
                then if (start =? 21389)%Z && (end_ =? 22711)%Z then 1 else 0
                else if (start =? 10364)%Z && (end_ =? 11686)%Z then 1 else 0
            | None => 0
            end).

(** Two seconds whose only energy above the noise floor (0.1 on the
    unfiltered signal) is in the kick band (normalised upper edge below
    0.012) over the first 1102 samples. *)
Definition clip_downbeat_kick : Clip :=
  mkClip 88200 None (TempoScalar 120) [0; 1#2; 1; 3#2] (8#10)
         (fun _ => Some [])
         (fun band start end_ =>
            match band with
            | Some (_, high) =>
                if Qltb high (12#1000) && (start =? 0)%Z && (end_ =? 1102)%Z
                then 1 else 0
            | None => 1#10
            end).

(* ================================================================== *)
(** * Part I, continued: further functions of [rhythm_analyzer.py]      *)
(* ================================================================== *)

(** ** Rounding

    The source compares binary64 floats; the definitions of this file
    compare the exact rationals.  The two comparisons agree unless the
    compared quantities are closer to each other than the rounding error
    of the float computation, a few units in the last place.  A statement
    that depends on such a comparison keeps [rounding_margin] away from
    the boundary: 1e-9 (a nanosecond, for times), far above the rounding
    error of binary64 on times below 10^6 s and far below anything
    audible. *)
Definition rounding_margin : Q := 1 # 1000000000.

(** *** The same arithmetic in binary64 *)

(** The exact value of a finite float. *)
Definition b64_value (x : PrimFloat.float) : option Q :=
  match FloatOps.Prim2SF x with
  | SpecFloat.S754_zero _ => Some 0
  | SpecFloat.S754_finite s m e =>
      let v :=
        match e with
        | Z0 => inject_Z (Z.pos m)
        | Zpos p => inject_Z (Z.pos m * 2 ^ Z.pos p)
        | Zneg p => Z.pos m # (2 ^ p)
        end in
      Some (if s then - v else v)
  | SpecFloat.S754_infinity _ => None
  | SpecFloat.S754_nan => None
  end.

(** [float(k)] for an integer [k]: the nearest float, ties to even. *)
Definition b64_of_Z (k : Z) : PrimFloat.float :=
  FloatOps.SF2Prim
    (SpecFloat.binary_normalize FloatOps.prec FloatOps.emax k 0 false).

(** [round(x)] on a float: the nearest integer to its exact value, ties
    to even; [None] is the [OverflowError] or [ValueError] of an infinite
    or nan argument. *)
Definition py_round_b64 (x : PrimFloat.float) : option Z :=
  option_map py_round (b64_value x).

(** [x % y] for floats [0 <= x] and [0 < y]: C's [fmod], which is exact;
    [None] outside that range. *)
Definition py_mod_b64 (x y : PrimFloat.float) : option PrimFloat.float :=
  match b64_value x, b64_value y with
  | Some vx, Some vy =>
      if Qle_bool 0 vx && Qltb 0 vy
      then
        let r := Qred (py_mod vx vy) in
        Some (FloatOps.SF2Prim
                (SpecFloat.binary_normalize
                   FloatOps.prec FloatOps.emax (Qnum r)
                   (- Z.log2 (Z.pos (Qden r))) false))
      else None
  | _, _ => None
  end.

(** The time [quantize_to_grid] returns for a hit at time [t], with the
    default subdivision 4: the lines of the loop body that compute
    [quantized_time], operation by operation. *)
Definition quantize_time_b64
    (bpm downbeat_offset swing quantize_strength t : PrimFloat.float)
  : option PrimFloat.float :=
  let beat_duration := (60 / bpm)%float in
  let grid_duration := (beat_duration / 4)%float in
  let swing_ratio := (swing / 100)%float in
  let swing_offset := ((swing_ratio - 0.5) * grid_duration)%float in
  let rel_time := (t - downbeat_offset)%float in
  grid_index <- py_round_b64 (rel_time / grid_duration)%float ;;
  let grid_time :=
    if (grid_index mod 2 =? 1)%Z
    then (b64_of_Z grid_index * grid_duration + swing_offset)%float
    else (b64_of_Z grid_index * grid_duration)%float in
  let grid_time := (grid_time + downbeat_offset)%float in
  Some (t + (grid_time - t) * quantize_strength)%float.

(** "quantizing that output again ... returns hit times bit-equal to the
    input", for one hit at time [t]. *)
Definition requantized_bit_equal
    (bpm downbeat_offset swing t : PrimFloat.float) : Prop :=
  forall once,
    quantize_time_b64 bpm downbeat_offset swing 1 t = Some once ->
    quantize_time_b64 bpm downbeat_offset swing 1 once = Some once.

(** *** Quantizing twice, up to rounding *)

(** How far, in steps, a swung odd step is from the nearer of the two
    half-way points at which [round] changes its answer: 0.5 at swing 50,
    0 at swing 0 and 100. *)
Definition swing_room (swing : Q) : Q :=
  (1#2) - Qabs (swing / 100 - (1#2)).

(** Quantizing the output of a full-strength quantization again.  The
    first pass computes [once]; what the second pass is given is
    [stored], each time within [delta] of the one in [once] (the source
    stores a float, rounded).  The second pass returns the times of
    [once] again, and so changes no stored time by more than [delta]:
    both up to the rounding margin, not bit for bit. *)
Definition requantized_within (delta : Q) (hits : list DrumHit)
    (bpm downbeat_offset swing : Q) : Prop :=
  forall once g1 stored,
    quantize_to_grid hits bpm downbeat_offset swing 1 4 = Some (once, g1) ->
    Forall2 (fun a s => Qabs (time s - time a) <= delta /\ same_but_time a s)
            once stored ->
    exists twice g2,
      quantize_to_grid stored bpm downbeat_offset swing 1 4
      = Some (twice, g2)
      /\ Forall2 (fun a b => Qabs (time b - time a) <= rounding_margin
                             /\ same_but_time a b)
                 once twice
      /\ Forall2 (fun s b => Qabs (time b - time s) <= delta + rounding_margin
                             /\ same_but_time s b)
                 stored twice.

(** [density_ratio] of [correct_half_time_spectral] for a waveform of
    [n] samples at rate [sr] with [actual_total] onsets in the band. *)
Definition density_ratio_b64
    (n sr : Z) (detected_bpm : PrimFloat.float) (actual_total : Z)
  : PrimFloat.float :=
  let duration := (b64_of_Z n / b64_of_Z sr)%float in
  let bar_duration := (60 / detected_bpm * 4)%float in
  let num_bars := (duration / bar_duration)%float in
  let expected_transients_per_bar := 8%float in
  let expected_total := (num_bars * expected_transients_per_bar)%float in
  (b64_of_Z actual_total / (expected_total + 1))%float.

(** [distance_sec] of [filter_hits_by_pattern] for a hit at [hit_time]
    (at or after the downbeat) and the pattern position [expected_pos]. *)
Definition distance_sec_b64
    (bpm downbeat_time : PrimFloat.float) (time_signature : Z)
    (hit_time expected_pos : PrimFloat.float) : option PrimFloat.float :=
  let beat_duration := (60 / bpm)%float in
  let bar_duration := (beat_duration * b64_of_Z time_signature)%float in
  let time_from_downbeat := (hit_time - downbeat_time)%float in
  m <- py_mod_b64 time_from_downbeat bar_duration ;;
  let bar_position := (m / beat_duration)%float in
  let distance := PrimFloat.abs (bar_position - expected_pos)%float in
  Some (distance * beat_duration)%float.

(** The length of [np.arange(0, stop, step)]: the ceiling of the float
    quotient. *)
Definition np_arange0_length_b64 (stop step : PrimFloat.float) : option Z :=
  option_map Qceiling (b64_value (stop / step)%float).

(** [hit_time] of the scanning loop of [detect_adaptive]. *)
Definition adaptive_grid_time_b64
    (bpm downbeat_offset : PrimFloat.float) (time_signature : Z)
    (bar_num grid_pos : Z) : PrimFloat.float :=
  let beat_duration := (60 / bpm)%float in
  let bar_duration := (beat_duration * b64_of_Z time_signature)%float in
  let grid_duration := (beat_duration / 4)%float in
  let bar_idx := (bar_num - 1)%Z in
  let bar_start :=
    (downbeat_offset + b64_of_Z bar_idx * bar_duration)%float in
  (bar_start + b64_of_Z grid_pos * grid_duration)%float.

(** ** The second half-time rule and the AI-enhanced analysis *)

(** [correct_half_time_beats]; its interpolation loop has the text of the
    one in [correct_half_time_spectral]. *)
Definition correct_half_time_beats
    (bpm : Q) (beats : list Q) (downbeats : list Downbeat)
  : Q * list Q * list Downbeat :=
  if Qgeb bpm 90 then (bpm, beats, downbeats)
  else
    let corrected_bpm := bpm * 2 in
    let corrected_beats := interpolate_beats beats in
    let corrected_downbeats :=
      fold_left
        (fun corrected_downbeats '(i, t) =>
           if (Z.of_nat i mod 4 =? 0)%Z
           then corrected_downbeats ++ [mkDownbeat t 1]
           else corrected_downbeats)
        (combine (seq 0 (length corrected_beats)) corrected_beats) [] in
    (corrected_bpm, corrected_beats, corrected_downbeats).

(** Every second element of a list, from the first on. *)
Fixpoint every_second (l : list Q) : list Q :=
  match l with
  | a :: _ :: l' => a :: every_second l'
  | _ => l
  end.

(** "Convert to DrumHit objects" and sort, in [analyze_rhythm_with_ai]. *)
Definition detected_hits_ai (beat_aligned_hits : list (string * list Q))
  : list DrumHit :=
  let hits :=
    flat_map
      (fun '(drum_type, times) =>
         map (fun t => mkDrumHit t drum_type (85#100) None) times)
      beat_aligned_hits in
  sort_by time hits.

Section AiPipeline.
Context {AU : Audio}.

(** [analyze_rhythm_with_ai] after [detect_beats] has returned
    [beat_result]. *)
Definition analyze_rhythm_with_ai_from
    (beat_result : BeatResult) (y : Signal) (sr : Z)
    (apply_pattern_filter : bool) (pattern_tolerance_ms : Q)
  : option RhythmAnalysisResult.t :=
  duration <- py_div (inject_Z (Z.of_N (len y))) (inject_Z sr) ;;
  let '(corrected_bpm, corrected_beats, corrected_downbeats) :=
    correct_half_time_beats (bpm beat_result) (beats beat_result)
                            (downbeats beat_result) in
  beat_aligned_hits <-
    detect_drums_beat_aligned y sr corrected_beats
                              (time_signature beat_result) ;;
  let hits := detected_hits_ai beat_aligned_hits in
  let swing :=
    detect_swing hits (beats beat_result) (time_signature beat_result) in
  let '(detected_genre, genre_confidence) :=
    detect_genre (bpm beat_result) hits swing in
  let hits_before_filter := Z.of_nat (length hits) in
  let pattern_filter_applied := false in
  let hits_after_filter := Z.of_nat (length hits) in
  let analysis_method := "gemini-ai" in
  let analysis_method :=
    if pattern_filter_applied
    then String.append analysis_method "+pattern_filter"
    else analysis_method in
  Some (RhythmAnalysisResult.mk
          corrected_bpm (bpm_confidence beat_result) corrected_beats
          corrected_downbeats (time_signature beat_result) hits swing
          analysis_method duration "gemini_ai" detected_genre
          genre_confidence pattern_filter_applied hits_before_filter
          hits_after_filter).

(** [analyze_rhythm_with_ai] when beat detection takes the librosa path. *)
Definition analyze_rhythm_with_ai
    (y : Signal) (sr : Z)
    (apply_pattern_filter : bool) (pattern_tolerance_ms : Q)
  : option RhythmAnalysisResult.t :=
  _ <- py_div (inject_Z (Z.of_N (len y))) (inject_Z sr) ;;
  beat_result <- detect_beats_fallback y sr ;;
  analyze_rhythm_with_ai_from beat_result y sr apply_pattern_filter
                              pattern_tolerance_ms.
End AiPipeline.

(** The elements of [l] whose index, counted from [k], is a multiple of
    four. *)
Fixpoint at_multiples_of_4 (k : nat) (l : list Q) : list Q :=
  match l with
  | [] => []
  | t :: l' =>
      if (Z.of_nat k mod 4 =? 0)%Z
      then t :: at_multiples_of_4 (S k) l'
      else at_multiples_of_4 (S k) l'
  end.

(** Four silent seconds on which the tracker reports 40 BPM with
    confidence 0.3. *)
Definition clip_40 : Clip :=
  mkClip 176400 None (TempoScalar 40) [0; 15#10; 3] (3#10)
         (fun _ => Some []) (fun _ _ _ => 0).

(** The pair [quantize_to_grid] returns when it returns, the empty pair
    otherwise: for concrete runs. *)
Definition quantize_to_grid_run
    (hits : list DrumHit) (bpm downbeat_offset swing strength : Q)
    (subdivision : Z) : list DrumHit * list GridPosition :=
  match quantize_to_grid hits bpm downbeat_offset swing strength
                         subdivision with
  | Some r => r
  | None => ([], [])
  end.

(** The tempo windows in which [detect_genre] scores a genre. *)
Definition genre_window (genre : string) (bpm : Q) : Prop :=
  (genre = "edm" /\ 118 <= bpm <= 138) \/
  (genre = "afro_house" /\ 115 <= bpm <= 130) \/
  (genre = "trap" /\ (60 <= bpm <= 90 \/ 130 <= bpm <= 180)) \/
  (genre = "pop" /\ 85 <= bpm <= 135) \/
  (genre = "hip_hop" /\ 80 <= bpm <= 120) \/
  (genre = "kpop" /\ 95 <= bpm <= 145).

(** ** Pattern filter, one hit at a time *)

(** [positions_dict.get(genre, positions_dict.get('default', []))] for the
    [positions_dict] of a drum type. *)
Definition expected_positions_for
    (drum_type : string) (genre : option string) : list Q :=
  let positions_dict :=
    match assoc drum_type EXPECTED_POSITIONS with
    | Some d => d
    | None => [("default", half_beats)]
    end in
  let default_positions :=
    match assoc "default" positions_dict with
    | Some p => p
    | None => []
    end in
  match genre with
  | Some g =>
      match assoc g positions_dict with
      | Some p => p
      | None => default_positions
      end
  | None => default_positions
  end.

(** What one pass of the loop of [filter_hits_by_pattern] decides for
    [hit]: keep it, drop it, or raise. *)
Definition pattern_keep
    (beat_duration bar_duration tolerance_sec downbeat_time : Q)
    (genre : option string) (hit : DrumHit) : option bool :=
  let time_from_downbeat := time hit - downbeat_time in
  if Qltb time_from_downbeat 0
  then
    match assoc (type hit) EXPECTED_POSITIONS with
    | Some _ => Some false
    | None => None
    end
  else
    m <- py_fmod time_from_downbeat bar_duration ;;
    let bar_position := m / beat_duration in
    Some
      (existsb
         (fun expected_pos =>
            let distance := Qabs (bar_position - expected_pos) in
            let distance_sec := distance * beat_duration in
            Qle_bool distance_sec tolerance_sec)
         (expected_positions_for (type hit) genre)).

(** The decision [filter_hits_by_pattern] takes with its arguments. *)
Definition pattern_keep_with
    (bpm downbeat_time : Q) (time_signature : Z) (genre : option string)
    (tolerance_ms : Q) : DrumHit -> option bool :=
  pattern_keep (60 / bpm) (60 / bpm * inject_Z time_signature)
               (tolerance_ms / 1000) downbeat_time genre.

Definition is_kept (d : option bool) : bool :=
  match d with Some true => true | _ => false end.

(** The absolute time of pattern position [p] (in beats) of bar [n]. *)
Definition pattern_time (bpm downbeat_time : Q) (time_signature : Z)
    (n : Z) (p : Q) : Q :=
  downbeat_time + inject_Z n * (60 / bpm * inject_Z time_signature)
  + p * (60 / bpm).

(** ** Beat-aligned detection: where a hit can be placed *)

(** [t] is the beat of an index [i] with [i % time_signature in [1, 3]]. *)
Definition on_backbeat (beats : list Q) (time_signature : Z) (t : Q) : Prop :=
  exists i : nat,
    (i < length beats)%nat /\ nth i beats 0 = t /\
    Z_in (Z.of_nat i mod time_signature) [1; 3]%Z = true.

(** [t] is the entry of an even index of the 16th-note positions. *)
Definition on_even_sixteenth (beats : list Q) (t : Q) : Prop :=
  exists idx : nat,
    (idx < length (sixteenth_positions beats))%nat /\
    nth idx (sixteenth_positions beats) 0 = t /\
    Nat.even idx = true.

(** ** Adaptive rescan: what the scanning loops maintain *)

(** The new hits carry the roundings of grid times [hts], in the order
    in which they were added; each grid time was recorded, rounded to
    the millisecond, in [existing_times], and a later grid time is at
    least 30 ms away from the recorded rounding of every earlier one. *)
Definition scan_apart (st : list Q * list NewHit.t) : Prop :=
  exists hts : list Q,
    map NewHit.time (snd st) = map (fun ht => py_round_digits ht 4) hts /\
    Forall (fun ht => In (py_round_digits ht 3) (fst st)) hts /\
    StronglySorted
      (fun a b => 3#100 <= Qabs (py_round_digits a 3 - b)) hts.

(** [a] is at least 29.4 ms before [b]. *)
Definition well_before (a b : NewHit.t) : Prop :=
  NewHit.time a + (294#10000) <= NewHit.time b.

(** The time of grid position [grid_pos] (in 16th notes) of bar
    [bar_num], as the scanning loop of [detect_adaptive] computes it. *)
Definition adaptive_grid_time
    (bpm downbeat_offset : Q) (time_signature : Z) (bar_num grid_pos : Z)
  : Q :=
  downbeat_offset
  + inject_Z (bar_num - 1) * (60 / bpm * inject_Z time_signature)
  + inject_Z grid_pos * (60 / bpm / 4).

(** The new hit [detect_adaptive] appends for a grid time [hit_time] at
    which it measured [energy] above [threshold]. *)
Definition adaptive_new_hit
    (hit_time : Q) (drum_type : string) (energy threshold : Q)
    (bar_num grid_pos : Z) (is_quiet : bool) : NewHit.t :=
  NewHit.mk (py_round_digits hit_time 4) drum_type
            (py_round_digits (py_min (energy / threshold) 1) 3)
            bar_num grid_pos (py_round_digits energy 5)
            (py_round_digits threshold 5) is_quiet
            "adaptive_detection".


(** ** Standard analysis: what a hit of the output looks like *)

(** A hit stands where the beat-aligned detector looks for its drum
    type. *)
Definition on_detection_grid
    (beats : list Q) (time_signature : Z) (h : DrumHit) : Prop :=
  (type h = "kick" /\ on_even_sixteenth beats (time h)) \/
  (type h = "snare" /\ on_backbeat beats time_signature (time h)) \/
  (type h = "hihat" /\ In (time h) (interpolate_beats beats)) \/
  (type h = "clap" /\ on_backbeat beats time_signature (time h)).

(** ** Downbeat shifting *)

(** What [shift_downbeat] returns; the key [time_signature] is absent
    when there is no downbeat. *)
Module ShiftResult.
Record t : Type := mk {
  downbeats : list Downbeat;
  shifted : Z;
  time_signature : option Z
}.
End ShiftResult.

(** [a % b] on integers: the sign of the divisor, and [ZeroDivisionError]
    on a zero divisor. *)
Definition py_imod (a b : Z) : option Z :=
  if (b =? 0)%Z then None else Some (a mod b)%Z.

(** [max(d['beat_position'] for d in downbeats)] of a non-empty list. *)
Definition max_beat_position (d0 : Downbeat) (ds : list Downbeat) : Z :=
  fold_left (fun m d => Z.max m (beat_position d)) ds (beat_position d0).

(** [shift_downbeat]; every downbeat has both of its keys.  The argument
    [beats] is not read. *)
Definition shift_downbeat
    (beats : list Q) (downbeats : list Downbeat) (shift_beats : Z)
  : option ShiftResult.t :=
  match downbeats with
  | [] => Some (ShiftResult.mk downbeats 0 None)
  | d0 :: ds =>
      let time_signature := max_beat_position d0 ds in
      new_downbeats <-
        fold_left
          (fun acc d =>
             new_downbeats <- acc ;;
             m <- py_imod (beat_position d - 1 + shift_beats)
                          time_signature ;;
             let new_position := (m + 1)%Z in
             Some (new_downbeats
                     ++ [mkDownbeat (downbeat_time d) new_position]))
          downbeats (Some []) ;;
      Some (ShiftResult.mk new_downbeats shift_beats (Some time_signature))
  end.

(** The positions of a list of downbeats cover a whole bar of
    [time_signature] beats: each one is in 1..[time_signature] and each
    of 1..[time_signature] occurs. *)
Definition whole_bar (time_signature : Z) (downbeats : list Downbeat) : Prop :=
  Forall (fun d => (1 <= beat_position d <= time_signature)%Z) downbeats /\
  forall p, (1 <= p <= time_signature)%Z ->
            In p (map beat_position downbeats).

(** The downbeats [shift_downbeat] returns, and [[]] when it raises. *)
Definition shifted_downbeats
    (beats : list Q) (downbeats : list Downbeat) (shift_beats : Z)
  : list Downbeat :=
  match shift_downbeat beats downbeats shift_beats with
  | Some r => ShiftResult.downbeats r
  | None => []
  end.

(** ** Merging onsets *)

(** [detect_onsets] once the two detectors have answered (madmom absent
    or failing): [drum_onsets] is what [detect_onsets_drums] returned and
    [standard_onsets] what [detect_onsets_librosa] returned. *)
Definition detect_onsets_from (drum_onsets standard_onsets : list Q)
  : list Q :=
  let all_onsets := drum_onsets ++ standard_onsets in
  let all_onsets := py_sorted all_onsets in
  if (1 <? length all_onsets)%nat
  then
    let diffs := np_diff all_onsets in
    let keep_mask := true :: map (fun d => Qgtb d (3#100)) diffs in
    map fst (filter snd (combine all_onsets keep_mask))
  else all_onsets.

(** The onsets of [l] that are more than 30 ms after their predecessor,
    [p] being the predecessor of the first. *)
Fixpoint later_than_predecessor (p : Q) (l : list Q) : list Q :=
  match l with
  | [] => []
  | y :: l' =>
      (if Qgtb (y - p) (3#100) then [y] else [])
        ++ later_than_predecessor y l'
  end.

(** ** Quantizer endpoints *)

(** What pydantic makes of a value handed to a field of a model: the
    value the field then holds, or a validation error (for the float
    fields of [DrumHit]: null, a list, a string that is no number). *)
Inductive Validated (A : Type) : Type :=
| Accepted (a : A)
| Rejected.
Arguments Accepted {A} a.
Arguments Rejected {A}.

(** An element of the [hits] array of a quantize-instrument request, a
    [Dict[str, Any]].  A key may be missing ([None]); a value that is
    present may be one that the field of [DrumHit] it is handed to
    rejects.  [raw_type] is the value of ['type'] when it is a string:
    any other value differs from the drum type of the request, as a
    missing one does.  [raw_features] is what the field makes of
    [h.get('features')]; a missing key and null both give [None]. *)
Record RawHit : Type := mkRawHit {
  raw_time : option (Validated Q);
  raw_type : option string;
  raw_confidence : option (Validated Q);
  raw_features : Validated (option (list (string * Q)))
}.

(** [h.get(key, default)] *)
Definition get_or {A : Type} (default : A) (v : option A) : A :=
  match v with
  | Some a => a
  | None => default
  end.

(** [h.get('type') == drum_type] *)
Definition has_type (drum_type : string) (h : RawHit) : bool :=
  match raw_type h with
  | Some t => String.eqb t drum_type
  | None => false
  end.

(** [DrumHit(time=..., type=..., confidence=..., features=...)]; [None]
    is the [ValidationError] of a rejected value. *)
Definition make_DrumHit
    (time : Validated Q) (type : string) (confidence : Validated Q)
    (features : Validated (option (list (string * Q)))) : option DrumHit :=
  match time, confidence, features with
  | Accepted t, Accepted c, Accepted f => Some (mkDrumHit t type c f)
  | _, _, _ => None
  end.

(** The [DrumHit] the endpoint builds from a request hit. *)
Definition instrument_hit (drum_type : string) (h : RawHit)
  : option DrumHit :=
  make_DrumHit (get_or (Accepted 0) (raw_time h)) drum_type
               (get_or (Accepted 1) (raw_confidence h)) (raw_features h).

(** The confidence a request hit carries: 1 when the key is missing. *)
Definition confidence_or_one (h : RawHit) : Q :=
  match raw_confidence h with
  | Some (Accepted c) => c
  | _ => 1
  end.

(** [quantize_grid_endpoint]: every hit of the request is validated as
    a [DrumHit] (built from the whole dictionary), then the quantizer
    runs with its default subdivision. *)
Definition quantize_grid_endpoint
    (request_hits : list (Validated DrumHit))
    (bpm downbeat_offset swing quantize_strength : Q)
  : option (list DrumHit * list GridPosition) :=
  hits <-
    fold_left
      (fun acc h =>
         hits <- acc ;;
         match h with
         | Accepted d => Some (hits ++ [d])
         | Rejected => None
         end)
      request_hits (Some []) ;;
  r <- quantize_to_grid hits bpm downbeat_offset swing quantize_strength 4 ;;
  let '(quantized, positions) := r in
  Some (quantized, positions).

(** [quantize_instrument_endpoint]; the result is the triple of the
    values of ['hits'], ['grid_positions'] and ['drum_type'].  [None] is
    an exception leaving the endpoint: the validation error of a hit of
    the drum type, or the [ZeroDivisionError] of the quantizer. *)
Definition quantize_instrument_endpoint
    (drum_type : string) (hits : list RawHit)
    (bpm downbeat_offset swing quantize_strength : Q) (subdivision : Z)
  : option (list DrumHit * list GridPosition * string) :=
  instrument_hits <-
    fold_left
      (fun acc h =>
         instrument_hits <- acc ;;
         if has_type drum_type h
         then
           hit <- instrument_hit drum_type h ;;
           Some (instrument_hits ++ [hit])
         else Some instrument_hits)
      hits (Some []) ;;
  if negb (nonempty instrument_hits)
  then Some ([], [], drum_type)
  else
    r <- quantize_to_grid instrument_hits bpm downbeat_offset swing
                          quantize_strength subdivision ;;
    let '(quantized, positions) := r in
    Some (quantized, positions, drum_type).

(** ** Pattern matching: the grid step of a hit *)


(** ** Rule-based classification of one hit *)

(** The [scores] dictionary of [classify_hit_rules], in insertion order,
    after the pattern-aware boosting.  [None] is the [ZeroDivisionError]
    of the three quotients by [total_energy], which is 0 when the
    energies sum to -0.001. *)
Definition rule_scores
    (low low_mid mid high_mid hihat_band all_high : Q)
    (decay flatness zcr centroid : Q) (beat_position : option Q)
  : option (list (string * Q)) :=
  let total_energy := low + mid + all_high + (1#1000) in
  low_dominance <- py_div low total_energy ;;
  mid_dominance <- py_div mid total_energy ;;
  high_dominance <- py_div all_high total_energy ;;
  (* kick *)
  let kick := 0 in
  let kick :=
    if Qltb centroid (15#100) then kick + (6#10)
    else if Qltb centroid (22#100) then kick + (3#10)
    else kick in
  let kick :=
    if Qgtb low_dominance (50#100) then kick + (3#10)
    else if Qgtb low_dominance (42#100) then kick + (15#100)
    else kick in
  let kick := add_if (Qgtb low (all_high * (25#10))) (2#10) kick in
  let kick := if Qgtb centroid (30#100) then kick - (3#10) else kick in
  let kick := if Qgtb centroid (40#100) then kick - (3#10) else kick in
  (* hi-hat *)
  let hihat := 0 in
  let hihat :=
    if Qgtb centroid (50#100) then hihat + (5#10)
    else if Qgtb centroid (40#100) then hihat + (35#100)
    else if Qgtb centroid (32#100) then hihat + (15#100)
    else hihat in
  let hihat :=
    if Qltb decay 12 then hihat + (25#100)
    else if Qltb decay 20 then hihat + (15#100)
    else hihat in
  let hihat :=
    if Qgtb high_dominance (35#100) then hihat + (2#10)
    else if Qgtb high_dominance (25#100) then hihat + (1#10)
    else hihat in
  let hihat := add_if (Qgtb hihat_band (10#100)) (15#100) hihat in
  let hihat :=
    if Qgtb low_dominance (40#100) then hihat - (3#10) else hihat in
  (* snare *)
  let snare := 0 in
  let snare :=
    add_if (Qltb (22#100) centroid && Qltb centroid (48#100)) (3#10) snare in
  let snare :=
    if Qgtb flatness (28#100) then snare + (35#100)
    else if Qgtb flatness (20#100) then snare + (2#10)
    else snare in
  let snare :=
    if Qgtb zcr (7#100) then snare + (2#10)
    else if Qgtb zcr (5#100) then snare + (1#10)
    else snare in
  let snare := add_if (Qgtb mid_dominance (22#100)) (15#100) snare in
  let snare := add_if (Qgtb high_mid (10#100)) (1#10) snare in
  let snare := add_if (Qltb 10 decay && Qltb decay 50) (1#10) snare in
  (* clap *)
  let clap := 0 in
  let clap := add_if (Qgtb flatness (42#100)) (4#10) clap in
  let clap := add_if (Qgtb flatness (50#100)) (2#10) clap in
  let clap := add_if (Qgtb zcr (10#100)) (2#10) clap in
  let clap :=
    add_if (Qltb (25#100) centroid && Qltb centroid (45#100)) (1#10) clap in
  (* tom *)
  let tom := 0 in
  let tom :=
    add_if (Qltb flatness (22#100) && Qgtb decay 30) (35#100) tom in
  let tom := add_if (Qgtb low_mid (12#100)) (15#100) tom in
  let tom :=
    add_if (Qltb (15#100) centroid && Qltb centroid (35#100)) (15#100) tom in
  (* perc *)
  let perc := 0 + (8#100) in
  (* pattern-aware boosting *)
  let '(kick, hihat) :=
    match beat_position with
    | Some beat_position =>
        let on_beat :=
          Qltb beat_position (1#10) || Qgtb beat_position (9#10) in
        let on_offbeat :=
          Qltb (4#10) beat_position && Qltb beat_position (6#10) in
        ((if on_beat then kick * (13#10) else kick),
         (if on_offbeat then hihat * (12#10) else hihat))
    | None => (kick, hihat)
    end in
  Some [("kick", kick); ("snare", snare); ("hihat", hihat); ("clap", clap);
        ("tom", tom); ("perc", perc)].

(** [sum(scores.values())] *)
Definition py_sum (l : list Q) : Q := fold_left Qplus l 0.

(** The end of [classify_hit_rules]: best type and confidence.  The
    scores are sums of decimal constants, taken here as exact; two scores
    that are equal as exact sums can differ in the last bit as floats, and
    [max] may then pick the other of the two types. *)
Definition rule_verdict (scores : list (string * Q)) : string * Q :=
  match best_key scores with
  | None => ("", 0)
  | Some (best_type, best_score) =>
      let total_score := py_sum (map snd scores) in
      let confidence :=
        if Qgtb total_score 0 then best_score / total_score else 5#10 in
      let sorted_scores := rev (py_sorted (map snd scores)) in
      let confidence :=
        if (1 <? length sorted_scores)%nat
           && Qgtb (nth 0 sorted_scores 0)
                   (nth 1 sorted_scores 0 * (15#10))
        then py_min (confidence * (12#10)) (95#100)
        else confidence in
      (best_type, confidence)
  end.

(** [classify_hit_rules]; [None] is the [KeyError] of a missing required
    feature or the [ZeroDivisionError] of a zero [total_energy]. *)
Definition classify_hit_rules
    (features : list (string * Q)) (beat_position : option Q)
  : option (string * Q) :=
  low <- assoc "low_energy_ratio" features ;;
  let sub_bass := get_or (low * (3#10)) (assoc "sub_bass_ratio" features) in
  let bass := get_or (low * (7#10)) (assoc "bass_ratio" features) in
  let low_mid := get_or (15#100) (assoc "low_mid_ratio" features) in
  mid <- assoc "mid_energy_ratio" features ;;
  let high_mid := get_or (15#100) (assoc "high_mid_ratio" features) in
  high <- assoc "high_energy_ratio" features ;;
  let hihat_band :=
    get_or (high * (8#10)) (assoc "hihat_band_ratio" features) in
  let all_high :=
    get_or (high + high_mid) (assoc "all_high_ratio" features) in
  transient <- assoc "transient_width" features ;;
  decay <- assoc "decay_time" features ;;
  flatness <- assoc "spectral_flatness" features ;;
  zcr <- assoc "zero_crossing_rate" features ;;
  let centroid := get_or (5#10) (assoc "spectral_centroid" features) in
  scores <- rule_scores low low_mid mid high_mid hihat_band all_high
                        decay flatness zcr centroid beat_position ;;
  Some (rule_verdict scores).

(** ** The synthetic beat grid *)

(** The tempo [detect_beats_librosa] reads off the tracker's answer. *)
Definition tempo_value (tempo : Tempo) : Q :=
  match tempo with
  | TempoArray a => match a with t :: _ => t | [] => 120 end
  | TempoScalar t => t
  end.

(** Two seconds at 44.1 kHz in which the tracker reports 100 BPM and a
    single beat. *)
Definition clip_untracked : Clip :=
  mkClip 88200 None (TempoScalar 100) [1#4] (3#10)
         (fun _ => Some []) (fun _ _ _ => 0).

(** Two seconds at 120 BPM with energy 1 in every band and every window
    (0.1 on the unfiltered signal): each grid position passes its
    threshold for the first drum type that scans it. *)
Definition clip_loud : Clip :=
  mkClip 88200 None (TempoScalar 120) [0; 1#2; 1; 3#2] (8#10)
         (fun _ => Some [])
         (fun band _ _ =>
            match band with
            | Some _ => 1
            | None => 1#10
            end).

(** Two seconds at 120 BPM with a low-band event on the first beat
    (samples 0 to 661) and high-band events on the off-beat eighths at
    0.25 s, 0.75 s and 1.25 s (the 30 ms windows starting at samples
    10364, 32414 and 54464); silence elsewhere.  The bands are recognised
    by their normalised upper edge. *)
Definition clip_offbeat_hats : Clip :=
  mkClip 88200 None (TempoScalar 120) [0; 1#2; 1; 3#2] (8#10)
         (fun _ => Some [])
         (fun band start end_ =>
            match band with
            | Some (_, high) =>
                if Qltb (1#2) high
                then if Z_in start [10364; 32414; 54464]%Z then 1 else 0
                else if Qltb high (5#100)
                then if (start =? 0)%Z && (end_ =? 661)%Z then 1 else 0
                else 0
            | None => 0
            end).

(** ** Swing on an evenly spaced beat grid *)

(** Beat [i] of [l] is at [b0 + i * d]. *)
Fixpoint evenly_spaced (b0 d : Q) (l : list Q) : Prop :=
  match l with
  | [] => True
  | a :: l' => a == b0 /\ evenly_spaced (b0 + d) d l'
  end.

(** [t] is a whole number of half beats after [b0]. *)
Definition on_half_grid (b0 d t : Q) : Prop :=
  exists k : nat, t == b0 + inject_Z (Z.of_nat k) * (d * (1#2)).

(** The 16th-note positions by recursion on the beats: four per beat
    interval, then the last beat. *)
Fixpoint sixteenths (l : list Q) : list Q :=
  match l with
  | a :: ((b :: _) as l') =>
      a :: (a + (b - a) * (25#100)) :: (a + (b - a) * (5#10))
        :: (a + (b - a) * (75#100)) :: sixteenths l'
  | _ => l
  end.

(** The four positions the 16th-note loop appends per beat interval. *)
Fixpoint sixteenth_groups (l : list Q) : list Q :=
  match l with
  | a :: ((b :: _) as l') =>
      a :: (a + (b - a) * (25#100)) :: (a + (b - a) * (5#10))
        :: (a + (b - a) * (75#100)) :: sixteenth_groups l'
  | _ => []
  end.

(* ================================================================== *)
(** * Part II: properties                                              *)
(* ================================================================== *)

(** ** Comparisons and rounding *)

Lemma Qltb_lt (x y : Q) : Qltb x y = true <-> x < y.
Proof.
  unfold Qltb. rewrite negb_true_iff.
  split; intro H.
  - apply Qnot_le_lt. intro Hle. apply Qle_bool_iff in Hle. congruence.
  - apply not_true_is_false. intro Hle. apply Qle_bool_iff in Hle.
    apply Qle_not_lt in Hle. contradiction.
Qed.

Lemma Qltb_ge (x y : Q) : Qltb x y = false <-> y <= x.
Proof.
  unfold Qltb. rewrite negb_false_iff. apply Qle_bool_iff.
Qed.

Lemma Qgtb_gt (x y : Q) : Qgtb x y = true <-> y < x.
Proof. apply Qltb_lt. Qed.

Lemma Qgtb_le (x y : Q) : Qgtb x y = false <-> x <= y.
Proof. apply Qltb_ge. Qed.

Lemma Qgeb_ge (x y : Q) : Qgeb x y = true <-> y <= x.
Proof. apply Qle_bool_iff. Qed.

Lemma Qgeb_lt (x y : Q) : Qgeb x y = false <-> x < y.
Proof.
  unfold Qgeb. split; intro H.
  - apply Qnot_le_lt. intro Hle. apply Qle_bool_iff in Hle. congruence.
  - apply not_true_is_false. intro Hle. apply Qle_bool_iff in Hle.
    apply Qle_not_lt in Hle. contradiction.
Qed.

Lemma Qle_bool_gt (x y : Q) : Qle_bool x y = false <-> y < x.
Proof. apply (Qgeb_lt y x). Qed.

(** Case analysis on a boolean comparison, with the order fact in context. *)
Ltac case_cmp :=
  match goal with
  | |- context [Qltb ?x ?y] =>
      let H := fresh "Hcmp" in
      destruct (Qltb x y) eqn:H;
      [apply Qltb_lt in H | apply Qltb_ge in H]
  | |- context [Qgtb ?x ?y] =>
      let H := fresh "Hcmp" in
      destruct (Qgtb x y) eqn:H;
      [apply Qgtb_gt in H | apply Qgtb_le in H]
  | |- context [Qgeb ?x ?y] =>
      let H := fresh "Hcmp" in
      destruct (Qgeb x y) eqn:H;
      [apply Qgeb_ge in H | apply Qgeb_lt in H]
  | |- context [Qle_bool ?x ?y] =>
      let H := fresh "Hcmp" in
      destruct (Qle_bool x y) eqn:H;
      [apply Qle_bool_iff in H | apply Qle_bool_gt in H]
  end.

Lemma py_min_le_r (a b : Q) : py_min a b <= b.
Proof. unfold py_min. case_cmp; lra. Qed.

Lemma py_min_le_l (a b : Q) : py_min a b <= a.
Proof. unfold py_min. case_cmp; lra. Qed.

Lemma py_max_ge_l (a b : Q) : a <= py_max a b.
Proof. unfold py_max. case_cmp; lra. Qed.

Lemma py_max_ge_r (a b : Q) : b <= py_max a b.
Proof. unfold py_max. case_cmp; lra. Qed.

Lemma py_div_some (x y : Q) : ~ y == 0 -> py_div x y = Some (x / y).
Proof.
  intro H. unfold py_div.
  destruct (Qeq_bool y 0) eqn:E; [|reflexivity].
  apply Qeq_bool_iff in E. contradiction.
Qed.

Lemma py_div_inv (x y q : Q) : py_div x y = Some q -> ~ y == 0 /\ q = x / y.
Proof.
  unfold py_div. destruct (Qeq_bool y 0) eqn:E; [discriminate|].
  intro H. injection H as <-. split; [|reflexivity].
  intro Hy. apply Qeq_bool_iff in Hy. congruence.
Qed.

Lemma inject_Z_pos (z : Z) : (0 < z)%Z -> 0 < inject_Z z.
Proof. intro H. unfold Qlt. simpl. lia. Qed.

Lemma inject_Z_nonneg (z : Z) : (0 <= z)%Z -> 0 <= inject_Z z.
Proof. intro H. unfold Qle. simpl. lia. Qed.

Lemma inject_Z_succ (k : Z) : inject_Z (k + 1) == inject_Z k + 1.
Proof. rewrite inject_Z_plus. reflexivity. Qed.

Lemma inject_Z_pred (k : Z) : inject_Z (k - 1) == inject_Z k - 1.
Proof. unfold Z.sub. rewrite inject_Z_plus, inject_Z_opp. reflexivity. Qed.

Lemma Qpos_neq0 (x : Q) : 0 < x -> ~ x == 0.
Proof. intros H E. rewrite E in H. exact (Qlt_irrefl 0 H). Qed.

(** ** Half-time correction *)

Lemma with_midpoints_pairs (l : list Q) :
  with_midpoints l =
  midpoint_pairs l ++ match l with [] => [] | _ :: _ => [last l 0] end.
Proof.
  induction l as [|a [|b l'] IH]; try reflexivity.
  change (with_midpoints (a :: b :: l'))
    with (a :: (a + b) / 2 :: with_midpoints (b :: l')).
  rewrite IH. reflexivity.
Qed.

Lemma interpolate_loop (pre l acc : list Q) :
  fold_left
    (fun new_beats i =>
       (new_beats ++ [nth i (pre ++ l) 0])
         ++ [(nth i (pre ++ l) 0 + nth (i + 1) (pre ++ l) 0) / 2])
    (seq (length pre) (length l - 1)) acc
  = acc ++ midpoint_pairs l.
Proof.
  revert pre acc.
  induction l as [|a [|b l'] IH]; intros pre acc; simpl;
    try (now rewrite app_nil_r).
  replace (nth (length pre) (pre ++ a :: b :: l') 0) with a
    by (rewrite app_nth2, Nat.sub_diag by lia; reflexivity).
  replace (nth (length pre + 1) (pre ++ a :: b :: l') 0) with b
    by (rewrite app_nth2 by lia;
        replace (length pre + 1 - length pre)%nat with 1%nat by lia;
        reflexivity).
  specialize (IH (pre ++ [a]) ((acc ++ [a]) ++ [(a + b) / 2])).
  rewrite <- app_assoc in IH. simpl in IH.
  rewrite length_app in IH. simpl in IH.
  rewrite Nat.add_1_r, Nat.sub_0_r in IH.
  rewrite IH. rewrite <- !app_assoc. reflexivity.
Qed.

Lemma interpolate_beats_midpoints (l : list Q) :
  interpolate_beats l = with_midpoints l.
Proof.
  unfold interpolate_beats.
  pose proof (interpolate_loop [] l []) as H. simpl in H.
  rewrite H, with_midpoints_pairs. destruct l; reflexivity.
Qed.

Lemma number_beats_seq (ts : Z) (bs : list Q) (pre : list Q) :
  map (fun i => mkDownbeat (nth i (pre ++ bs) 0) (Z.of_nat i mod ts + 1))
      (seq (length pre) (length bs))
  = number_beats ts (length pre) bs.
Proof.
  revert pre. induction bs as [|b bs IH]; intro pre; simpl; [reflexivity|].
  rewrite app_nth2, Nat.sub_diag by lia. simpl. f_equal.
  specialize (IH (pre ++ [b])).
  rewrite <- app_assoc, length_app in IH. simpl in IH.
  rewrite Nat.add_1_r in IH. exact IH.
Qed.

Lemma downbeats_mod4_rebuild (bs : list Q) :
  downbeats_mod4 bs = rebuild_downbeats 4 bs.
Proof. exact (number_beats_seq 4 bs []). Qed.

Section HalfTimeFacts.
Context {AU : Audio}.

Lemma detect_beats_librosa_shape (y : Signal) (sr : Z) (r : BeatResult) :
  detect_beats_librosa y sr = Some r ->
  time_signature r = 4%Z /\ downbeats r = downbeats_mod4 (beats r)
  /\ bpm_confidence r <= 1.
Proof.
  unfold detect_beats_librosa.
  destruct (beat_track y sr) as [tempo beats0].
  match goal with |- context [bind ?m _] => destruct m as [beats1|] end;
    [|discriminate].
  simpl. intro H. injection H as <-. simpl.
  repeat split. apply py_min_le_r.
Qed.

Lemma rule_A_branch (y : Signal) (sr : Z) (r : BeatResult) :
  bpm r < 95 -> bpm_confidence r < 1#2 ->
  correct_half_time_spectral_log y sr r =
  ([HalfTimeLowConfidence],
   doubled_result r (py_min (bpm_confidence r * (13#10)) (7#10))).
Proof.
  intros Hb Hc. unfold correct_half_time_spectral_log.
  assert (G1 : Qgeb (bpm r) 100 = false) by (apply Qgeb_lt; lra).
  assert (G2 : Qgtb (bpm_confidence r) (7#10) = false) by (apply Qgtb_le; lra).
  assert (A1 : Qltb (bpm r) 95 = true) by (apply Qltb_lt; lra).
  assert (A2 : Qltb (bpm_confidence r) (1#2) = true) by (apply Qltb_lt; lra).
  rewrite G1, G2, A1, A2. reflexivity.
Qed.

Lemma rule_A_not_taken (y : Signal) (sr : Z) (r : BeatResult) :
  95 <= bpm r \/ 1#2 <= bpm_confidence r ->
  ~ In HalfTimeLowConfidence (fst (correct_half_time_spectral_log y sr r)).
Proof.
  intros Hn. unfold correct_half_time_spectral_log.
  destruct (Qgeb (bpm r) 100 || Qgtb (bpm_confidence r) (7#10)).
  { simpl. intros [H|[]]; discriminate. }
  assert (A : Qltb (bpm r) 95 && Qltb (bpm_confidence r) (1#2) = false).
  { apply andb_false_iff.
    destruct Hn; [left | right]; apply Qltb_ge; assumption. }
  rewrite A. unfold try_except.
  repeat match goal with
         | |- context [bind ?m _] => destruct m; simpl
         | |- context [if ?b then _ else _] => destruct b; simpl
         end;
    intuition discriminate.
Qed.

(** C1. Half-time rule A on a result of the fallback beat tracker: below
    95 BPM and below confidence 0.5 the low-confidence branch is taken and
    returns twice the tempo, the beats with every midpoint inserted, the
    downbeats renumbered [(i mod time_signature) + 1] over the new beats
    and a confidence of at most 0.7.  The branch is taken at
    (94.999, 0.499) and is not taken at (95.0, 0.5). *)
Theorem half_time_rule_A :
  (forall (y : Signal) (sr : Z) (r : BeatResult),
      detect_beats_librosa y sr = Some r ->
      bpm r < 95 -> bpm_confidence r < 1#2 ->
      rule_A_fires y sr r /\
      let r' := correct_half_time_spectral y sr r in
      bpm r' = bpm r * 2 /\
      beats r' = with_midpoints (beats r) /\
      downbeats r' = rebuild_downbeats (time_signature r) (beats r') /\
      bpm_confidence r' <= 7#10 /\
      time_signature r' = time_signature r)
  /\ (forall (y : Signal) (sr : Z) bs dbs ts,
         rule_A_fires y sr (mkBeatResult (94999#1000) (499#1000) bs dbs ts))
  /\ (forall (y : Signal) (sr : Z) bs dbs ts,
         ~ rule_A_fires y sr (mkBeatResult 95 (1#2) bs dbs ts)).
Proof.
  split; [|split].
  - intros y sr r Hr Hb Hc.
    destruct (detect_beats_librosa_shape _ _ Hr) as (Hts & _ & _).
    unfold rule_A_fires, correct_half_time_spectral.
    rewrite (rule_A_branch y sr r Hb Hc). simpl.
    repeat split.
    + apply interpolate_beats_midpoints.
    + rewrite Hts. apply downbeats_mod4_rebuild.
    + apply py_min_le_r.
  - intros y sr bs dbs ts. unfold rule_A_fires.
    rewrite rule_A_branch; simpl; [reflexivity | lra | lra].
  - intros y sr bs dbs ts Hf. unfold rule_A_fires in Hf.
    apply (@rule_A_not_taken y sr (mkBeatResult 95 (1#2) bs dbs ts)).
    + left. simpl. lra.
    + rewrite Hf. left. reflexivity.
Qed.
End HalfTimeFacts.

Lemma half_time_rule_A_witness :
  detect_beats_librosa (AU := clip_audio) clip_75 44100%Z
  = Some (mkBeatResult 75 (4#10) [0; 8#10; 16#10; 24#10]
            (downbeats_mod4 [0; 8#10; 16#10; 24#10]) 4)
  /\ beats (correct_half_time_spectral (AU := clip_audio) clip_75 44100%Z
              (mkBeatResult 75 (4#10) [0; 8#10; 16#10; 24#10]
                 (downbeats_mod4 [0; 8#10; 16#10; 24#10]) 4))
     = with_midpoints [0; 8#10; 16#10; 24#10].
Proof.
  split; [reflexivity|].
  apply (proj1 (@half_time_rule_A clip_audio) clip_75 44100%Z
           (mkBeatResult 75 (4#10) [0; 8#10; 16#10; 24#10]
              (downbeats_mod4 [0; 8#10; 16#10; 24#10]) 4));
    reflexivity.
Defined.

(** The fallback tracker's report on [clip_60]. *)
Lemma clip_60_fallback :
  detect_beats_librosa (AU := clip_audio) clip_60 44100%Z
  = Some result_60.
Proof. reflexivity. Qed.

(** C2, as stated, fails: 13 onsets in one bar exceed 1.5 x 8 = 12, yet the
    density ratio 13 / (8 + 1) is below 1.5 and the result is not doubled. *)
Lemma rule_B_counterexample :
  ~ rule_B_claim (AU := clip_audio) clip_60 44100%Z result_60.
Proof.
  intro H.
  specialize (H ltac:(reflexivity) ltac:(discriminate)).
  assert (NA : ~ (60 < 95 /\ 6#10 < 1#2)) by (intros [_ F]; discriminate F).
  specialize (H NA _ _ eq_refl eq_refl).
  destruct H as [_ H].
  assert (D : is_doubled result_60
                (correct_half_time_spectral (AU := clip_audio) clip_60 44100%Z
                   result_60))
    by (apply H; reflexivity).
  destruct D as [D _]. vm_compute in D. discriminate D.
Qed.

Section RuleB.
Context {AU : Audio}.

Lemma hihat_band_nonempty (sr : Z) :
  (0 < sr)%Z ->
  ~ inject_Z sr / 2 == 0 /\
  Qgeb (py_min (5000 / (inject_Z sr / 2)) (9#10))
       (py_min (15000 / (inject_Z sr / 2)) (99#100)) = false.
Proof.
  intro Hsr.
  assert (Hn : 0 < inject_Z sr / 2).
  { pose proof (inject_Z_pos Hsr).
    unfold Qdiv. change (/ 2) with (1#2). lra. }
  split; [apply Qpos_neq0; exact Hn|].
  apply Qgeb_lt.
  assert (Hi : 0 < / (inject_Z sr / 2)) by (apply Qinv_lt_0_compat; exact Hn).
  unfold Qdiv at 1 3. set (t := / (inject_Z sr / 2)) in *.
  unfold py_min. repeat case_cmp; lra.
Qed.

Lemma expected_onsets_nonneg (n : N) (sr : Z) (b : Q) :
  (0 < sr)%Z -> 0 < b ->
  ~ inject_Z sr == 0 /\ ~ b == 0 /\ ~ 60 / b * 4 == 0 /\
  0 <= expected_onsets (inject_Z (Z.of_N n) / inject_Z sr) b.
Proof.
  unfold expected_onsets.
  intros Hsr Hb.
  pose proof (inject_Z_pos Hsr) as H1.
  assert (H2 : 0 <= inject_Z (Z.of_N n)) by (apply inject_Z_nonneg; lia).
  assert (H3 : 0 < 60 / b * 4).
  { apply Qmult_lt_0_compat; [|lra].
    apply Qlt_shift_div_l; [exact Hb | lra]. }
  repeat split; try (apply Qpos_neq0; assumption).
  apply Qmult_le_0_compat; [|lra].
  apply Qle_shift_div_l; [exact H3|].
  apply Qle_shift_div_l; [exact H1|]. lra.
Qed.

(** At an exact density ratio of 3/2 the float quotient is not 3/2: for
    80850 samples at 44.1 kHz, 60 BPM and 7 onsets the expected count is
    11/3 and the exact ratio [7 / (11/3 + 1)] is 1.5, while the binary64
    ratio is 1.5000000000000002, above 1.5.  Which way the comparison
    goes this close to 1.5 is decided by rounding. *)
Example density_ratio_tie_b64 :
  inject_Z 7 / (expected_onsets (inject_Z 80850 / inject_Z 44100) 60 + 1)
  == 3#2
  /\ PrimFloat.ltb 1.5 (density_ratio_b64 80850 44100 60 7) = true.
Proof. split; vm_compute; reflexivity. Qed.

(** C2, amended. Rule B on a result of the fallback tracker that passed
    the guard and that rule A left alone: once the band-passed onsets are
    counted, the result is doubled (same tempo, beats and downbeats as
    rule A, confidence [min(1.2 c, 0.85)]) when
    [count / (expected + 1)] is above 1.5 by the rounding margin or more,
    and is returned unchanged when it is below 1.5 by the rounding margin
    or more; within the margin of 1.5 the outcome depends on the rounding
    of the quotient and is left open.  A result at or above 100 BPM or
    above confidence 0.7 is returned unchanged. *)
Theorem half_time_rule_B :
  (forall (y : Signal) (sr : Z) (r : BeatResult)
          (y_hihat : Signal) (hihat_times : list Q),
      detect_beats_librosa y sr = Some r ->
      (0 < sr)%Z -> 0 < bpm r ->
      bpm r < 100 -> bpm_confidence r <= 7#10 ->
      95 <= bpm r \/ 1#2 <= bpm_confidence r ->
      butter_sosfilt 4 (py_min (5000 / (inject_Z sr / 2)) (9#10))
                       (py_min (15000 / (inject_Z sr / 2)) (99#100)) y
      = Some y_hihat ->
      onset_detect_times y_hihat sr (1#10) = Some hihat_times ->
      let r' := correct_half_time_spectral y sr r in
      let density_ratio :=
        inject_Z (Z.of_nat (length hihat_times))
        / (expected_onsets (inject_Z (Z.of_N (len y)) / inject_Z sr) (bpm r)
           + 1) in
      ((3#2) + rounding_margin <= density_ratio ->
       is_doubled r r' /\
       downbeats r' = rebuild_downbeats (time_signature r) (beats r') /\
       bpm_confidence r' = py_min (bpm_confidence r * (12#10)) (85#100)) /\
      (density_ratio <= (3#2) - rounding_margin -> r' = r))
  /\ (forall (y : Signal) (sr : Z) (r : BeatResult),
         100 <= bpm r \/ 7#10 < bpm_confidence r ->
         correct_half_time_spectral y sr r = r).
Proof.
  split.
  - intros y sr r y_hihat hihat_times Hr Hsr Hpos Hb Hc HnA Hf Ho.
    destruct (detect_beats_librosa_shape _ _ Hr) as (Hts & _ & _).
    destruct (hihat_band_nonempty Hsr) as [Hnyq Hband].
    destruct (expected_onsets_nonneg (len y) Hsr Hpos)
      as (Hsr0 & Hb0 & Hbar & Hexp).
    unfold correct_half_time_spectral, correct_half_time_spectral_log.
    assert (G1 : Qgeb (bpm r) 100 = false) by (apply Qgeb_lt; lra).
    assert (G2 : Qgtb (bpm_confidence r) (7#10) = false)
      by (apply Qgtb_le; lra).
    assert (A : Qltb (bpm r) 95 && Qltb (bpm_confidence r) (1#2) = false).
    { apply andb_false_iff.
      destruct HnA; [left | right]; apply Qltb_ge; assumption. }
    rewrite G1, G2, A. simpl orb. cbv iota.
    rewrite (py_div_some 5000 Hnyq), (py_div_some 15000 Hnyq). simpl bind.
    rewrite Hband, Hf. simpl bind. rewrite Ho. simpl bind.
    rewrite (py_div_some _ Hsr0). simpl bind.
    rewrite (py_div_some 60 Hb0). simpl bind.
    rewrite (py_div_some _ Hbar). simpl bind.
    fold (expected_onsets (inject_Z (Z.of_N (len y)) / inject_Z sr) (bpm r)).
    set (e := expected_onsets _ _) in *.
    assert (He : ~ e + 1 == 0) by (apply Qpos_neq0; lra).
    rewrite (py_div_some _ He). simpl bind.
    cbv zeta.
    set (ratio := inject_Z (Z.of_nat (length hihat_times)) / (e + 1)).
    assert (Hm : 0 < rounding_margin) by reflexivity.
    split.
    + intro Hd.
      assert (Hd' : Qgtb ratio (3#2) = true) by (apply Qgtb_gt; lra).
      rewrite Hd'. simpl.
      repeat split.
      * apply interpolate_beats_midpoints.
      * rewrite Hts. apply downbeats_mod4_rebuild.
    + intro Hd.
      assert (Hd' : Qgtb ratio (3#2) = false) by (apply Qgtb_le; lra).
      rewrite Hd'. reflexivity.
  - intros y sr r Hg.
    unfold correct_half_time_spectral, correct_half_time_spectral_log.
    assert (G : Qgeb (bpm r) 100 || Qgtb (bpm_confidence r) (7#10) = true).
    { apply orb_true_iff.
      destruct Hg; [left; apply Qgeb_ge | right; apply Qgtb_gt]; assumption. }
    rewrite G. reflexivity.
Qed.
End RuleB.

Lemma half_time_rule_B_witness :
  detect_beats_librosa (AU := clip_audio) (clip_one_bar 16) 44100%Z
  = Some result_60
  /\ is_doubled result_60
       (correct_half_time_spectral (AU := clip_audio) (clip_one_bar 16)
          44100%Z result_60)
  /\ correct_half_time_spectral (AU := clip_audio) clip_60 44100%Z result_60
     = result_60.
Proof.
  split; [reflexivity|]. split.
  - refine (proj1 (proj1 (proj1 (@half_time_rule_B clip_audio)
                            (clip_one_bar 16) 44100%Z result_60 _ _
                            eq_refl _ _ _ _ _ eq_refl eq_refl) _));
      try reflexivity; try discriminate.
    right. discriminate.
  - refine (proj2 (proj1 (@half_time_rule_B clip_audio)
                     clip_60 44100%Z result_60 _ _
                     eq_refl _ _ _ _ _ eq_refl eq_refl) _);
      try reflexivity; try discriminate.
    right. discriminate.
Defined.

(** ** Quantizer *)

Lemma py_round_cases (x : Q) :
  let k := py_round x in
  (k = Qfloor x /\ x - inject_Z (Qfloor x) <= 1#2) \/
  (k = (Qfloor x + 1)%Z /\ 1#2 <= x - inject_Z (Qfloor x)).
Proof.
  unfold py_round. cbv zeta.
  repeat case_cmp; try (left; split; [reflexivity | lra]);
    try (right; split; [reflexivity | lra]).
  destruct (Z.even (Qfloor x)); [left | right]; split; try reflexivity; lra.
Qed.

Lemma py_round_near (x : Q) : Qabs (x - inject_Z (py_round x)) <= 1#2.
Proof.
  pose proof (Qfloor_le x) as Hlo. pose proof (Qlt_floor x) as Hhi.
  rewrite inject_Z_succ in Hhi.
  apply Qabs_Qle_condition.
  destruct (py_round_cases x) as [[-> H] | [-> H]].
  - split; lra.
  - rewrite inject_Z_succ. split; lra.
Qed.

Lemma near_is_nearest (x : Q) (k j : Z) :
  Qabs (x - inject_Z k) <= 1#2 ->
  Qabs (x - inject_Z k) <= Qabs (x - inject_Z j).
Proof.
  intro Hk. apply Qabs_Qle_condition in Hk.
  destruct (Z.eq_dec j k) as [-> | Hne]; [apply Qle_refl|].
  assert (Hj : inject_Z j <= inject_Z k - 1 \/ inject_Z k + 1 <= inject_Z j).
  { destruct (Z_lt_le_dec j k) as [Hlt | Hge].
    - left. assert (Hle : (j <= k - 1)%Z) by lia.
      rewrite Zle_Qle, inject_Z_pred in Hle. exact Hle.
    - right. assert (Hle : (k + 1 <= j)%Z) by lia.
      rewrite Zle_Qle, inject_Z_succ in Hle. exact Hle. }
  apply Qabs_case; intro; apply Qabs_case; intro; destruct Hj; lra.
Qed.

(** An offset of less than half a step does not change the rounded index. *)
Lemma py_round_offset (k : Z) (e : Q) :
  - (1#2) < e -> e < 1#2 -> py_round (inject_Z k + e) = k.
Proof.
  intros Hlo Hhi.
  pose proof (Qfloor_le (inject_Z k + e)) as H1.
  pose proof (Qlt_floor (inject_Z k + e)) as H2.
  rewrite inject_Z_succ in H2.
  assert (Hf : Qfloor (inject_Z k + e) = k \/
               Qfloor (inject_Z k + e) = (k - 1)%Z).
  { set (f := Qfloor (inject_Z k + e)) in *.
    assert (A : inject_Z f < inject_Z (k + 1)) by (rewrite inject_Z_succ; lra).
    assert (B : inject_Z (k - 1) < inject_Z (f + 1))
      by (rewrite inject_Z_succ, inject_Z_pred; lra).
    rewrite <- Zlt_Qlt in A, B. lia. }
  unfold py_round. cbv zeta.
  destruct Hf as [Hf | Hf]; rewrite Hf in *.
  - repeat case_cmp; try reflexivity; lra.
  - rewrite inject_Z_pred in H1, H2.
    repeat case_cmp; try (rewrite inject_Z_pred in *; lra).
    replace (k - 1 + 1)%Z with k by lia. reflexivity.
Qed.

#[export] Instance py_round_comp : Proper (Qeq ==> eq) py_round.
Proof.
  intros x y E. unfold py_round. cbv zeta.
  rewrite (Qfloor_comp _ _ E).
  unfold Qltb. rewrite !E. reflexivity.
Qed.

Section QuantizerFacts.
Variables (downbeat_offset swing quantize_strength : Q) (subdivision : Z).

Lemma quantize_loop (f : DrumHit -> DrumHit * GridPosition)
      (hits : list DrumHit) (qs : list DrumHit) (gs : list GridPosition) :
  fold_left
    (fun '(quantized_hits, grid_positions) hit =>
       let '(q, g) := f hit in
       (quantized_hits ++ [q], grid_positions ++ [g]))
    hits (qs, gs)
  = (qs ++ map (fun h => fst (f h)) hits,
     gs ++ map (fun h => snd (f h)) hits).
Proof.
  revert qs gs. induction hits as [|h hits IH]; intros qs gs; simpl.
  - now rewrite !app_nil_r.
  - destruct (f h) as [q g] eqn:E. rewrite IH. simpl.
    now rewrite <- !app_assoc.
Qed.


Lemma quantize_to_grid_inv (hits : list DrumHit) (bpm : Q) outs gps :
  quantize_to_grid hits bpm downbeat_offset swing quantize_strength
                   subdivision = Some (outs, gps) ->
  ~ bpm == 0 /\ subdivision <> 0%Z /\
  outs = map (fun h => fst (quantize_with bpm downbeat_offset swing quantize_strength subdivision h)) hits /\
  gps = map (fun h => snd (quantize_with bpm downbeat_offset swing quantize_strength subdivision h)) hits.
Proof.
  unfold quantize_to_grid.
  destruct (py_div 60 bpm) as [bd|] eqn:E1; [|discriminate]. simpl.
  destruct (py_div bd (inject_Z subdivision)) as [gd|] eqn:E2;
    [|discriminate]. simpl.
  apply py_div_inv in E1, E2. destruct E1 as [Hb ->], E2 as [Hs ->].
  intro H. injection H as H.
  change (fold_left
            (fun '(quantized_hits, grid_positions) hit =>
               let '(q, g) := quantize_with bpm downbeat_offset swing quantize_strength subdivision hit in
               (quantized_hits ++ [q], grid_positions ++ [g]))
            hits ([], []) = (outs, gps)) in H.
  rewrite quantize_loop in H. simpl in H. injection H as <- <-.
  repeat split; try assumption.
  intros ->. apply Hs. reflexivity.
Qed.

Lemma quantize_to_grid_total (hits : list DrumHit) (bpm : Q) :
  ~ bpm == 0 -> subdivision <> 0%Z ->
  quantize_to_grid hits bpm downbeat_offset swing quantize_strength
                   subdivision
  = Some (map (fun h => fst (quantize_with bpm downbeat_offset swing quantize_strength subdivision h)) hits,
          map (fun h => snd (quantize_with bpm downbeat_offset swing quantize_strength subdivision h)) hits).
Proof.
  intros Hb Hs. unfold quantize_to_grid.
  rewrite (py_div_some 60 Hb). simpl.
  rewrite py_div_some.
  - simpl. f_equal.
    change (fold_left
              (fun '(quantized_hits, grid_positions) hit =>
                 let '(q, g) := quantize_with bpm downbeat_offset swing quantize_strength subdivision hit in
                 (quantized_hits ++ [q], grid_positions ++ [g]))
              hits ([], [])
            = (map (fun h => fst (quantize_with bpm downbeat_offset swing quantize_strength subdivision h)) hits,
               map (fun h => snd (quantize_with bpm downbeat_offset swing quantize_strength subdivision h)) hits)).
    rewrite quantize_loop. reflexivity.
  - intro E. apply Hs. unfold Qeq in E. simpl in E. lia.
Qed.
End QuantizerFacts.

(** C10. [quantize_to_grid] returns one hit per input hit, in the same
    order, with the type, confidence and features of the input hit; it
    returns whenever the tempo and the subdivision are not zero. *)
Theorem quantize_to_grid_frame
    (hits : list DrumHit) (bpm downbeat_offset swing quantize_strength : Q)
    (subdivision : Z) :
  (forall outs gps,
      quantize_to_grid hits bpm downbeat_offset swing quantize_strength
                       subdivision = Some (outs, gps) ->
      length outs = length hits /\ Forall2 same_but_time hits outs)
  /\ (~ bpm == 0 -> subdivision <> 0%Z ->
      exists outs gps,
        quantize_to_grid hits bpm downbeat_offset swing quantize_strength
                         subdivision = Some (outs, gps)).
Proof.
  split.
  - intros outs gps H.
    apply quantize_to_grid_inv in H. destruct H as (_ & _ & -> & _).
    split; [apply length_map|].
    induction hits as [|h hs IH]; simpl; constructor; [|exact IH].
    repeat split.
  - intros Hb Hs. eexists. eexists.
    apply quantize_to_grid_total; assumption.
Qed.

Section Snapping.
Variables (bpm downbeat_offset swing : Q).
Hypothesis bpm_pos : 0 < bpm.

Lemma step_duration_pos : 0 < step_duration bpm 4.
Proof.
  unfold step_duration.
  apply Qlt_shift_div_l; [reflexivity|].
  apply Qlt_shift_div_l; [exact bpm_pos | lra].
Qed.

Lemma grid_offset_scaled (t : Q) (j : Z) :
  t - (downbeat_offset + inject_Z j * step_duration bpm 4)
  == step_duration bpm 4
     * ((t - downbeat_offset) / step_duration bpm 4 - inject_Z j).
Proof.
  pose proof step_duration_pos as Hg.
  field. apply Qpos_neq0. exact Hg.
Qed.

Lemma py_round_nearest_step (t : Q) :
  nearest_step bpm downbeat_offset t
    (py_round ((t - downbeat_offset) / step_duration bpm 4)).
Proof.
  pose proof step_duration_pos as Hg.
  intro j. rewrite !grid_offset_scaled, !Qabs_Qmult.
  rewrite (Qabs_pos (step_duration bpm 4)) by lra.
  apply Qmult_le_l; [exact Hg|].
  apply near_is_nearest, py_round_near.
Qed.

(** The time the loop body snaps to is the time of the grid step. *)
Lemma quantized_time_formula (strength : Q) (h : DrumHit) :
  time (fst (quantize_with bpm downbeat_offset swing strength 4 h))
  == time h * (1 - strength)
     + grid_step_time bpm downbeat_offset swing
         (py_round ((time h - downbeat_offset) / step_duration bpm 4))
       * strength.
Proof.
  unfold quantize_with, quantize_hit, grid_step_time. cbv zeta. simpl fst.
  simpl time. fold (step_duration bpm 4).
  set (k := py_round _). rewrite <- Zodd_mod.
  destruct (Z.odd k); ring.
Qed.
End Snapping.

(** C5. With a positive tempo and subdivision 4 the quantizer returns, for
    every hit, the time [original * (1 - strength) + snapped * strength],
    where the snapped time is that of a nearest step of the grid of step
    [60 / bpm / 4], moved by [(swing/100 - 0.5) * step] exactly when the
    step index is odd. *)
Theorem quantize_to_grid_snaps
    (hits : list DrumHit) (bpm downbeat_offset swing strength : Q) :
  0 < bpm -> 0 <= swing <= 100 -> 0 <= strength <= 1 ->
  exists outs gps,
    quantize_to_grid hits bpm downbeat_offset swing strength 4
    = Some (outs, gps)
    /\ Forall2 (snapped_to bpm downbeat_offset swing strength) hits outs.
Proof.
  intros Hb _ _.
  eexists. eexists. split.
  - apply quantize_to_grid_total; [apply Qpos_neq0; exact Hb | discriminate].
  - induction hits as [|h hs IH]; simpl; constructor; [|exact IH].
    exists (py_round ((time h - downbeat_offset) / step_duration bpm 4)).
    split.
    + apply py_round_nearest_step. exact Hb.
    + apply quantized_time_formula.
Qed.

Lemma quantize_to_grid_snaps_witness :
  exists outs gps,
    quantize_to_grid [mkDrumHit (1#10) "kick" (7#10) None] 120 0 58 1 4
    = Some (outs, gps)
    /\ Forall2 (snapped_to 120 0 58 1)
               [mkDrumHit (1#10) "kick" (7#10) None] outs.
Proof.
  apply (@quantize_to_grid_snaps [mkDrumHit (1#10) "kick" (7#10) None]
           120 0 58 1);
    [reflexivity | split; discriminate | split; discriminate].
Defined.

(** C6, as stated, fails twice over.  At swing 100 and 120 BPM a kick at
    0.125 s is moved to the swung step 0.1875 s, which lies half-way
    between two steps and is rounded to the even one, so the second pass
    moves it on to 0.25 s (all values are dyadic: the binary64 run is the
    same).  And at a swing well inside the range the second pass need not
    return the bits it was given: in binary64, at 128 BPM, offset 0.02 and
    swing 58, a hit at 0.06 s comes back as 0.020000000000000004, and
    quantizing that gives 0.02, because [t + (g - t)] is not [g]. *)
Lemma quantizer_idempotence_counterexample :
  ~ quantizer_idempotent [mkDrumHit (1#8) "kick" (7#10) None] 120 0 100
  /\ ~ requantized_bit_equal 128 0.02 58 0.06.
Proof.
  split.
  - intro H.
    destruct (H _ _ eq_refl) as (twice & g2 & Hq & Hall).
    vm_compute in Hq. injection Hq as <- _.
    inversion Hall as [|a b l l' [Ht _] _]; subst.
    vm_compute in Ht. discriminate Ht.
  - intro H.
    assert (E : quantize_time_b64 128 0.02 58 1 0.06
                = Some 0.020000000000000004%float)
      by (vm_compute; reflexivity).
    specialize (H _ E).
    apply (f_equal (fun o => bind o b64_value)) in H.
    vm_compute in H. discriminate H.
Qed.

Section Idempotence.
Variables (bpm downbeat_offset swing delta : Q).
Hypothesis bpm_pos : 0 < bpm.
Hypothesis room :
  delta + rounding_margin <= swing_room swing * step_duration bpm 4.

(** A time within [delta] of the time of grid step [k] is assigned
    step [k]. *)
Lemma requantize_index_near (k : Z) (t : Q) :
  Qabs (t - grid_step_time bpm downbeat_offset swing k) <= delta ->
  py_round ((t - downbeat_offset) / step_duration bpm 4) = k.
Proof.
  intro Hn. pose proof (step_duration_pos bpm_pos) as Hg.
  assert (Hm : 0 < rounding_margin) by reflexivity.
  apply Qabs_Qle_condition in Hn. destruct Hn as [Hlo Hhi].
  set (g := step_duration bpm 4) in *.
  set (u := (t - grid_step_time bpm downbeat_offset swing k) / g).
  assert (Hu1 : u < swing_room swing).
  { apply Qlt_shift_div_r; [exact Hg | lra]. }
  assert (Hu2 : - swing_room swing < u).
  { apply Qlt_shift_div_l; [exact Hg|].
    assert (E : - swing_room swing * g == - (swing_room swing * g)) by ring.
    rewrite E. lra. }
  assert (E : (t - downbeat_offset) / g
              == inject_Z k
                 + ((if Z.odd k then swing / 100 - (1#2) else 0) + u)).
  { unfold u, grid_step_time. fold g.
    destruct (Z.odd k); field; apply Qpos_neq0; exact Hg. }
  rewrite E. unfold swing_room in Hu1, Hu2.
  set (s := swing / 100 - (1#2)) in *.
  apply py_round_offset; destruct (Z.odd k);
    revert Hu1 Hu2; apply Qabs_case; intros; lra.
Qed.

Lemma requantize_near (h s : DrumHit) :
  Qabs (time s - time (fst (quantize_with bpm downbeat_offset swing 1 4 h)))
  <= delta ->
  time (fst (quantize_with bpm downbeat_offset swing 1 4 s))
  == time (fst (quantize_with bpm downbeat_offset swing 1 4 h)).
Proof.
  intro Hn.
  set (k := py_round ((time h - downbeat_offset) / step_duration bpm 4)).
  assert (Ea : time (fst (quantize_with bpm downbeat_offset swing 1 4 h))
               == grid_step_time bpm downbeat_offset swing k).
  { rewrite quantized_time_formula. fold k. ring. }
  rewrite Ea in Hn. apply requantize_index_near in Hn.
  rewrite (quantized_time_formula _ _ _ 1 s), Hn, Ea. ring.
Qed.

(** C6, amended. For a positive tempo, subdivision 4 and a swing whose
    odd steps stay clear of the rounding ties (so strictly between 0 and
    100), quantizing the output of a full-strength quantization again
    assigns every hit the grid step of the first pass and returns that
    step's time, with the other fields unchanged.  The output of the
    first pass may be stored with an error of up to [delta] per time, as
    long as [delta] plus the rounding margin is at most
    [(0.5 - |swing/100 - 0.5|)] steps: the second pass then returns
    times within the rounding margin of those the first pass computed,
    and changes no stored time by more than [delta] plus the margin.
    The times agree up to rounding; they need not be bit-equal. *)
Theorem quantizer_idempotent_inside (hits : list DrumHit) :
  requantized_within delta hits bpm downbeat_offset swing.
Proof.
  intros once g1 stored H1 Hst.
  apply quantize_to_grid_inv in H1. destruct H1 as (Hb & Hs & -> & _).
  eexists. eexists. split; [apply quantize_to_grid_total; assumption|].
  revert stored Hst.
  induction hits as [|h hs IH]; intros [|s stored] Hst; cbn [map] in *;
    try (inversion Hst; fail).
  - split; constructor.
  - apply Forall2_cons_iff in Hst. destruct Hst as [[Hd Hsame] Hrest].
    destruct (IH _ Hrest) as [IH1 IH2].
    pose proof (@requantize_near h s Hd) as Ht.
    destruct Hsame as (S1 & S2 & S3).
    assert (Hm : 0 <= rounding_margin) by discriminate.
    split; constructor; try assumption.
    + split; [|repeat split; assumption].
      assert (E : time (fst (quantize_with bpm downbeat_offset swing 1 4 s))
                  - time (fst (quantize_with bpm downbeat_offset swing 1 4 h))
                  == 0) by (rewrite Ht; ring).
      rewrite E. exact Hm.
    + split; [|repeat split].
      rewrite Ht, Qabs_Qminus. lra.
Qed.
End Idempotence.

Lemma quantizer_idempotent_inside_witness :
  exists once g1 twice g2,
    quantize_to_grid [mkDrumHit (1#8) "kick" (7#10) None;
                      mkDrumHit (1#3) "hihat" (7#10) None] 120 0 58 1 4
    = Some (once, g1)
    /\ map (fun h => Qred (time h)) once = [27#200; 77#200]
    /\ quantize_to_grid
         [mkDrumHit (1350001#10000000) "kick" (7#10) None;
          mkDrumHit (3849999#10000000) "hihat" (7#10) None] 120 0 58 1 4
       = Some (twice, g2)
    /\ Forall2 (fun a b => Qabs (time b - time a) <= rounding_margin
                           /\ same_but_time a b)
               once twice.
Proof.
  eassert (E1 : quantize_to_grid [mkDrumHit (1#8) "kick" (7#10) None;
                                  mkDrumHit (1#3) "hihat" (7#10) None]
                                 120 0 58 1 4 = Some (_, _))
    by (vm_compute; reflexivity).
  destruct (@quantizer_idempotent_inside 120 0 58 (1#1000000)
              ltac:(reflexivity) ltac:(vm_compute; discriminate)
              _ _ _
              [mkDrumHit (1350001#10000000) "kick" (7#10) None;
               mkDrumHit (3849999#10000000) "hihat" (7#10) None]
              E1
              ltac:(repeat constructor; vm_compute; discriminate))
    as (twice & g2 & H2 & Hclose & _).
  do 4 eexists. split; [exact E1|].
  split; [vm_compute; reflexivity|]. split; [exact H2 | exact Hclose].
Defined.

(** ** Swing estimation *)

(** C7, as stated, fails on a short hit list: three hits at 60% of the one
    beat interval are three offbeat hits with median 60, but the estimator
    answers 50 for any list of fewer than four hits. *)
Lemma swing_claim_counterexample :
  ~ swing_claim [mkDrumHit (6#10) "hihat" (7#10) None;
                 mkDrumHit (6#10) "perc" (7#10) None;
                 mkDrumHit (6#10) "clap" (7#10) None] [0; 1].
Proof.
  intro H. specialize (H 4%Z). vm_compute in H. discriminate H.
Qed.

Section SwingFacts.
Variables (hit_times : list Q) (beat_duration : Q).

Lemma offbeat_inner_loop (beat_start : Q) (ts acc : list Q) :
  fold_left
    (fun offbeat_ratios hit_time =>
       let position := (hit_time - beat_start) / beat_duration in
       if Qltb (35#100) position && Qltb position (75#100)
       then offbeat_ratios ++ [position * 100]
       else offbeat_ratios)
    ts acc
  = acc ++ map (fun p => p * 100)
               (filter (fun p => Qltb (35#100) p && Qltb p (75#100))
                       (map (fun t => (t - beat_start) / beat_duration) ts)).
Proof.
  revert acc. induction ts as [|t ts IH]; intro acc; simpl.
  - now rewrite app_nil_r.
  - rewrite IH.
    destruct (Qltb (35#100) ((t - beat_start) / beat_duration)
              && Qltb ((t - beat_start) / beat_duration) (75#100)); simpl.
    + now rewrite <- app_assoc.
    + reflexivity.
Qed.

Lemma offbeat_outer_loop (pre l acc : list Q) :
  fold_left
    (fun offbeat_ratios i =>
       let beat_start := nth i (pre ++ l) 0 in
       let beat_end := nth (i + 1) (pre ++ l) 0 in
       let beat_hits :=
         filter (fun t => Qgeb t beat_start && Qltb t beat_end) hit_times in
       fold_left
         (fun offbeat_ratios hit_time =>
            let position := (hit_time - beat_start) / beat_duration in
            if Qltb (35#100) position && Qltb position (75#100)
            then offbeat_ratios ++ [position * 100]
            else offbeat_ratios)
         beat_hits offbeat_ratios)
    (seq (length pre) (length l - 1)) acc
  = acc ++ offbeat_percentages (fun _ _ => beat_duration) hit_times l.
Proof.
  revert pre acc.
  induction l as [|a [|b l'] IH]; intros pre acc;
    try (simpl; now rewrite app_nil_r).
  replace (length (a :: b :: l') - 1)%nat with (S (length l'))
    by (simpl; lia).
  rewrite <- cons_seq. cbn [fold_left]. cbv zeta.
  replace (nth (length pre) (pre ++ a :: b :: l') 0) with a
    by (rewrite app_nth2, Nat.sub_diag by lia; reflexivity).
  replace (nth (length pre + 1) (pre ++ a :: b :: l') 0) with b
    by (rewrite app_nth2 by lia;
        replace (length pre + 1 - length pre)%nat with 1%nat by lia;
        reflexivity).
  rewrite offbeat_inner_loop.
  specialize (IH (pre ++ [a])).
  rewrite <- app_assoc, length_app, Nat.add_1_r in IH. simpl app in IH.
  replace (length (b :: l') - 1)%nat with (length l') in IH
    by (simpl; lia).
  cbv zeta in IH. rewrite IH.
  rewrite <- app_assoc. reflexivity.
Qed.
End SwingFacts.

Lemma clamp_40_75 (x : Q) : 40 <= py_max 40 (py_min 75 x) <= 75.
Proof. unfold py_max, py_min. repeat case_cmp; split; lra. Qed.

(** C7, amended. On at least four hits and at least two beats the
    estimator collects, over each beat interval, the position of each hit
    of the interval measured against the median beat length, keeps those
    strictly inside (0.35, 0.75), and returns their median as a percentage
    clamped to [40, 75], or 50 when fewer than two were kept; on fewer than
    four hits or fewer than two beats it returns 50. *)
Theorem detect_swing_estimate
    (hits : list DrumHit) (beats : list Q) (time_signature : Z) :
  ((4 <= length hits)%nat -> (2 <= length beats)%nat ->
   detect_swing hits beats time_signature
   = swing_estimate (fun _ _ => np_median (np_diff beats)) hits beats)
  /\ ((length hits < 4)%nat \/ (length beats < 2)%nat ->
      detect_swing hits beats time_signature = 50)
  /\ (detect_swing hits beats time_signature = 50 \/
      40 <= detect_swing hits beats time_signature <= 75).
Proof.
  assert (Hloop :
            forall bd,
              fold_left
                (fun offbeat_ratios i =>
                   let beat_start := nth i beats 0 in
                   let beat_end := nth (i + 1) beats 0 in
                   let beat_hits :=
                     filter (fun t => Qgeb t beat_start && Qltb t beat_end)
                            (map time hits) in
                   fold_left
                     (fun offbeat_ratios hit_time =>
                        let position := (hit_time - beat_start) / bd in
                        if Qltb (35#100) position && Qltb position (75#100)
                        then offbeat_ratios ++ [position * 100]
                        else offbeat_ratios)
                     beat_hits offbeat_ratios)
                (seq 0 (length beats - 1)) []
              = offbeat_percentages (fun _ _ => bd) (map time hits) beats).
  { intro bd. exact (offbeat_outer_loop (map time hits) bd [] beats []). }
  unfold detect_swing. cbv zeta. rewrite Hloop.
  split; [|split].
  - intros Hh Hb.
    assert (E1 : (length hits <? 4)%nat = false) by (apply Nat.ltb_ge; lia).
    assert (E2 : (length beats <? 2)%nat = false) by (apply Nat.ltb_ge; lia).
    rewrite E1, E2. reflexivity.
  - intros [Hh | Hb].
    + assert (E1 : (length hits <? 4)%nat = true) by (apply Nat.ltb_lt; lia).
      rewrite E1. reflexivity.
    + assert (E2 : (length beats <? 2)%nat = true) by (apply Nat.ltb_lt; lia).
      rewrite E2, orb_true_r. reflexivity.
  - destruct ((length hits <? 4)%nat || (length beats <? 2)%nat);
      [left; reflexivity|].
    match goal with |- context [if ?b then _ else _] => destruct b end;
      [left; reflexivity | right; apply clamp_40_75].
Qed.

Lemma detect_swing_estimate_witness :
  detect_swing [mkDrumHit (6#10) "hihat" (7#10) None;
                mkDrumHit (16#10) "hihat" (7#10) None;
                mkDrumHit (0#10) "kick" (7#10) None;
                mkDrumHit (1#1) "kick" (7#10) None] [0; 1; 2] 4
  = swing_estimate (fun _ _ => np_median (np_diff [0; 1; 2]))
      [mkDrumHit (6#10) "hihat" (7#10) None;
       mkDrumHit (16#10) "hihat" (7#10) None;
       mkDrumHit (0#10) "kick" (7#10) None;
       mkDrumHit (1#1) "kick" (7#10) None] [0; 1; 2].
Proof.
  apply (proj1 (detect_swing_estimate
                  [mkDrumHit (6#10) "hihat" (7#10) None;
                   mkDrumHit (16#10) "hihat" (7#10) None;
                   mkDrumHit (0#10) "kick" (7#10) None;
                   mkDrumHit (1#1) "kick" (7#10) None] [0; 1; 2] 4));
    simpl; lia.
Defined.

(** ** Band-pass filter *)

Section BandpassFacts.
Context {AU : Audio}.
Variables (data : Signal) (lowcut highcut fs : Q) (order : Z).
Hypothesis fs_pos : 0 < fs.

Lemma nyquist_nonzero : ~ (1#2) * fs == 0.
Proof. apply Qpos_neq0. lra. Qed.

Lemma inverted_band :
  highcut <= lowcut ->
  Qgeb (normalized_low lowcut fs) (normalized_high highcut fs) = true.
Proof.
  intro H. apply Qgeb_ge.
  apply Qle_trans with (highcut / ((1#2) * fs)); [apply py_min_le_l|].
  apply Qle_trans with (lowcut / ((1#2) * fs)); [|apply py_max_ge_l].
  apply Qmult_le_compat_r; [exact H|].
  apply Qinv_le_0_compat. lra.
Qed.

Lemma clamped_band :
  1#100 <= normalized_low lowcut fs /\ normalized_high highcut fs <= 99#100.
Proof. split; [apply py_max_ge_r | apply py_min_le_r]. Qed.

(** C8. For a positive sample rate and [lowcut >= highcut] the band-pass
    filter returns its input; in general it returns either its input or
    the output of the filter constructed with the cutoffs normalised to
    Nyquist, lowcut clamped to at least 0.01 and highcut to at most 0.99,
    and it returns its input when the construction raises. *)
Theorem bandpass_filter_identity :
  (highcut <= lowcut ->
   BeatAligned.bandpass_filter data lowcut highcut fs order = Some data /\
   PerDrum.bandpass_filter data lowcut highcut fs order = Some data)
  /\ (forall out,
         BeatAligned.bandpass_filter data lowcut highcut fs order = Some out
         \/ PerDrum.bandpass_filter data lowcut highcut fs order = Some out ->
         out = data \/
         (butter_sosfilt order (normalized_low lowcut fs)
                         (normalized_high highcut fs) data = Some out /\
          1#100 <= normalized_low lowcut fs /\
          normalized_low lowcut fs < normalized_high highcut fs /\
          normalized_high highcut fs <= 99#100))
  /\ (butter_sosfilt order (normalized_low lowcut fs)
                     (normalized_high highcut fs) data = None ->
      BeatAligned.bandpass_filter data lowcut highcut fs order = Some data /\
      PerDrum.bandpass_filter data lowcut highcut fs order = Some data).
Proof.
  pose proof nyquist_nonzero as Hn. pose proof clamped_band as [Hlo Hhi].
  unfold BeatAligned.bandpass_filter, PerDrum.bandpass_filter. cbv zeta.
  rewrite (py_div_some lowcut Hn), (py_div_some highcut Hn). simpl bind.
  fold (normalized_low lowcut fs) (normalized_high highcut fs).
  split; [|split].
  - intro H. rewrite (inverted_band H). split; reflexivity.
  - intros out.
    destruct (Qgeb (normalized_low lowcut fs) (normalized_high highcut fs))
      eqn:Hband.
    { intros [H | H]; injection H as <-; left; reflexivity. }
    apply Qgeb_lt in Hband.
    destruct (butter_sosfilt order (normalized_low lowcut fs)
                             (normalized_high highcut fs) data)
      as [filtered|] eqn:Hf; simpl.
    + intros [H | H]; injection H as <-.
      * right. repeat split; assumption.
      * destruct (isfinite_all filtered); simpl;
          [right; repeat split; assumption | left; reflexivity].
    + intros [H | H]; injection H as <-; left; reflexivity.
  - intros Hf. rewrite Hf. simpl.
    destruct (Qgeb _ _); split; reflexivity.
Qed.
End BandpassFacts.

Lemma bandpass_filter_identity_witness :
  BeatAligned.bandpass_filter (AU := clip_audio) clip_75 5000 300 44100 4
  = Some clip_75
  /\ PerDrum.bandpass_filter (AU := clip_audio) clip_75 5000 300 44100 4
     = Some clip_75.
Proof.
  apply (proj1 (@bandpass_filter_identity clip_audio clip_75 5000 300 44100
                  4%Z eq_refl)).
  discriminate.
Defined.

(** ** Pattern filter *)

Section FilteringLoop.
Variable A : Type.
Variable body : option (list A) -> A -> option (list A).
Variable keep : A -> option bool.
Hypothesis body_none : forall x, body None x = None.
Hypothesis body_some :
  forall acc x,
    body (Some acc) x =
    match keep x with
    | None => None
    | Some true => Some (acc ++ [x])
    | Some false => Some acc
    end.

Lemma fold_raised (l : list A) : fold_left body l None = None.
Proof. induction l as [|x l IH]; simpl; [|rewrite body_none]; auto. Qed.

Lemma fold_keeps (l : list A) (acc out : list A) :
  fold_left body l (Some acc) = Some out ->
  out = acc ++ filter (fun x => match keep x with
                                | Some true => true
                                | _ => false
                                end) l.
Proof.
  revert acc. induction l as [|x l IH]; intros acc H; simpl in *.
  - injection H as <-. now rewrite app_nil_r.
  - rewrite body_some in H. destruct (keep x) as [[|]|].
    + apply IH in H. rewrite H, <- app_assoc. reflexivity.
    + apply IH in H. exact H.
    + rewrite fold_raised in H. discriminate.
Qed.
End FilteringLoop.

Lemma filter_hits_by_pattern_filter
    (hits : list DrumHit) (bpm downbeat_time : Q) (time_signature : Z)
    (genre : option string) (tolerance_ms : Q) (out : list DrumHit) :
  filter_hits_by_pattern hits bpm downbeat_time time_signature genre
                         tolerance_ms = Some out ->
  exists keep : DrumHit -> bool, out = filter keep hits.
Proof.
  unfold filter_hits_by_pattern.
  destruct (negb (nonempty hits)) eqn:E.
  { destruct hits; [|discriminate]. intro H. injection H as <-.
    exists (fun _ => true). reflexivity. }
  destruct (py_div 60 bpm) as [beat_duration|]; [|discriminate].
  cbn [bind].
  match goal with
  | |- fold_left ?f hits (Some []) = Some out -> _ => set (body := f)
  end.
  intro H.
  eexists.
  refine (fold_keeps body
            (fun x => match body (Some []) x with
                      | None => None
                      | Some [] => Some false
                      | Some _ => Some true
                      end) _ _ hits [] H).
  - reflexivity.
  - intros acc x. unfold body. cbn [bind].
    destruct (Qltb (time x - downbeat_time) 0).
    + destruct (assoc (type x) EXPECTED_POSITIONS); reflexivity.
    + destruct (py_fmod _ _); cbn [bind]; [|reflexivity].
      destruct (existsb _ _); reflexivity.
Qed.

Lemma filter_all (A : Type) (l : list A) : filter (fun _ => true) l = l.
Proof. induction l as [|x l IH]; simpl; congruence. Qed.

Lemma StronglySorted_filter (A : Type) (R : A -> A -> Prop)
      (f : A -> bool) (l : list A) :
  StronglySorted R l -> StronglySorted R (filter f l).
Proof.
  induction 1 as [|a l Hl IH Ha]; simpl; [constructor|].
  destruct (f a); [|exact IH].
  constructor; [exact IH|].
  apply Forall_forall. intros x Hx. apply filter_In in Hx.
  rewrite Forall_forall in Ha. apply Ha. tauto.
Qed.

(** ** Sorting *)

Lemma StronglySorted_app (A : Type) (R : A -> A -> Prop) (l1 l2 : list A) :
  StronglySorted R l1 -> StronglySorted R l2 ->
  (forall a b, In a l1 -> In b l2 -> R a b) ->
  StronglySorted R (l1 ++ l2).
Proof.
  intros H1 H2 H12. induction H1 as [|a l1 Hl IH Ha]; simpl; [exact H2|].
  constructor.
  - apply IH. intros x y Hx Hy. apply H12; [right|]; assumption.
  - apply Forall_app. split; [exact Ha|].
    apply Forall_forall. intros y Hy. apply H12; [left; reflexivity | exact Hy].
Qed.

Lemma StronglySorted_weaken (A : Type) (R R' : A -> A -> Prop) (l : list A) :
  (forall a b, R a b -> R' a b) ->
  StronglySorted R l -> StronglySorted R' l.
Proof.
  intros HR. induction 1 as [|a l Hl IH Ha]; constructor; [exact IH|].
  eapply Forall_impl; [|exact Ha]. intros b. apply HR.
Qed.

Section SortMembers.
Variable A : Type.
Variable key : A -> Q.

Lemma insert_by_In (x z : A) (l : list A) :
  In z (insert_by key x l) <-> z = x \/ In z l.
Proof.
  induction l as [|y l IH]; simpl.
  - intuition.
  - destruct (Qle_bool (key x) (key y)); simpl; [intuition|].
    rewrite IH. intuition.
Qed.

Lemma sort_by_In (z : A) (l : list A) : In z (sort_by key l) <-> In z l.
Proof.
  induction l as [|x l IH]; simpl; [tauto|].
  rewrite insert_by_In, IH. intuition.
Qed.

Lemma sort_by_length (l : list A) : length (sort_by key l) = length l.
Proof.
  induction l as [|x l IH]; simpl; [reflexivity|].
  rewrite <- IH. generalize (sort_by key l). intro s.
  induction s as [|y s IHs]; simpl; [reflexivity|].
  destruct (Qle_bool (key x) (key y)); simpl; [reflexivity|].
  now rewrite IHs.
Qed.

End SortMembers.

Section StableSort.
Variable A : Type.
Variable key : A -> Q.
(** [before a b]: [a] stands before [b] in the list being sorted. *)
Variable before : A -> A -> Prop.

Let keyed (a b : A) : Prop :=
  key a < key b \/ (key a == key b /\ before a b).

Lemma keyed_le (a b : A) : keyed a b -> key a <= key b.
Proof. intros [H | [H _]]; lra. Qed.

Lemma insert_by_sorted (x : A) (s : list A) :
  StronglySorted keyed s -> Forall (before x) s ->
  StronglySorted keyed (insert_by key x s).
Proof.
  induction 1 as [|y s Hs IH Hy]; intro Hx; simpl.
  - constructor; constructor.
  - inversion Hx as [|? ? Hxy Hxs]; subst.
    destruct (Qle_bool (key x) (key y)) eqn:E.
    + apply Qle_bool_iff in E.
      constructor; [constructor; assumption|].
      assert (Hcase : forall z, before x z -> key y <= key z -> keyed x z).
      { intros z Hb Hle. unfold keyed.
        destruct (Qlt_le_dec (key x) (key z)) as [Hlt | Hge];
          [left; exact Hlt | right; split; [lra | exact Hb]]. }
      constructor; [apply Hcase; [exact Hxy | lra]|].
      rewrite Forall_forall in Hy, Hxs |- *.
      intros z Hz. apply Hcase; [auto | apply keyed_le; auto].
    + apply Qle_bool_gt in E.
      constructor; [apply IH; exact Hxs|].
      apply Forall_forall. intros z Hz.
      apply (proj1 (insert_by_In key x z s)) in Hz.
      destruct Hz as [-> | Hz]; [left; exact E|].
      rewrite Forall_forall in Hy. auto.
Qed.

(** A stable sort of a list ordered by [before] orders it by key, and
    elements of equal key by [before]. *)
Lemma sort_by_stable (l : list A) :
  StronglySorted before l -> StronglySorted keyed (sort_by key l).
Proof.
  induction 1 as [|x l Hl IH Hx]; simpl; [constructor|].
  apply insert_by_sorted; [exact IH|].
  apply Forall_forall. intros z Hz. apply (proj1 (sort_by_In key z l)) in Hz.
  rewrite Forall_forall in Hx. apply Hx. exact Hz.
Qed.
End StableSort.

(** [sorted(set(...))] is strictly increasing. *)
Lemma insert_set_In (x z : Q) (l : list Q) :
  In z (insert_set x l) -> z = x \/ In z l.
Proof.
  induction l as [|y l IH]; simpl.
  - intuition.
  - destruct (Qltb x y); simpl; [intuition|].
    destruct (Qeq_bool x y); simpl; intuition.
Qed.

Lemma insert_set_sorted (x : Q) (l : list Q) :
  StronglySorted Qlt l -> StronglySorted Qlt (insert_set x l).
Proof.
  induction 1 as [|y l Hl IH Hy]; simpl.
  - constructor; constructor.
  - destruct (Qltb x y) eqn:E1.
    + apply Qltb_lt in E1.
      constructor; [constructor; assumption|].
      constructor; [exact E1|].
      eapply Forall_impl; [|exact Hy]. intros z Hz. lra.
    + apply Qltb_ge in E1.
      destruct (Qeq_bool x y) eqn:E2; [constructor; assumption|].
      assert (Hne : ~ x == y).
      { intro H. apply Qeq_bool_iff in H. congruence. }
      constructor; [exact IH|].
      apply Forall_forall. intros z Hz. apply insert_set_In in Hz.
      destruct Hz as [-> | Hz].
      * apply Qle_lteq in E1. destruct E1 as [E1 | E1];
          [exact E1 | exfalso; apply Hne; symmetry; exact E1].
      * rewrite Forall_forall in Hy. auto.
Qed.

Lemma sorted_set_sorted (l : list Q) : StronglySorted Qlt (sorted_set l).
Proof.
  induction l as [|x l IH]; simpl; [constructor|].
  apply insert_set_sorted. exact IH.
Qed.

(** ** Standard analysis *)

Section AnalysisFacts.
Context {AU : Audio}.

Lemma detect_drums_beat_aligned_shape
      (y : Signal) (sr : Z) (bs : list Q) (ts : Z) r :
  detect_drums_beat_aligned y sr bs ts = Some r ->
  exists kick snare hihat clap,
    r = [("kick", sorted_set kick); ("snare", sorted_set snare);
         ("hihat", sorted_set hihat); ("clap", sorted_set clap);
         ("tom", sorted_set []); ("perc", sorted_set [])].
Proof.
  unfold detect_drums_beat_aligned.
  repeat match goal with
         | |- bind ?m _ = Some _ -> _ =>
             destruct m; cbn [bind]; [|discriminate]
         end.
  cbv zeta.
  destruct (_ && _); [discriminate|].
  match goal with
  | |- (let '(snare, clap) := ?p in _) = _ -> _ =>
      destruct p as [snare clap]
  end.
  intro H. injection H as <-.
  eexists. eexists. eexists. eexists. reflexivity.
Qed.
End AnalysisFacts.

Lemma detected_hits_order (drums_path : bool) (d : list (string * list Q)) :
  StronglySorted (fun a b => (drum_rank a < drum_rank b)%nat) (map fst d) ->
  Forall (fun kv => StronglySorted Qlt (snd kv)) d ->
  StronglySorted time_then_detection_order (detected_hits drums_path d).
Proof.
  intros Hk Ht. unfold detected_hits.
  apply StronglySorted_weaken
    with (R := fun a b => time a < time b \/
                          (time a == time b /\ detection_order a b)).
  { intros a b [H | [He [H | H]]]; [left; exact H | right; tauto | lra]. }
  apply sort_by_stable.
  induction d as [|[ty times] d IH]; simpl; [constructor|].
  inversion Hk as [|? ? Hk' Hty]; subst. inversion Ht as [|? ? Hs Ht']; subst.
  apply StronglySorted_app.
  - simpl in Hs. clear -Hs.
    induction Hs as [|t l Hl IHl Hlt]; simpl; constructor; [exact IHl|].
    apply Forall_forall. intros h Hh. apply in_map_iff in Hh.
    destruct Hh as (t' & <- & Hin). right. simpl.
    rewrite Forall_forall in Hlt. auto.
  - apply IH; assumption.
  - intros a b Ha Hb. left.
    apply in_map_iff in Ha. destruct Ha as (t & <- & _). simpl.
    apply in_flat_map in Hb. destruct Hb as ([ty' times'] & Hin & Hb).
    apply in_map_iff in Hb. destruct Hb as (t' & <- & _). simpl.
    rewrite Forall_forall in Hty. apply Hty.
    apply in_map_iff. exists (ty', times'). split; [reflexivity | exact Hin].
Qed.

Section AnalysisRun.
Context {AU : Audio}.
Variables (beat_result : BeatResult) (method : string)
          (y_full : Signal) (sr_full : Z) (stem : option (Signal * Z))
          (apply_pattern_filter : bool) (pattern_tolerance_ms : Q).

Lemma analyze_rhythm_from_inv (res : RhythmAnalysisResult.t) :
  analyze_rhythm_from beat_result method y_full sr_full stem
                      apply_pattern_filter pattern_tolerance_ms
  = Some res ->
  exists pre,
    hits_before_pattern_filter beat_result y_full sr_full stem = Some pre
    /\ RhythmAnalysisResult.hits_before_filter res = Z.of_nat (length pre)
    /\ RhythmAnalysisResult.hits_after_filter res
       = Z.of_nat (length (RhythmAnalysisResult.hits res))
    /\ exists keep, RhythmAnalysisResult.hits res = filter keep pre.
Proof.
  unfold analyze_rhythm_from, hits_before_pattern_filter.
  destruct (py_div _ _) as [duration|]; cbn [bind]; [|discriminate].
  destruct stem as [[y_stem sr_stem]|];
    (destruct (detect_drums_beat_aligned _ _ _ _) as [d|];
     cbn [bind]; [|discriminate]);
    (destruct (detect_genre _ _ _) as [genre conf]);
    (destruct (apply_pattern_filter && nonempty (downbeats beat_result));
     [ destruct (filter_hits_by_pattern _ _ _ _ _ _) as [hits'|] eqn:F;
       cbn [bind]; [|discriminate];
       apply filter_hits_by_pattern_filter in F; destruct F as [keep ->]
     | cbn [bind] ]);
    intro H; injection H as <-; simpl;
    eexists; (split; [reflexivity|]); (split; [reflexivity|]);
    (split; [reflexivity|]).
  all: try (exists keep; reflexivity).
  all: exists (fun _ => true); symmetry; apply filter_all.
Qed.
End AnalysisRun.

Section AnalysisOutput.
Context {AU : Audio}.
Variables (beat_result : BeatResult) (method : string)
          (y_full : Signal) (sr_full : Z) (stem : option (Signal * Z))
          (apply_pattern_filter : bool) (pattern_tolerance_ms : Q).

Lemma hits_before_pattern_filter_order (pre : list DrumHit) :
  hits_before_pattern_filter beat_result y_full sr_full stem = Some pre ->
  StronglySorted time_then_detection_order pre.
Proof.
  unfold hits_before_pattern_filter.
  destruct stem as [[y_stem sr_stem]|];
    (destruct (detect_drums_beat_aligned _ _ _ _) as [d|] eqn:D;
     cbn [bind]; [|discriminate]);
    intro H; injection H as <-;
    apply detect_drums_beat_aligned_shape in D;
    destruct D as (kick & snare & hihat & clap & ->);
    (apply detected_hits_order;
     [ simpl; repeat (constructor; [|repeat constructor; vm_compute; lia]);
       constructor
     | repeat constructor; simpl; apply sorted_set_sorted ]).
Qed.

(** C3, amended. The hits of an analysis output are in non-decreasing
    order of time, and hits of equal time have different types and stand
    in the order of the detection result: kick, snare, hihat, clap, tom,
    perc. *)
Theorem analysis_hits_order (res : RhythmAnalysisResult.t) :
  analyze_rhythm_from beat_result method y_full sr_full stem
                      apply_pattern_filter pattern_tolerance_ms
  = Some res ->
  StronglySorted time_then_detection_order (RhythmAnalysisResult.hits res).
Proof.
  intro H. apply analyze_rhythm_from_inv in H.
  destruct H as (pre & Hpre & _ & _ & keep & ->).
  apply StronglySorted_filter.
  apply hits_before_pattern_filter_order. exact Hpre.
Qed.

(** C9. In a standard-analysis run the counter [hits_after_filter] is at
    most [hits_before_filter]; the two count the hits after and before the
    pattern filter, and every hit of the output is one of the hits before
    the filter.  The pattern filter itself, on any hit list, returns hits
    of that list and no more of them. *)
Theorem pattern_filter_only_removes :
  (forall res : RhythmAnalysisResult.t,
      analyze_rhythm_from beat_result method y_full sr_full stem
                          apply_pattern_filter pattern_tolerance_ms
      = Some res ->
      (RhythmAnalysisResult.hits_after_filter res
       <= RhythmAnalysisResult.hits_before_filter res)%Z
      /\ exists pre,
          hits_before_pattern_filter beat_result y_full sr_full stem
          = Some pre
          /\ RhythmAnalysisResult.hits_before_filter res
             = Z.of_nat (length pre)
          /\ RhythmAnalysisResult.hits_after_filter res
             = Z.of_nat (length (RhythmAnalysisResult.hits res))
          /\ incl (RhythmAnalysisResult.hits res) pre)
  /\ (forall hits tempo downbeat_time ts genre tolerance_ms out,
         filter_hits_by_pattern hits tempo downbeat_time ts genre
                                tolerance_ms = Some out ->
         (length out <= length hits)%nat /\ incl out hits).
Proof.
  split.
  - intros res H. apply analyze_rhythm_from_inv in H.
    destruct H as (pre & Hpre & Hb & Ha & keep & Hk).
    split.
    + rewrite Ha, Hb, Hk. apply inj_le. apply filter_length_le.
    + exists pre. repeat split; try assumption.
      rewrite Hk. apply incl_filter.
  - intros hits tempo downbeat_time ts genre tolerance_ms out H.
    apply filter_hits_by_pattern_filter in H. destruct H as [keep ->].
    split; [apply filter_length_le | apply incl_filter].
Qed.
End AnalysisOutput.

(** What the fallback tracker reports on the two-second clips. *)
Lemma clip_backbeat_beats :
  detect_beats_fallback (AU := clip_audio) clip_backbeat 44100%Z
  = Some (mkBeatResult 120 (8#10) [0; 1#2; 1; 3#2]
            (downbeats_mod4 [0; 1#2; 1; 3#2]) 4).
Proof. reflexivity. Qed.

(** C3, as stated, fails: the snare, the hi-hat and the clap detected on
    beat 2 share the time 0.5 s and are returned in that order, not in the
    lexicographic order clap, hihat, snare. *)
Lemma hit_order_counterexample :
  exists res,
    analyze_rhythm (AU := clip_audio) clip_backbeat 44100%Z None true 100
    = Some res
    /\ RhythmAnalysisResult.hits res
       = [mkDrumHit (1#2) "snare" (70#100) None;
          mkDrumHit (1#2) "hihat" (70#100) None;
          mkDrumHit (1#2) "clap" (70#100) None]
    /\ ~ hit_order_claim (RhythmAnalysisResult.hits res).
Proof.
  eexists. split; [vm_compute; reflexivity|].
  split; [reflexivity|].
  simpl. intro H.
  inversion H as [|a l _ Hfirst]; subst.
  inversion Hfirst as [|b l' Hsh _]; subst.
  destruct Hsh as [Hlt | [_ Hty]].
  - vm_compute in Hlt. discriminate Hlt.
  - vm_compute in Hty. discriminate Hty.
Qed.

Lemma analysis_hits_order_witness :
  exists res,
    analyze_rhythm_from (AU := clip_audio)
      (mkBeatResult 120 (8#10) [0; 1#2; 1; 3#2]
         (downbeats_mod4 [0; 1#2; 1; 3#2]) 4)
      "librosa" clip_backbeat 44100%Z None true 100 = Some res
    /\ StronglySorted time_then_detection_order
         (RhythmAnalysisResult.hits res).
Proof.
  eexists. split; [vm_compute; reflexivity|].
  eapply (@analysis_hits_order clip_audio
            (mkBeatResult 120 (8#10) [0; 1#2; 1; 3#2]
               (downbeats_mod4 [0; 1#2; 1; 3#2]) 4)
            "librosa" clip_backbeat 44100%Z None true 100).
  vm_compute. reflexivity.
Defined.

Lemma pattern_filter_only_removes_witness :
  exists res,
    analyze_rhythm_from (AU := clip_audio)
      (mkBeatResult 120 (8#10) [0; 1#2; 1; 3#2]
         (downbeats_mod4 [0; 1#2; 1; 3#2]) 4)
      "librosa" clip_syncopated 44100%Z None true 100 = Some res
    /\ RhythmAnalysisResult.hits_before_filter res = 4%Z
    /\ RhythmAnalysisResult.hits_after_filter res = 3%Z
    /\ (RhythmAnalysisResult.hits_after_filter res
        <= RhythmAnalysisResult.hits_before_filter res)%Z.
Proof.
  eexists. split; [vm_compute; reflexivity|].
  split; [reflexivity|]. split; [reflexivity|].
  match goal with
  | |- (RhythmAnalysisResult.hits_after_filter ?r <= _)%Z =>
      apply (proj1 (proj1 (@pattern_filter_only_removes clip_audio
                             (mkBeatResult 120 (8#10) [0; 1#2; 1; 3#2]
                                (downbeats_mod4 [0; 1#2; 1; 3#2]) 4)
                             "librosa" clip_syncopated 44100%Z None true 100)
                          r ltac:(vm_compute; reflexivity)))
  end.
Defined.

(** ** Adaptive rescan *)

(** C4, as stated, fails: a kick already present at 29.6 ms is remembered
    as 0.03 s (its time rounded to the millisecond), which is not within
    30 ms of the grid time 0, so a new kick is emitted at 0 s, 29.6 ms away
    from it. *)
Lemma rescan_counterexample :
  exists res,
    detect_adaptive (AU := clip_audio) clip_downbeat_kick 120 0 4
                    [mkExistingHit (Some (296#10000)) "kick"] TargetAll 2
    = Some res
    /\ ~ rescan_claim [mkExistingHit (Some (296#10000)) "kick"]
                      (AdaptiveResult.new_hits res).
Proof.
  eexists. split; [vm_compute; reflexivity|].
  intro H.
  specialize (H _ _ (296#10000) (or_introl eq_refl) (or_introl eq_refl)
                eq_refl eq_refl).
  vm_compute in H. apply H. reflexivity.
Qed.

Lemma round3_error (x : Q) : Qabs (py_round_digits x 3 - x) <= 5#10000.
Proof.
  unfold py_round_digits. cbv zeta.
  change (inject_Z (10 ^ Z.of_nat 3)) with 1000.
  pose proof (py_round_near (x * 1000)) as H.
  set (k := inject_Z (py_round (x * 1000))) in *.
  unfold Qdiv. change (/ 1000) with (1#1000).
  apply Qabs_Qle_condition in H. apply Qabs_Qle_condition. split; lra.
Qed.

Lemma round4_error (x : Q) : Qabs (py_round_digits x 4 - x) <= 5#100000.
Proof.
  unfold py_round_digits. cbv zeta.
  change (inject_Z (10 ^ Z.of_nat 4)) with 10000.
  pose proof (py_round_near (x * 10000)) as H.
  set (k := inject_Z (py_round (x * 10000))) in *.
  unfold Qdiv. change (/ 10000) with (1#10000).
  apply Qabs_Qle_condition in H. apply Qabs_Qle_condition. split; lra.
Qed.

(** Rounding both times moves them by at most 0.55 ms in all. *)
Lemma rounded_separation (t hit_time : Q) :
  3#100 <= Qabs (py_round_digits t 3 - hit_time) ->
  2945#100000 <= Qabs (py_round_digits hit_time 4 - t).
Proof.
  pose proof (round3_error t) as H3. pose proof (round4_error hit_time) as H4.
  set (a := py_round_digits t 3) in *.
  set (b := py_round_digits hit_time 4) in *.
  apply Qabs_Qle_condition in H3, H4.
  revert H3 H4.
  apply Qabs_case; intros Ha H3 H4 H; apply Qabs_case; intro Hb; lra.
Qed.

Section OptionFold.
Variables (S X : Type) (P : S -> Prop).
Variable f : option S -> X -> option S.
Hypothesis f_none : forall x, f None x = None.
Hypothesis f_keeps :
  forall st x st', P st -> f (Some st) x = Some st' -> P st'.

Lemma fold_option_none (l : list X) : fold_left f l None = None.
Proof. induction l as [|x l IH]; simpl; [|rewrite f_none]; auto. Qed.

Lemma fold_option_invariant (l : list X) (st st' : S) :
  P st -> fold_left f l (Some st) = Some st' -> P st'.
Proof.
  revert st. induction l as [|x l IH]; intros st HP H; simpl in H.
  - injection H as <-. exact HP.
  - destruct (f (Some st) x) as [st1|] eqn:E.
    + eapply IH; [|exact H]. eapply f_keeps; eassumption.
    + rewrite fold_option_none in H. discriminate.
Qed.
End OptionFold.

Section ScanFacts.
Context {AU : Audio}.
Variable times0 : list Q.

Lemma scan_position_invariant
      sr window_samples duration bar_start grid_duration bar_num is_quiet
      drum_type filtered_y threshold st grid_pos :
  scan_invariant times0 st ->
  scan_invariant times0
    (scan_position sr window_samples duration bar_start grid_duration
                   bar_num is_quiet drum_type filtered_y threshold
                   st grid_pos).
Proof.
  intros [Hincl Hnew]. unfold scan_position.
  destruct st as [existing_times new_hits]. cbv zeta.
  destruct (_ || _); [split; assumption|].
  destruct (existsb _ existing_times) eqn:Hnear; [split; assumption|].
  destruct (Qgtb _ threshold); [|split; assumption].
  simpl in Hincl, Hnew. split; simpl.
  - apply incl_appl. exact Hincl.
  - apply Forall_app. split; [exact Hnew|].
    constructor; [|constructor].
    eexists. split; [reflexivity|].
    apply Forall_forall. intros t Ht.
    apply Hincl in Ht.
    assert (Hf : Qltb (Qabs (t - (bar_start + inject_Z grid_pos * grid_duration)))
                      (3#100) = false).
    { destruct (Qltb _ _) eqn:E; [|reflexivity].
      assert (Hex : existsb
                      (fun t => Qltb (Qabs (t - (bar_start + inject_Z grid_pos
                                                              * grid_duration)))
                                     (3#100)) existing_times = true)
        by (apply existsb_exists; exists t; split; assumption).
      rewrite Hex in Hnear. discriminate. }
    apply Qltb_ge in Hf. exact Hf.
Qed.

Lemma scan_positions_invariant
      sr window_samples duration bar_start grid_duration bar_num is_quiet
      drum_type filtered_y threshold positions st :
  scan_invariant times0 st ->
  scan_invariant times0
    (fold_left
       (scan_position sr window_samples duration bar_start grid_duration
                      bar_num is_quiet drum_type filtered_y threshold)
       positions st).
Proof.
  revert st. induction positions as [|p ps IH]; intros st H; simpl;
    [exact H|].
  apply IH. apply scan_position_invariant. exact H.
Qed.

Lemma scan_bar_invariant
      sr window_samples duration downbeat_offset bar_duration grid_duration
      sensitivity_boost bar_energies filtered_audio st bar_num st' :
  scan_invariant times0 st ->
  scan_bar sr window_samples duration downbeat_offset bar_duration
           grid_duration sensitivity_boost bar_energies filtered_audio
           st bar_num = Some st' ->
  scan_invariant times0 st'.
Proof.
  intros Hst. unfold scan_bar. cbv zeta.
  match goal with
  | |- bind ?m _ = _ -> _ =>
      destruct m as [mult|]; cbn [bind]; [|discriminate]
  end.
  apply fold_option_invariant with (P := scan_invariant times0);
    [| |exact Hst].
  - intros [ty ps]. reflexivity.
  - intros s [ty ps] s' Hs. cbn [bind].
    destruct (negb (nonempty ps)); [intro H; injection H as <-; exact Hs|].
    destruct (assoc ty filtered_audio) as [fy|]; cbn [bind]; [|discriminate].
    destruct (assoc ty BASE_THRESHOLDS) as [base|]; cbn [bind];
      [|discriminate].
    intro H. injection H as <-.
    apply scan_positions_invariant. exact Hs.
Qed.
End ScanFacts.

Section RescanOutput.
Context {AU : Audio}.
Variables (y : Signal) (bpm downbeat_offset : Q) (time_signature : Z)
          (existing : list ExistingHit) (target_bars : TargetBars)
          (sensitivity_boost : Q).

Lemma detect_adaptive_invariant (res : AdaptiveResult.t) :
  detect_adaptive y bpm downbeat_offset time_signature existing target_bars
                  sensitivity_boost = Some res ->
  exists st,
    scan_invariant (map (fun h => py_round_digits (get_time h) 3) existing) st
    /\ AdaptiveResult.new_hits res = sort_by NewHit.time (snd st).
Proof.
  unfold detect_adaptive. cbv zeta.
  destruct (py_div _ _) as [duration|]; cbn [bind]; [|discriminate].
  destruct (py_div 60 bpm) as [beat_duration|]; cbn [bind]; [|discriminate].
  destruct (py_div duration _) as [bars|]; cbn [bind]; [|discriminate].
  match goal with
  | |- bind ?m _ = _ -> _ =>
      destruct m as [filtered_audio|]; cbn [bind]; [|discriminate]
  end.
  match goal with
  | |- bind ?m _ = _ -> _ =>
      destruct m as [scanned|] eqn:Hscan; cbn [bind]; [|discriminate]
  end.
  intro H. injection H as <-. simpl.
  exists scanned. split; [|reflexivity].
  revert Hscan.
  apply fold_option_invariant
    with (P := scan_invariant
                 (map (fun h => py_round_digits (get_time h) 3) existing)).
  - reflexivity.
  - intros st bar_num st' Hst. cbn [bind]. apply scan_bar_invariant. exact Hst.
  - split; simpl; [apply incl_refl | constructor].
Qed.

(** C4, amended. Every new hit of an adaptive rescan carries the rounding
    (to 0.1 ms) of a grid time that is at least 30 ms away from the time,
    rounded to the millisecond, of every pre-existing hit, whatever its
    type; a new hit is therefore at least 29.45 ms away from every
    pre-existing hit. *)
Theorem adaptive_rescan_separation (res : AdaptiveResult.t) :
  detect_adaptive y bpm downbeat_offset time_signature existing target_bars
                  sensitivity_boost = Some res ->
  forall n e,
    In n (AdaptiveResult.new_hits res) -> In e existing ->
    (exists hit_time,
        NewHit.time n = py_round_digits hit_time 4 /\
        3#100 <= Qabs (py_round_digits (get_time e) 3 - hit_time))
    /\ 2945#100000 <= Qabs (NewHit.time n - get_time e).
Proof.
  intros H n e Hn He.
  apply detect_adaptive_invariant in H.
  destruct H as (st & [_ Hnew] & Hres).
  rewrite Hres in Hn. apply (proj1 (sort_by_In NewHit.time n (snd st))) in Hn.
  rewrite Forall_forall in Hnew. destruct (Hnew n Hn) as (ht & Ht & Hfar).
  rewrite Forall_forall in Hfar.
  assert (Hd : 3#100 <= Qabs (py_round_digits (get_time e) 3 - ht)).
  { apply Hfar. apply in_map_iff. exists e. split; [reflexivity | exact He]. }
  split.
  - exists ht. split; assumption.
  - rewrite Ht. apply rounded_separation. exact Hd.
Qed.
End RescanOutput.

Lemma adaptive_rescan_separation_witness :
  exists res,
    detect_adaptive (AU := clip_audio) clip_downbeat_kick 120 0 4
                    [mkExistingHit (Some (296#10000)) "kick"] TargetAll 2
    = Some res
    /\ forall n e,
        In n (AdaptiveResult.new_hits res) ->
        In e [mkExistingHit (Some (296#10000)) "kick"] ->
        2945#100000 <= Qabs (NewHit.time n - get_time e).
Proof.
  eexists. split; [vm_compute; reflexivity|].
  intros n e Hn He.
  match type of Hn with
  | In n (AdaptiveResult.new_hits ?r) =>
      exact (proj2 (@adaptive_rescan_separation clip_audio
                      clip_downbeat_kick 120 0 4%Z
                      [mkExistingHit (Some (296#10000)) "kick"] TargetAll 2 r
                      ltac:(vm_compute; reflexivity) n e Hn He))
  end.
Defined.

(* ================================================================== *)
(** * Part II, continued: further properties                           *)
(* ================================================================== *)

(** ** Half-time correction on any beat grid *)

Lemma Qhalf (x : Q) : x / 2 == x * (1#2).
Proof. unfold Qdiv. change (/ 2) with (1#2). reflexivity. Qed.

Lemma with_midpoints_length (l : list Q) :
  length (with_midpoints l) = (2 * length l - 1)%nat.
Proof.
  induction l as [|a [|b l'] IH]; try reflexivity.
  change (with_midpoints (a :: b :: l'))
    with (a :: (a + b) / 2 :: with_midpoints (b :: l')).
  simpl length in *. rewrite IH. lia.
Qed.

Lemma with_midpoints_head (a : Q) (l : list Q) :
  exists t, with_midpoints (a :: l) = a :: t.
Proof. destruct l; eexists; reflexivity. Qed.

Lemma with_midpoints_Sorted (l : list Q) :
  Sorted Qlt l -> Sorted Qlt (with_midpoints l).
Proof.
  induction l as [|a [|b l'] IH]; intro H; try exact H.
  change (with_midpoints (a :: b :: l'))
    with (a :: (a + b) / 2 :: with_midpoints (b :: l')).
  inversion H as [|? ? Hs Hh]; subst. inversion Hh as [|? ? Hab]; subst.
  specialize (IH Hs).
  destruct (with_midpoints_head b l') as [t Ht]. rewrite Ht in *.
  constructor.
  - constructor; [exact IH|]. constructor. rewrite Qhalf. lra.
  - constructor. rewrite Qhalf. lra.
Qed.

Lemma Qlt_Transitive : Relations_1.Transitive Qlt.
Proof. intros x y z H1 H2. lra. Qed.

Lemma with_midpoints_increasing (l : list Q) :
  StronglySorted Qlt l -> StronglySorted Qlt (with_midpoints l).
Proof.
  intro H. apply Sorted_StronglySorted; [exact Qlt_Transitive|].
  apply with_midpoints_Sorted. apply StronglySorted_Sorted. exact H.
Qed.

Section HalfTimeShape.
Context {AU : Audio}.

(** Whatever the branch, the correction returns its argument or the
    doubled grid. *)
Lemma correct_half_time_cases (y : Signal) (sr : Z) (r : BeatResult) :
  correct_half_time_spectral y sr r = r \/
  exists c,
    correct_half_time_spectral y sr r = doubled_result r c /\ c <= 85#100.
Proof.
  unfold correct_half_time_spectral, correct_half_time_spectral_log.
  destruct (_ || _); [left; reflexivity|].
  destruct (_ && _).
  { right. eexists. split; [reflexivity|].
    apply Qle_trans with (7#10); [apply py_min_le_r | discriminate]. }
  unfold try_except.
  repeat match goal with
         | |- context [bind ?m _] => destruct m; cbn [bind]
         | |- context [if ?b then _ else _] => destruct b
         end;
    try (left; reflexivity).
  right. eexists. split; [reflexivity | apply py_min_le_r].
Qed.

(** X1. Half-time correction of any beat grid returns either its argument
    or a grid of twice the tempo whose beats are the old ones with every
    midpoint inserted (2n - 1 beats for n), with the time signature kept,
    a confidence of at most 0.85, and downbeat positions that cycle
    1, 2, 3, 4 whatever the time signature. *)
Theorem correct_half_time_spectral_shape
    (y : Signal) (sr : Z) (r : BeatResult) :
  let r' := correct_half_time_spectral y sr r in
  r' = r \/
  (bpm r' = bpm r * 2 /\
   beats r' = with_midpoints (beats r) /\
   length (beats r') = (2 * length (beats r) - 1)%nat /\
   downbeats r' = rebuild_downbeats 4 (beats r') /\
   bpm_confidence r' <= 85#100 /\
   time_signature r' = time_signature r).
Proof.
  cbv zeta.
  destruct (correct_half_time_cases y sr r) as [E | (c & E & Hc)];
    [left; exact E | right].
  rewrite E. simpl. rewrite interpolate_beats_midpoints.
  repeat split.
  - apply with_midpoints_length.
  - apply downbeats_mod4_rebuild.
  - exact Hc.
Qed.

(** X2. Half-time correction keeps a strictly increasing beat list
    strictly increasing. *)
Theorem correct_half_time_spectral_increasing
    (y : Signal) (sr : Z) (r : BeatResult) :
  StronglySorted Qlt (beats r) ->
  StronglySorted Qlt (beats (correct_half_time_spectral y sr r)).
Proof.
  intro H.
  destruct (correct_half_time_cases y sr r) as [E | (c & E & _)]; rewrite E.
  - exact H.
  - simpl. rewrite interpolate_beats_midpoints.
    apply with_midpoints_increasing. exact H.
Qed.
End HalfTimeShape.

Lemma correct_half_time_spectral_increasing_witness :
  StronglySorted Qlt
    (beats (correct_half_time_spectral (AU := clip_audio) clip_75 44100%Z
              (mkBeatResult 75 (4#10) [0; 8#10; 16#10; 24#10]
                 (downbeats_mod4 [0; 8#10; 16#10; 24#10]) 4))).
Proof.
  apply (@correct_half_time_spectral_increasing clip_audio).
  simpl. repeat constructor.
Defined.

(** ** The second half-time rule *)

Lemma downbeat_loop (k : nat) (l : list Q) (acc : list Downbeat) :
  fold_left
    (fun corrected_downbeats '(i, t) =>
       if (Z.of_nat i mod 4 =? 0)%Z
       then corrected_downbeats ++ [mkDownbeat t 1]
       else corrected_downbeats)
    (combine (seq k (length l)) l) acc
  = acc ++ map (fun t => mkDownbeat t 1) (at_multiples_of_4 k l).
Proof.
  revert k acc. induction l as [|t l IH]; intros k acc; simpl.
  - now rewrite app_nil_r.
  - rewrite IH. destruct (Z.of_nat k mod 4 =? 0)%Z; simpl.
    + now rewrite <- app_assoc.
    + reflexivity.
Qed.

Lemma mod4_steps (k : nat) :
  (Z.of_nat k mod 4 = 0)%Z ->
  (Z.of_nat k mod 4 =? 0)%Z = true /\
  (Z.of_nat (S k) mod 4 =? 0)%Z = false /\
  (Z.of_nat (S (S k)) mod 4 =? 0)%Z = false /\
  (Z.of_nat (S (S (S k))) mod 4 =? 0)%Z = false /\
  (Z.of_nat (S (S (S (S k)))) mod 4 = 0)%Z.
Proof.
  intro H. rewrite !Nat2Z.inj_succ.
  repeat split; try (apply Z.eqb_eq); try (apply Z.eqb_neq);
    Z.div_mod_to_equations; lia.
Qed.

Lemma midpoints_at_multiples_of_4 (n : nat) :
  forall (bs : list Q) (k : nat),
    (length bs <= n)%nat -> (Z.of_nat k mod 4 = 0)%Z ->
    at_multiples_of_4 k (with_midpoints bs) = every_second bs.
Proof.
  induction n as [|n IH]; intros bs k Hn Hk.
  - destruct bs; [reflexivity | simpl in Hn; lia].
  - destruct (mod4_steps k Hk) as (H0 & H1 & H2 & H3 & H4).
    destruct bs as [|a [|b [|c l']]].
    + reflexivity.
    + cbn [with_midpoints at_multiples_of_4 every_second].
      rewrite H0. reflexivity.
    + cbn [with_midpoints at_multiples_of_4 every_second].
      rewrite H0, H1, H2. reflexivity.
    + change (with_midpoints (a :: b :: c :: l'))
        with (a :: (a + b) / 2 :: b :: (b + c) / 2 :: with_midpoints (c :: l')).
      cbn [at_multiples_of_4]. rewrite H0, H1, H2, H3.
      cbn [every_second]. f_equal.
      apply IH; [simpl in Hn |- *; lia | exact H4].
Qed.

Lemma correct_half_time_beats_shape
    (tempo : Q) (bs : list Q) (dbs : list Downbeat) :
  (90 <= tempo -> correct_half_time_beats tempo bs dbs = (tempo, bs, dbs))
  /\ (tempo < 90 ->
      exists cdb,
        correct_half_time_beats tempo bs dbs
        = (tempo * 2, with_midpoints bs, cdb)).
Proof.
  unfold correct_half_time_beats. split; intro H.
  - assert (E : Qgeb tempo 90 = true) by (apply Qgeb_ge; exact H).
    rewrite E. reflexivity.
  - assert (E : Qgeb tempo 90 = false) by (apply Qgeb_lt; exact H).
    rewrite E. cbv zeta. rewrite interpolate_beats_midpoints.
    eexists. reflexivity.
Qed.

(** X3. The second half-time rule leaves a grid at 90 BPM or more alone;
    below 90 BPM it doubles the tempo, inserts every midpoint, and marks as
    downbeats (all with beat position 1) exactly the original beats of even
    index. *)
Theorem correct_half_time_beats_downbeats
    (tempo : Q) (bs : list Q) (dbs : list Downbeat) :
  (90 <= tempo -> correct_half_time_beats tempo bs dbs = (tempo, bs, dbs))
  /\ (tempo < 90 ->
      correct_half_time_beats tempo bs dbs
      = (tempo * 2, with_midpoints bs,
         map (fun t => mkDownbeat t 1) (every_second bs))).
Proof.
  unfold correct_half_time_beats. split; intro H.
  - assert (E : Qgeb tempo 90 = true) by (apply Qgeb_ge; exact H).
    rewrite E. reflexivity.
  - assert (E : Qgeb tempo 90 = false) by (apply Qgeb_lt; exact H).
    rewrite E. cbv zeta. rewrite downbeat_loop, interpolate_beats_midpoints.
    simpl app.
    rewrite (midpoints_at_multiples_of_4 (n := length bs)); auto.
Qed.

Lemma correct_half_time_beats_downbeats_witness :
  correct_half_time_beats 80 [0; 1; 2; 3; 4] []
  = (80 * 2, with_midpoints [0; 1; 2; 3; 4],
     map (fun t => mkDownbeat t 1) (every_second [0; 1; 2; 3; 4])).
Proof.
  apply (proj2 (correct_half_time_beats_downbeats 80 [0; 1; 2; 3; 4] [])).
  reflexivity.
Defined.

(** ** The AI-enhanced analysis *)

Lemma sort_by_Forall (A : Type) (key : A -> Q) (P : A -> Prop) (l : list A) :
  Forall P l -> Forall P (sort_by key l).
Proof.
  intro H. apply Forall_forall. intros x Hx.
  apply (proj1 (sort_by_In key x l)) in Hx.
  rewrite Forall_forall in H. auto.
Qed.

Section AiFacts.
Context {AU : Audio}.

(** X4. The AI-enhanced analysis never applies the pattern filter, whatever
    the request asks: both counters are the number of returned hits, the
    method is "gemini-ai", and every hit has confidence 0.85. *)
Theorem analyze_rhythm_with_ai_unfiltered
    (beat_result : BeatResult) (y : Signal) (sr : Z)
    (apply_pattern_filter : bool) (pattern_tolerance_ms : Q)
    (res : RhythmAnalysisResult.t) :
  analyze_rhythm_with_ai_from beat_result y sr apply_pattern_filter
                              pattern_tolerance_ms = Some res ->
  RhythmAnalysisResult.pattern_filter_applied res = false /\
  RhythmAnalysisResult.hits_before_filter res
  = Z.of_nat (length (RhythmAnalysisResult.hits res)) /\
  RhythmAnalysisResult.hits_after_filter res
  = Z.of_nat (length (RhythmAnalysisResult.hits res)) /\
  RhythmAnalysisResult.analysis_method res = "gemini-ai" /\
  Forall (fun h => confidence h = 85#100) (RhythmAnalysisResult.hits res).
Proof.
  unfold analyze_rhythm_with_ai_from.
  destruct (py_div _ _) as [duration|]; cbn [bind]; [|discriminate].
  destruct (correct_half_time_beats _ _ _) as [[cb cbeats] cdb].
  destruct (detect_drums_beat_aligned _ _ _ _) as [d|]; cbn [bind];
    [|discriminate].
  destruct (detect_genre _ _ _) as [genre conf].
  intro H. injection H as <-. simpl.
  repeat split.
  unfold detected_hits_ai. apply sort_by_Forall.
  apply Forall_forall. intros h Hh.
  apply in_flat_map in Hh. destruct Hh as ([ty times] & _ & Hh).
  apply in_map_iff in Hh. destruct Hh as (t & <- & _). reflexivity.
Qed.

(** X5. On the librosa path the two half-time rules compose: a tracker
    result below 45 BPM with confidence below 0.5 is doubled by the first
    rule and again by the second, so the AI-enhanced analysis reports four
    times the tracked tempo and the beats with midpoints inserted twice. *)
Theorem analyze_rhythm_with_ai_doubles_twice
    (y : Signal) (sr : Z) (apply_pattern_filter : bool)
    (pattern_tolerance_ms : Q) (r0 : BeatResult)
    (res : RhythmAnalysisResult.t) :
  detect_beats_librosa y sr = Some r0 ->
  bpm r0 < 45 -> bpm_confidence r0 < 1#2 ->
  analyze_rhythm_with_ai y sr apply_pattern_filter pattern_tolerance_ms
  = Some res ->
  RhythmAnalysisResult.bpm res = bpm r0 * 2 * 2 /\
  RhythmAnalysisResult.beats res = with_midpoints (with_midpoints (beats r0)).
Proof.
  intros Hr Hb Hc. unfold analyze_rhythm_with_ai, detect_beats_fallback.
  destruct (py_div _ _) as [duration|]; cbn [bind]; [|discriminate].
  rewrite Hr. cbn [bind].
  unfold correct_half_time_spectral.
  rewrite rule_A_branch by (try assumption; lra). cbn [snd].
  unfold analyze_rhythm_with_ai_from.
  destruct (py_div _ _) as [d2|]; cbn [bind]; [|discriminate].
  cbn [bpm beats downbeats doubled_result].
  destruct (proj2 (correct_half_time_beats_shape
                     (bpm r0 * 2) (interpolate_beats (beats r0))
                     (downbeats_mod4 (interpolate_beats (beats r0)))))
    as [cdb E]; [lra|].
  rewrite E.
  destruct (detect_drums_beat_aligned _ _ _ _) as [d|]; cbn [bind];
    [|discriminate].
  destruct (detect_genre _ _ _) as [genre conf].
  intro H. injection H as <-. simpl.
  rewrite interpolate_beats_midpoints. split; reflexivity.
Qed.
End AiFacts.

Lemma analyze_rhythm_with_ai_unfiltered_witness :
  exists res,
    analyze_rhythm_with_ai_from (AU := clip_audio)
      (mkBeatResult 120 (8#10) [0; 1#2; 1; 3#2]
         (downbeats_mod4 [0; 1#2; 1; 3#2]) 4)
      clip_backbeat 44100%Z true 100 = Some res
    /\ RhythmAnalysisResult.pattern_filter_applied res = false
    /\ RhythmAnalysisResult.hits_after_filter res = 3%Z.
Proof.
  eexists. split; [vm_compute; reflexivity|].
  split; [|reflexivity].
  match goal with
  | |- RhythmAnalysisResult.pattern_filter_applied ?r = false =>
      exact (proj1 (@analyze_rhythm_with_ai_unfiltered clip_audio
                      (mkBeatResult 120 (8#10) [0; 1#2; 1; 3#2]
                         (downbeats_mod4 [0; 1#2; 1; 3#2]) 4)
                      clip_backbeat 44100%Z true 100 r
                      ltac:(vm_compute; reflexivity)))
  end.
Defined.

Lemma analyze_rhythm_with_ai_doubles_twice_witness :
  exists res,
    analyze_rhythm_with_ai (AU := clip_audio) clip_40 44100%Z false 100
    = Some res
    /\ RhythmAnalysisResult.bpm res = 40 * 2 * 2.
Proof.
  eexists. split; [vm_compute; reflexivity|].
  match goal with
  | |- RhythmAnalysisResult.bpm ?r = _ =>
      exact (proj1 (@analyze_rhythm_with_ai_doubles_twice clip_audio
                      clip_40 44100%Z false 100
                      (mkBeatResult 40 (3#10) [0; 15#10; 3]
                         (downbeats_mod4 [0; 15#10; 3]) 4)
                      r eq_refl eq_refl eq_refl
                      ltac:(vm_compute; reflexivity)))
  end.
Defined.

(** ** Quantizer: how far a hit moves and where it is addressed *)

Lemma Qabs_scale (s x : Q) : 0 <= s -> Qabs (s * x) == s * Qabs x.
Proof. intro H. rewrite Qabs_Qmult, (Qabs_pos s H). reflexivity. Qed.

Lemma Qmult_le_nonneg_l (s x y : Q) : 0 <= s -> x <= y -> s * x <= s * y.
Proof.
  intros Hs H. rewrite (Qmult_comm s x), (Qmult_comm s y).
  apply Qmult_le_compat_r; assumption.
Qed.

Section Displacement.
Variables (bpm downbeat_offset swing strength : Q).
Hypothesis bpm_pos : 0 < bpm.
Hypothesis swing_range : 0 <= swing <= 100.
Hypothesis strength_range : 0 <= strength <= 1.

Lemma snap_distance (t : Q) :
  Qabs (t - (downbeat_offset
             + inject_Z (py_round ((t - downbeat_offset)
                                   / step_duration bpm 4))
               * step_duration bpm 4))
  <= step_duration bpm 4 * (1#2).
Proof.
  pose proof (step_duration_pos bpm_pos) as Hg.
  rewrite (grid_offset_scaled downbeat_offset bpm_pos), Qabs_scale by lra.
  apply Qmult_le_l; [exact Hg|]. apply py_round_near.
Qed.

Lemma quantize_hit_displacement (h : DrumHit) :
  Qabs (time (fst (quantize_with bpm downbeat_offset swing strength 4 h))
        - time h)
  <= strength * step_duration bpm 4.
Proof.
  pose proof (step_duration_pos bpm_pos) as Hg.
  rewrite quantized_time_formula.
  set (k := py_round _).
  pose proof (snap_distance (time h)) as Hs. fold k in Hs.
  unfold grid_step_time.
  set (g := step_duration bpm 4) in *.
  set (base := downbeat_offset + inject_Z k * g) in *.
  assert (Hoff : Qabs (if Z.odd k then (swing / 100 - (1#2)) * g else 0)
                 <= g * (1#2)).
  { destruct (Z.odd k).
    - unfold Qdiv. change (/ 100) with (1#100).
      rewrite Qabs_Qmult, (Qabs_pos g) by lra.
      rewrite (Qmult_comm _ g). apply Qmult_le_l; [exact Hg|].
      apply Qabs_Qle_condition. split; lra.
    - rewrite Qabs_pos by lra. lra. }
  set (off := if Z.odd k then _ else 0) in *.
  assert (E : time h * (1 - strength) + (base + off) * strength - time h
              == strength * (off - (time h - base))) by ring.
  rewrite E, Qabs_scale by lra.
  apply Qmult_le_nonneg_l; [lra|].
  apply Qabs_Qle_condition in Hs, Hoff. apply Qabs_Qle_condition.
  split; lra.
Qed.
End Displacement.

(** X6. With a positive tempo, swing in [0, 100] and strength in [0, 1],
    the quantizer moves no hit by more than [strength] grid steps of
    [60 / bpm / 4]; in particular strength 0 returns every time as it
    was. *)
Theorem quantize_to_grid_displacement
    (hits : list DrumHit) (bpm downbeat_offset swing strength : Q) outs gps :
  0 < bpm -> 0 <= swing <= 100 -> 0 <= strength <= 1 ->
  quantize_to_grid hits bpm downbeat_offset swing strength 4
  = Some (outs, gps) ->
  Forall2 (fun h o =>
             Qabs (time o - time h) <= strength * step_duration bpm 4 /\
             (strength == 0 -> time o == time h))
          hits outs.
Proof.
  intros Hb Hsw Hst H.
  apply quantize_to_grid_inv in H. destruct H as (_ & _ & -> & _).
  induction hits as [|h hs IH]; cbn [map]; constructor; [|exact IH].
  pose proof (quantize_hit_displacement downbeat_offset Hb Hsw Hst h) as Hd.
  split; [exact Hd|].
  intro H0.
  assert (Hz : strength * step_duration bpm 4 == 0 * step_duration bpm 4)
    by (apply Qmult_comp; [exact H0 | reflexivity]).
  set (g := step_duration bpm 4) in *.
  set (a := time (fst (quantize_with bpm downbeat_offset swing strength 4 h)))
    in *.
  apply Qabs_Qle_condition in Hd. clear IH. lra.
Qed.

Lemma quantize_to_grid_displacement_witness :
  exists outs gps,
    quantize_to_grid [mkDrumHit (1#10) "hihat" (7#10) None] 120 0 50 (1#2) 4
    = Some (outs, gps)
    /\ Forall2 (fun h o =>
                  Qabs (time o - time h) <= (1#2) * step_duration 120 4 /\
                  ((1#2) == 0 -> time o == time h))
               [mkDrumHit (1#10) "hihat" (7#10) None] outs.
Proof.
  eexists. eexists. split; [vm_compute; reflexivity|].
  eapply (@quantize_to_grid_displacement
            [mkDrumHit (1#10) "hihat" (7#10) None] 120 0 50 (1#2));
    [reflexivity | split; discriminate | split; discriminate
    | vm_compute; reflexivity].
Defined.

(** ** Grid addresses *)

Lemma py_mod_range (x y : Q) : 0 < y -> 0 <= py_mod x y /\ py_mod x y < y.
Proof.
  intro Hy. unfold py_mod.
  pose proof (Qfloor_le (x / y)) as H1.
  pose proof (Qlt_floor (x / y)) as H2. rewrite inject_Z_succ in H2.
  set (f := inject_Z (Qfloor (x / y))) in *.
  assert (E : x == y * (x / y)) by (field; apply Qpos_neq0; exact Hy).
  assert (A : y * f <= y * (x / y)) by (apply Qmult_le_nonneg_l; lra).
  assert (B : y * (x / y) < y * (f + 1))
    by (apply Qmult_lt_l; [exact Hy | exact H2]).
  split; lra.
Qed.

Lemma py_int_range (x : Q) (n : Z) :
  0 <= x -> x < inject_Z n -> (0 <= py_int x < n)%Z.
Proof.
  intros H0 Hn. unfold py_int.
  assert (E : Qle_bool 0 x = true) by (apply Qle_bool_iff; exact H0).
  rewrite E.
  pose proof (Qfloor_le x) as H1.
  pose proof (Qfloor_resp_le _ _ H0) as H2.
  change (Qfloor 0) with 0%Z in H2.
  split; [exact H2|].
  rewrite Zlt_Qlt. lra.
Qed.

Lemma py_int_inject_Z (z : Z) : py_int (inject_Z z) = z.
Proof.
  unfold py_int. destruct (Qle_bool 0 (inject_Z z)).
  - apply Qfloor_Z.
  - apply Qceiling_Z.
Qed.

Lemma Qdiv_nonneg (x y : Q) : 0 <= x -> 0 < y -> 0 <= x / y.
Proof.
  intros Hx Hy. unfold Qdiv.
  apply Qmult_le_0_compat; [exact Hx|].
  apply Qlt_le_weak, Qinv_lt_0_compat, Hy.
Qed.

Lemma Qdiv_neg (x y : Q) : x < 0 -> 0 < y -> x / y < 0.
Proof.
  intros Hx Hy.
  assert (E : x == y * (x / y)) by (field; apply Qpos_neq0; exact Hy).
  destruct (Qlt_le_dec (x / y) 0) as [H|H]; [exact H|].
  assert (0 <= y * (x / y)) by (apply Qmult_le_0_compat; lra).
  lra.
Qed.

Lemma beat_duration_pos (bpm : Q) : 0 < bpm -> 0 < 60 / bpm.
Proof.
  intro Hb. unfold Qdiv.
  apply Qmult_lt_0_compat; [reflexivity|].
  apply Qinv_lt_0_compat, Hb.
Qed.

Section GridAddress.
Variables (bpm downbeat_offset swing strength : Q) (subdivision : Z).
Hypothesis bpm_pos : 0 < bpm.
Hypothesis subdivision_pos : (0 < subdivision)%Z.

Lemma grid_address_after (h : DrumHit) :
  downbeat_offset <= time h ->
  let gp := snd (quantize_with bpm downbeat_offset swing strength
                               subdivision h) in
  (1 <= bar gp)%Z /\ (1 <= beat gp <= 4)%Z /\
  (1 <= subbeat gp <= subdivision)%Z.
Proof.
  intro Hh. cbv zeta.
  unfold quantize_with, quantize_hit. cbv zeta. cbn [snd bar beat subbeat].
  pose proof (beat_duration_pos bpm_pos) as Hbd.
  set (tb := (time h - downbeat_offset) / (60 / bpm)).
  assert (Htb : 0 <= tb) by (apply Qdiv_nonneg; [lra | exact Hbd]).
  split; [|split].
  - unfold py_floordiv. rewrite py_int_inject_Z.
    assert (H4 : 0 <= tb / 4) by (apply Qdiv_nonneg; [exact Htb | reflexivity]).
    pose proof (Qfloor_resp_le _ _ H4) as H.
    change (Qfloor 0) with 0%Z in H. lia.
  - destruct (@py_mod_range tb 4 ltac:(reflexivity)) as [A B].
    pose proof (@py_int_range (py_mod tb 4) 4 A B). lia.
  - destruct (@py_mod_range tb 1 ltac:(reflexivity)) as [A B].
    assert (Hs : 0 < inject_Z subdivision)
      by (apply inject_Z_pos; exact subdivision_pos).
    set (m := py_mod tb 1) in *.
    assert (A' : 0 <= m * inject_Z subdivision)
      by (apply Qmult_le_0_compat; lra).
    assert (B' : m * inject_Z subdivision < inject_Z subdivision).
    { rewrite <- (Qmult_1_l (inject_Z subdivision)) at 2.
      apply Qmult_lt_compat_r; [exact Hs | exact B]. }
    pose proof (py_int_range A' B'). lia.
Qed.

Lemma grid_address_before (h : DrumHit) :
  time h < downbeat_offset ->
  (bar (snd (quantize_with bpm downbeat_offset swing strength
                           subdivision h)) <= 0)%Z.
Proof.
  intro Hh.
  unfold quantize_with, quantize_hit. cbv zeta. cbn [snd bar].
  pose proof (beat_duration_pos bpm_pos) as Hbd.
  set (tb := (time h - downbeat_offset) / (60 / bpm)).
  assert (Htb : tb < 0) by (apply Qdiv_neg; [lra | exact Hbd]).
  unfold py_floordiv. rewrite py_int_inject_Z.
  assert (H4 : tb / 4 < 0) by (apply Qdiv_neg; [exact Htb | reflexivity]).
  pose proof (Qfloor_le (tb / 4)) as H.
  assert (Hf : inject_Z (Qfloor (tb / 4)) < inject_Z 0)
    by (change (inject_Z 0) with 0; lra).
  rewrite <- Zlt_Qlt in Hf. lia.
Qed.
End GridAddress.

(** X7. The grid address of a hit.  For a positive tempo and a positive
    subdivision, every entry of [grid_positions] records the time of its
    hit as [original_time] and the time of the quantized hit as
    [quantized_time]; a hit at or after the downbeat gets a bar number of
    at least 1, a beat in 1..4 and a subbeat in 1..subdivision, and a hit
    before the downbeat gets a bar number of 0 or less. *)
Theorem quantize_to_grid_addresses
    (hits : list DrumHit) (bpm downbeat_offset swing strength : Q)
    (subdivision : Z) outs gps :
  0 < bpm -> (0 < subdivision)%Z ->
  quantize_to_grid hits bpm downbeat_offset swing strength subdivision
  = Some (outs, gps) ->
  map original_time gps = map time hits /\
  map quantized_time gps = map time outs /\
  Forall2 (fun h gp =>
             (downbeat_offset <= time h ->
              (1 <= bar gp)%Z /\ (1 <= beat gp <= 4)%Z /\
              (1 <= subbeat gp <= subdivision)%Z) /\
             (time h < downbeat_offset -> (bar gp <= 0)%Z))
          hits gps.
Proof.
  intros Hb Hs H.
  apply quantize_to_grid_inv in H. destruct H as (_ & _ & -> & ->).
  rewrite !map_map. repeat split.
  - induction hits as [|h hs IH]; cbn [map]; constructor; [|exact IH].
    split.
    + intro Hh. exact (grid_address_after swing strength Hb Hs h Hh).
    + intro Hh. exact (grid_address_before swing strength subdivision Hb h Hh).
Qed.

Lemma quantize_to_grid_addresses_witness :
  exists outs gps,
    quantize_to_grid [mkDrumHit (27#10) "snare" (7#10) None;
                      mkDrumHit (1#10) "kick" (7#10) None]
                     120 (1#2) 50 1 4
    = Some (outs, gps)
    /\ map bar gps = [2%Z; 0%Z]
    /\ map original_time gps = [27#10; 1#10]
    /\ Forall2 (fun h gp =>
                  ((1#2) <= time h ->
                   (1 <= bar gp)%Z /\ (1 <= beat gp <= 4)%Z /\
                   (1 <= subbeat gp <= 4)%Z) /\
                  (time h < (1#2) -> (bar gp <= 0)%Z))
               [mkDrumHit (27#10) "snare" (7#10) None;
                mkDrumHit (1#10) "kick" (7#10) None] gps.
Proof.
  eexists. eexists. split; [vm_compute; reflexivity|].
  split; [vm_compute; reflexivity|].
  split; [vm_compute; reflexivity|].
  eapply (@quantize_to_grid_addresses
            [mkDrumHit (27#10) "snare" (7#10) None;
             mkDrumHit (1#10) "kick" (7#10) None] 120 (1#2) 50 1 4);
    [reflexivity | reflexivity | vm_compute; reflexivity].
Defined.

(** ** Genre heuristic *)

Lemma best_key_In (d : list (string * Q)) k v :
  best_key d = Some (k, v) -> In (k, v) d.
Proof.
  revert k v. induction d as [|[k0 v0] d IH]; intros k v; [discriminate|].
  cbn [best_key]. destruct (best_key d) as [[k' v']|].
  - destruct (Qltb v0 v').
    + intro E. right. apply IH. exact E.
    + intro E. left. injection E as -> ->. reflexivity.
  - intro E. left. injection E as -> ->. reflexivity.
Qed.

Lemma best_key_none (d : list (string * Q)) : best_key d = None -> d = [].
Proof.
  destruct d as [|[k v] d]; [reflexivity|].
  cbn [best_key]. destruct (best_key d) as [[k' v']|];
    [destruct (Qltb v v')|]; discriminate.
Qed.

Lemma between_bounds (lo hi x : Q) :
  Qle_bool lo x && Qle_bool x hi = true -> lo <= x <= hi.
Proof.
  intro H. apply andb_true_iff in H. destruct H as [A B].
  apply Qle_bool_iff in A, B. split; assumption.
Qed.

Ltac one_genre E :=
  match type of E with
  | In _ (if ?c then _ else _) =>
      let C := fresh "C" in
      destruct c eqn:C; [|destruct E];
      destruct E as [E|[]]; injection E as <- <-
  end.

(** X8. The result of the genre heuristic.  [detect_genre] returns either
    [(None, 0.0)] or one of its six genre names with a confidence between
    0.5 and 1, and then the tempo lies in the window in which the code
    scores that genre. *)
Theorem detect_genre_result (bpm : Q) (hits : list DrumHit) (swing : Q) :
  detect_genre bpm hits swing = (None, 0) \/
  exists genre conf,
    detect_genre bpm hits swing = (Some genre, conf) /\
    genre_window genre bpm /\ (5#10) <= conf <= 1.
Proof.
  unfold detect_genre. cbv zeta.
  destruct (best_key _) as [[g c]|] eqn:E; [|left; reflexivity].
  destruct (Qltb c (5#10)) eqn:Hc; [left; reflexivity|].
  right. exists g, c. split; [reflexivity|].
  apply Qltb_ge in Hc.
  apply best_key_In in E. rewrite !in_app_iff in E.
  unfold genre_window.
  destruct E as [E|[E|[E|[E|[E|E]]]]]; one_genre E;
    (split; [|split; [exact Hc | apply py_min_le_r]]).
  - left. split; [reflexivity | exact (between_bounds _ _ _ C)].
  - right; left. split; [reflexivity | exact (between_bounds _ _ _ C)].
  - right; right; left. split; [reflexivity|].
    apply orb_true_iff in C.
    destruct C as [C|C]; [left | right]; exact (between_bounds _ _ _ C).
  - do 3 right; left. split; [reflexivity | exact (between_bounds _ _ _ C)].
  - do 4 right; left. split; [reflexivity | exact (between_bounds _ _ _ C)].
  - do 5 right. split; [reflexivity | exact (between_bounds _ _ _ C)].
Qed.

(** ** Pattern filter *)

Section FilteringLoopTotal.
Variable A : Type.
Variable body : option (list A) -> A -> option (list A).
Variable keep : A -> option bool.
Hypothesis body_some :
  forall acc x,
    body (Some acc) x =
    match keep x with
    | None => None
    | Some true => Some (acc ++ [x])
    | Some false => Some acc
    end.

Lemma fold_keeps_total (l : list A) (acc : list A) :
  Forall (fun x => keep x <> None) l ->
  fold_left body l (Some acc)
  = Some (acc ++ filter (fun x => is_kept (keep x)) l).
Proof.
  intro H. revert acc.
  induction H as [|x l Hx Hl IH]; intro acc; cbn [fold_left filter].
  - rewrite app_nil_r. reflexivity.
  - rewrite body_some. destruct (keep x) as [[|]|]; cbn [is_kept].
    + rewrite IH, <- app_assoc. reflexivity.
    + apply IH.
    + contradiction.
Qed.
End FilteringLoopTotal.

Lemma Qfloor_unique (x : Q) (n : Z) :
  inject_Z n <= x -> x < inject_Z n + 1 -> Qfloor x = n.
Proof.
  intros H1 H2.
  pose proof (Qfloor_le x) as A. pose proof (Qlt_floor x) as B.
  rewrite inject_Z_succ in B.
  assert (C : inject_Z (Qfloor x) < inject_Z (n + 1))
    by (rewrite inject_Z_succ; lra).
  assert (D : inject_Z n < inject_Z (Qfloor x + 1))
    by (rewrite inject_Z_succ; lra).
  rewrite <- Zlt_Qlt in C, D. lia.
Qed.

(** The bar a time lies in: [n] bars and a rest [r] inside the bar. *)
Lemma py_mod_bar (bar r : Q) (n : Z) :
  0 < bar -> 0 <= r -> r < bar ->
  py_mod (inject_Z n * bar + r) bar == r.
Proof.
  intros Hb H0 H1. unfold py_mod.
  assert (E : (inject_Z n * bar + r) / bar == inject_Z n + r / bar)
    by (field; apply Qpos_neq0; exact Hb).
  assert (Hr : r == bar * (r / bar)) by (field; apply Qpos_neq0; exact Hb).
  assert (A : 0 <= r / bar) by (apply Qdiv_nonneg; assumption).
  assert (B : r / bar < 1).
  { destruct (Qlt_le_dec (r / bar) 1) as [H|H]; [exact H|].
    assert (bar * 1 <= bar * (r / bar))
      by (apply Qmult_le_nonneg_l; [lra | exact H]).
    lra. }
  rewrite (Qfloor_comp _ _ E).
  rewrite (@Qfloor_unique (inject_Z n + r / bar) n) by lra.
  ring.
Qed.

Lemma bar_duration_pos (bpm : Q) (time_signature : Z) :
  0 < bpm -> (0 < time_signature)%Z ->
  0 < 60 / bpm * inject_Z time_signature.
Proof.
  intros Hb Ht. apply Qmult_lt_0_compat.
  - apply beat_duration_pos, Hb.
  - apply inject_Z_pos, Ht.
Qed.

Lemma distance_sec_scaled (m p beat : Q) :
  0 < beat -> Qabs (m / beat - p) * beat == Qabs (m - p * beat).
Proof.
  intro Hb.
  assert (E : m - p * beat == (m / beat - p) * beat)
    by (field; apply Qpos_neq0; exact Hb).
  rewrite E, Qabs_Qmult, (Qabs_pos beat) by lra. reflexivity.
Qed.

Section PatternFilter.
Variables (bpm downbeat_time : Q) (time_signature : Z).
Variables (genre : option string) (tolerance_ms : Q).

Lemma pattern_body_keep (acc : list DrumHit) (x : DrumHit) :
  (fun (acc : option (list DrumHit)) (hit : DrumHit) =>
     filtered <- acc ;;
     let drum_type := type hit in
     let hit_time := time hit in
     let positions_dict :=
       match assoc drum_type EXPECTED_POSITIONS with
       | Some d => d
       | None => [("default", half_beats)]
       end in
     let default_positions :=
       match assoc "default" positions_dict with
       | Some p => p
       | None => []
       end in
     let expected_positions :=
       match genre with
       | Some g =>
           match assoc g positions_dict with
           | Some p => p
           | None => default_positions
           end
       | None => default_positions
       end in
     let time_from_downbeat := hit_time - downbeat_time in
     if Qltb time_from_downbeat 0
     then
       match assoc drum_type EXPECTED_POSITIONS with
       | Some _ => Some filtered
       | None => None
       end
     else
       m <- py_fmod time_from_downbeat
                    (60 / bpm * inject_Z time_signature) ;;
       let bar_position := m / (60 / bpm) in
       let is_expected :=
         existsb
           (fun expected_pos =>
              let distance := Qabs (bar_position - expected_pos) in
              let distance_sec := distance * (60 / bpm) in
              Qle_bool distance_sec (tolerance_ms / 1000))
           expected_positions in
       if is_expected then Some (filtered ++ [hit]) else Some filtered)
    (Some acc) x
  = match pattern_keep_with bpm downbeat_time time_signature genre
                            tolerance_ms x with
    | None => None
    | Some true => Some (acc ++ [x])
    | Some false => Some acc
    end.
Proof.
  unfold pattern_keep_with, pattern_keep. cbn [bind].
  destruct (Qltb (time x - downbeat_time) 0).
  - destruct (assoc (type x) EXPECTED_POSITIONS); reflexivity.
  - destruct (py_fmod _ _); cbn [bind]; [|reflexivity].
    fold (expected_positions_for (type x) genre).
    destruct (existsb _ _); reflexivity.
Qed.

Lemma filter_hits_by_pattern_keeps (hits out : list DrumHit) :
  filter_hits_by_pattern hits bpm downbeat_time time_signature genre
                         tolerance_ms = Some out ->
  out = filter (fun h => is_kept (pattern_keep_with bpm downbeat_time
                                    time_signature genre tolerance_ms h))
               hits.
Proof.
  unfold filter_hits_by_pattern.
  destruct (negb (nonempty hits)) eqn:E.
  { destruct hits; [|discriminate]. intro H. injection H as <-.
    reflexivity. }
  destruct (py_div 60 bpm) as [beat_duration|] eqn:D; [|discriminate].
  apply py_div_inv in D. destruct D as [_ ->].
  cbn [bind]. intro H.
  refine (fold_keeps _ _ _ pattern_body_keep hits [] H).
  reflexivity.
Qed.

Lemma filter_hits_by_pattern_returns (hits : list DrumHit) :
  (hits <> [] -> ~ bpm == 0) ->
  Forall (fun h => pattern_keep_with bpm downbeat_time time_signature genre
                                     tolerance_ms h <> None) hits ->
  filter_hits_by_pattern hits bpm downbeat_time time_signature genre
                         tolerance_ms
  = Some (filter (fun h => is_kept (pattern_keep_with bpm downbeat_time
                                      time_signature genre tolerance_ms h))
                 hits).
Proof.
  intros Hb Hk. unfold filter_hits_by_pattern.
  destruct hits as [|h0 hs]; [reflexivity|]. cbn [nonempty negb].
  rewrite py_div_some by (apply Hb; discriminate).
  cbn [bind].
  exact (fold_keeps_total _ _ pattern_body_keep [] Hk).
Qed.

Lemma filter_hits_by_pattern_tempo (hits out : list DrumHit) :
  filter_hits_by_pattern hits bpm downbeat_time time_signature genre
                         tolerance_ms = Some out ->
  hits <> [] -> ~ bpm == 0.
Proof.
  unfold filter_hits_by_pattern. intros H Hne.
  destruct hits as [|h0 hs]; [contradiction|]. cbn [nonempty negb] in H.
  destruct (py_div 60 bpm) as [bd|] eqn:D; [|discriminate].
  apply py_div_inv in D. tauto.
Qed.
End PatternFilter.

Lemma filter_idem (A : Type) (f : A -> bool) (l : list A) :
  filter f (filter f l) = filter f l.
Proof.
  induction l as [|x l IH]; [reflexivity|]. cbn [filter].
  destruct (f x) eqn:E; [cbn [filter]; rewrite E, IH|]; auto.
Qed.

(** X9. The pattern filter is idempotent: filtering the list it returned
    again, with the same arguments, returns that list. *)
Theorem filter_hits_by_pattern_idempotent
    (hits : list DrumHit) (bpm downbeat_time : Q) (time_signature : Z)
    (genre : option string) (tolerance_ms : Q) (out : list DrumHit) :
  filter_hits_by_pattern hits bpm downbeat_time time_signature genre
                         tolerance_ms = Some out ->
  filter_hits_by_pattern out bpm downbeat_time time_signature genre
                         tolerance_ms = Some out.
Proof.
  intro H.
  pose proof (@filter_hits_by_pattern_tempo _ _ _ _ _ _ _ H) as Hb.
  apply filter_hits_by_pattern_keeps in H.
  set (keep := fun h => is_kept (pattern_keep_with bpm downbeat_time
                                   time_signature genre tolerance_ms h))
    in *.
  rewrite filter_hits_by_pattern_returns.
  - fold keep. rewrite H at 2. rewrite H, filter_idem. reflexivity.
  - intro Hne. apply Hb. intros ->. apply Hne. rewrite H. reflexivity.
  - apply Forall_forall. intros h Hh. rewrite H in Hh.
    apply filter_In in Hh. destruct Hh as [_ Hh]. unfold keep in Hh.
    destruct (pattern_keep_with _ _ _ _ _ h); [discriminate|].
    discriminate.
Qed.

Lemma filter_hits_by_pattern_idempotent_witness :
  exists out,
    filter_hits_by_pattern
      [mkDrumHit (1#2) "kick" (8#10) None;
       mkDrumHit (3#4) "kick" (8#10) None;
       mkDrumHit 1 "snare" (8#10) None] 120 (1#2) 4 None 80
    = Some out
    /\ length out = 2%nat
    /\ filter_hits_by_pattern out 120 (1#2) 4 None 80 = Some out.
Proof.
  eexists. split; [vm_compute; reflexivity|].
  split; [reflexivity|].
  eapply (@filter_hits_by_pattern_idempotent
            [mkDrumHit (1#2) "kick" (8#10) None;
             mkDrumHit (3#4) "kick" (8#10) None;
             mkDrumHit 1 "snare" (8#10) None] 120 (1#2) 4 None 80).
  vm_compute. reflexivity.
Defined.

Section PatternDecision.
Variables (bpm downbeat_time : Q) (time_signature : Z).
Variables (genre : option string) (tolerance_ms : Q).
Hypothesis bpm_pos : 0 < bpm.
Hypothesis signature_pos : (0 < time_signature)%Z.

Lemma py_fmod_bar (x : Q) :
  py_fmod x (60 / bpm * inject_Z time_signature)
  = Some (py_mod x (60 / bpm * inject_Z time_signature)).
Proof.
  unfold py_fmod.
  destruct (Qeq_bool _ 0) eqn:E; [|reflexivity].
  apply Qeq_bool_iff in E.
  pose proof (bar_duration_pos bpm_pos signature_pos) as H. lra.
Qed.

(** The decision for a hit at or after the downbeat. *)
Lemma pattern_keep_after_eq (h : DrumHit) :
  downbeat_time <= time h ->
  pattern_keep_with bpm downbeat_time time_signature genre tolerance_ms h
  = Some
      (existsb
         (fun p =>
            Qle_bool
              (Qabs (py_mod (time h - downbeat_time)
                            (60 / bpm * inject_Z time_signature)
                     / (60 / bpm) - p) * (60 / bpm))
              (tolerance_ms / 1000))
         (expected_positions_for (type h) genre)).
Proof.
  intro Hh. unfold pattern_keep_with, pattern_keep.
  assert (C : Qltb (time h - downbeat_time) 0 = false)
    by (apply Qltb_ge; lra).
  rewrite C, py_fmod_bar. reflexivity.
Qed.

Lemma pattern_keep_after (h : DrumHit) :
  downbeat_time <= time h ->
  (is_kept (pattern_keep_with bpm downbeat_time time_signature genre
                              tolerance_ms h) = true <->
   exists p,
     In p (expected_positions_for (type h) genre) /\
     Qabs (py_mod (time h - downbeat_time)
                  (60 / bpm * inject_Z time_signature)
           - p * (60 / bpm))
     <= tolerance_ms / 1000).
Proof.
  intro Hh. rewrite (pattern_keep_after_eq h Hh).
  pose proof (beat_duration_pos bpm_pos) as Hbeat.
  split.
  - intro K.
    assert (K' : existsb
                   (fun p =>
                      Qle_bool
                        (Qabs (py_mod (time h - downbeat_time)
                                 (60 / bpm * inject_Z time_signature)
                               / (60 / bpm) - p) * (60 / bpm))
                        (tolerance_ms / 1000))
                   (expected_positions_for (type h) genre) = true).
    { destruct (existsb _ _); [reflexivity | discriminate K]. }
    apply existsb_exists in K'. destruct K' as (p & Hp & Hd).
    exists p. split; [exact Hp|].
    apply Qle_bool_iff in Hd.
    rewrite (distance_sec_scaled _ _ Hbeat) in Hd. exact Hd.
  - intros (p & Hp & Hd).
    assert (K' : existsb
                   (fun p =>
                      Qle_bool
                        (Qabs (py_mod (time h - downbeat_time)
                                 (60 / bpm * inject_Z time_signature)
                               / (60 / bpm) - p) * (60 / bpm))
                        (tolerance_ms / 1000))
                   (expected_positions_for (type h) genre) = true).
    { apply existsb_exists. exists p. split; [exact Hp|].
      apply Qle_bool_iff.
      rewrite (distance_sec_scaled _ _ Hbeat). exact Hd. }
    rewrite K'. reflexivity.
Qed.

Lemma pattern_keep_before (h : DrumHit) :
  time h < downbeat_time ->
  is_kept (pattern_keep_with bpm downbeat_time time_signature genre
                             tolerance_ms h) = false.
Proof.
  intro Hh. unfold pattern_keep_with, pattern_keep.
  assert (C : Qltb (time h - downbeat_time) 0 = true)
    by (apply Qltb_lt; lra).
  rewrite C. destruct (assoc _ _); reflexivity.
Qed.

End PatternDecision.

(** X10. What the pattern filter keeps.  For a positive tempo and time
    signature, every hit of the returned list is at or after the
    downbeat and lies within the tolerance of a pattern position of its
    drum type and genre in some bar [n >= 0] counted from the downbeat. *)
Theorem filter_hits_by_pattern_near_pattern
    (hits : list DrumHit) (bpm downbeat_time : Q) (time_signature : Z)
    (genre : option string) (tolerance_ms : Q) (out : list DrumHit) :
  0 < bpm -> (0 < time_signature)%Z ->
  filter_hits_by_pattern hits bpm downbeat_time time_signature genre
                         tolerance_ms = Some out ->
  Forall (fun h =>
            downbeat_time <= time h /\
            exists n p,
              (0 <= n)%Z /\
              In p (expected_positions_for (type h) genre) /\
              Qabs (time h
                    - pattern_time bpm downbeat_time time_signature n p)
              <= tolerance_ms / 1000)
         out.
Proof.
  intros Hb Hs H. apply filter_hits_by_pattern_keeps in H. subst out.
  apply Forall_forall. intros h Hh. apply filter_In in Hh.
  destruct Hh as [_ Hk].
  destruct (Qlt_le_dec (time h) downbeat_time) as [Hlt|Hge].
  { rewrite (@pattern_keep_before bpm downbeat_time time_signature genre
               tolerance_ms h Hlt) in Hk.
    discriminate. }
  split; [exact Hge|].
  destruct (proj1 (pattern_keep_after genre tolerance_ms Hb Hs h Hge) Hk)
    as (p & Hp & Hd).
  pose proof (bar_duration_pos Hb Hs) as Hbar.
  set (bar_ := 60 / bpm * inject_Z time_signature) in *.
  exists (Qfloor ((time h - downbeat_time) / bar_)), p.
  split; [|split; [exact Hp|]].
  - assert (H0 : 0 <= (time h - downbeat_time) / bar_)
      by (apply Qdiv_nonneg; [lra | exact Hbar]).
    pose proof (Qfloor_resp_le _ _ H0) as Hf.
    change (Qfloor 0) with 0%Z in Hf. exact Hf.
  - unfold pattern_time. fold bar_. unfold py_mod in Hd.
    set (f := inject_Z (Qfloor ((time h - downbeat_time) / bar_))) in *.
    set (beat_ := 60 / bpm) in *.
    assert (E : time h - (downbeat_time + f * bar_ + p * beat_)
                == time h - downbeat_time - bar_ * f - p * beat_) by ring.
    rewrite E. exact Hd.
Qed.

Lemma filter_hits_by_pattern_near_pattern_witness :
  exists out,
    filter_hits_by_pattern
      [mkDrumHit (1#4) "kick" (8#10) None;
       mkDrumHit (51#20) "kick" (8#10) None;
       mkDrumHit (3#4) "kick" (8#10) None] 120 (1#2) 4 None 80
    = Some out
    /\ length out = 1%nat
    /\ Forall (fun h =>
                 (1#2) <= time h /\
                 exists n p,
                   (0 <= n)%Z /\
                   In p (expected_positions_for (type h) None) /\
                   Qabs (time h - pattern_time 120 (1#2) 4 n p)
                   <= 80 / 1000)
              out.
Proof.
  eexists. split; [vm_compute; reflexivity|].
  split; [reflexivity|].
  eapply (@filter_hits_by_pattern_near_pattern
            [mkDrumHit (1#4) "kick" (8#10) None;
             mkDrumHit (51#20) "kick" (8#10) None;
             mkDrumHit (3#4) "kick" (8#10) None] 120 (1#2) 4 None 80);
    [reflexivity | reflexivity | vm_compute; reflexivity].
Defined.

(** Within the rounding margin of the tolerance the float comparison
    can go either way: at 100 BPM and downbeat 0, a snare at 0.7 s is
    0.1 s after beat 1, which the exact comparison with a tolerance of
    100 ms accepts, while the binary64 [distance_sec] is
    0.10000000000000005 and the source drops the hit. *)
Example distance_sec_tie_b64 :
  pattern_keep_with 100 0 4 None 100 (mkDrumHit (7#10) "snare" (8#10) None)
  = Some true
  /\ exists d,
       distance_sec_b64 100 0 4 0.7 1 = Some d
       /\ PrimFloat.leb d (100 / 1000) = false.
Proof.
  split; [vm_compute; reflexivity|].
  eexists. split; vm_compute; reflexivity.
Qed.

(** X11. What the pattern filter cannot drop.  For a positive tempo and
    time signature, a hit of the input whose time is a pattern position
    of its drum type and genre in a bar [n >= 0], displaced by [d], is
    in the returned list when [|d|] is below the tolerance by the
    rounding margin or more and the displaced position [p * beat + d]
    lies inside the bar, at least the rounding margin away from both
    bar lines. *)
Theorem filter_hits_by_pattern_keeps_pattern
    (hits : list DrumHit) (bpm downbeat_time : Q) (time_signature : Z)
    (genre : option string) (tolerance_ms : Q) (out : list DrumHit)
    (h : DrumHit) (n : Z) (p d : Q) :
  0 < bpm -> (0 < time_signature)%Z ->
  filter_hits_by_pattern hits bpm downbeat_time time_signature genre
                         tolerance_ms = Some out ->
  In h hits ->
  (0 <= n)%Z ->
  In p (expected_positions_for (type h) genre) ->
  time h == pattern_time bpm downbeat_time time_signature n p + d ->
  Qabs d + rounding_margin <= tolerance_ms / 1000 ->
  rounding_margin <= p * (60 / bpm) + d ->
  p * (60 / bpm) + d + rounding_margin
  <= 60 / bpm * inject_Z time_signature ->
  In h out.
Proof.
  intros Hb Hs H Hin Hn Hp Ht Hd0 Hlo0 Hhi0.
  assert (Hm : 0 < rounding_margin) by reflexivity.
  assert (Hd : Qabs d <= tolerance_ms / 1000).
  { set (tol := tolerance_ms / 1000) in *. set (ad := Qabs d) in *. lra. }
  assert (Hlo : 0 <= p * (60 / bpm) + d).
  { set (x := p * (60 / bpm) + d) in *. lra. }
  assert (Hhi : p * (60 / bpm) + d < 60 / bpm * inject_Z time_signature).
  { set (x := p * (60 / bpm) + d) in *.
    set (b := 60 / bpm * inject_Z time_signature) in *. lra. }
  clear Hd0 Hlo0 Hhi0 Hm.
  apply filter_hits_by_pattern_keeps in H. subst out.
  apply filter_In. split; [exact Hin|].
  pose proof (bar_duration_pos Hb Hs) as Hbar.
  pose proof (inject_Z_nonneg Hn) as Hn'.
  unfold pattern_time in Ht.
  set (bar_ := 60 / bpm * inject_Z time_signature) in *.
  set (beat_ := 60 / bpm) in *.
  assert (Hnb : 0 <= inject_Z n * bar_)
    by (apply Qmult_le_0_compat; lra).
  assert (Hge : downbeat_time <= time h) by lra.
  apply (proj2 (pattern_keep_after genre tolerance_ms Hb Hs h Hge)).
  exists p. split; [exact Hp|]. fold bar_ beat_.
  assert (E : time h - downbeat_time == inject_Z n * bar_ + (p * beat_ + d))
    by lra.
  assert (M : py_mod (time h - downbeat_time) bar_ == p * beat_ + d).
  { unfold py_mod. rewrite (Qfloor_comp _ _ (Qdiv_comp _ _ E _ _ (Qeq_refl bar_))).
    rewrite E. apply (py_mod_bar n Hbar Hlo Hhi). }
  change (beat_ * inject_Z time_signature) with bar_. rewrite M.
  assert (E' : p * beat_ + d - p * beat_ == d) by ring.
  rewrite E'. exact Hd.
Qed.

Lemma filter_hits_by_pattern_keeps_pattern_witness :
  exists out,
    filter_hits_by_pattern
      [mkDrumHit (1#4) "kick" (8#10) None;
       mkDrumHit (71#20) "kick" (8#10) None] 120 (1#2) 4 None 80
    = Some out
    /\ In (mkDrumHit (71#20) "kick" (8#10) None) out.
Proof.
  eexists. split; [vm_compute; reflexivity|].
  eapply (@filter_hits_by_pattern_keeps_pattern
            [mkDrumHit (1#4) "kick" (8#10) None;
             mkDrumHit (71#20) "kick" (8#10) None] 120 (1#2) 4 None 80 _
            (mkDrumHit (71#20) "kick" (8#10) None) 1 2 (1#20));
    [reflexivity | reflexivity | vm_compute; reflexivity
    | right; left; reflexivity | discriminate
    | right; left; reflexivity | reflexivity | discriminate
    | discriminate | discriminate].
Defined.

Lemma assoc_In (V : Type) (k : string) (d : list (string * V)) (v : V) :
  assoc k d = Some v -> In (k, v) d.
Proof.
  induction d as [|[k' v'] d IH]; cbn [assoc]; [discriminate|].
  destruct (String.eqb k k') eqn:E.
  - intro H. injection H as <-. apply String.eqb_eq in E. subst k'.
    left. reflexivity.
  - intro H. right. apply IH, H.
Qed.




(** ** Beat-aligned detection *)

Lemma fold_left_inv (A B : Type) (f : A -> B -> A) (Inv : A -> Prop)
      (l : list B) (a : A) :
  Inv a -> (forall a x, In x l -> Inv a -> Inv (f a x)) ->
  Inv (fold_left f l a).
Proof.
  revert a. induction l as [|x l IH]; intros a Ha Hf; cbn [fold_left].
  - exact Ha.
  - apply IH.
    + apply Hf; [left; reflexivity | exact Ha].
    + intros a' x' Hx. apply Hf. right. exact Hx.
Qed.

Lemma in_enumerate (l : list Q) (k : nat) (i : nat) (t : Q) :
  In (i, t) (combine (seq k (length l)) l) ->
  (k <= i)%nat /\ (i - k < length l)%nat /\ nth (i - k) l 0 = t.
Proof.
  revert k. induction l as [|x l IH]; intros k H; cbn in H; [contradiction|].
  destruct H as [H|H].
  - injection H as <- <-. rewrite Nat.sub_diag. cbn. repeat split; lia.
  - apply IH in H. destruct H as (A & B & C).
    replace (i - k)%nat with (S (i - S k)) by lia. cbn [nth length].
    repeat split; [lia | lia | exact C].
Qed.

Lemma sorted_set_In (y : Q) (l : list Q) : In y (sorted_set l) -> In y l.
Proof.
  induction l as [|x l IH]; cbn [sorted_set fold_right]; [tauto|].
  intro H. apply insert_set_In in H.
  destruct H as [H|H]; [left; symmetry; exact H | right; apply IH, H].
Qed.

Lemma sorted_set_Forall (P : Q -> Prop) (l : list Q) :
  Forall P l -> Forall P (sorted_set l).
Proof.
  intro H. apply Forall_forall. intros y Hy. apply sorted_set_In in Hy.
  rewrite Forall_forall in H. apply H, Hy.
Qed.

Lemma Forall_snoc (A : Type) (P : A -> Prop) (l : list A) (x : A) :
  Forall P l -> P x -> Forall P (l ++ [x]).
Proof.
  intros Hl Hx. apply Forall_app. split; [exact Hl|].
  constructor; [exact Hx | constructor].
Qed.

Lemma kick_position_even (q : Z) (idx : nat) :
  Z_in (q * 4 + Z.of_nat idx mod 4) [0; 8; 4; 12; 2; 6; 10; 14]%Z = true ->
  Nat.even idx = true.
Proof.
  intro H.
  assert (E : ((q * 4 + Z.of_nat idx mod 4) mod 2 = 0)%Z).
  { unfold Z_in in H. cbn [existsb] in H.
    repeat (apply orb_true_iff in H; destruct H as [H|H]);
      try discriminate H; apply Z.eqb_eq in H; rewrite H; reflexivity. }
  rewrite <- Nat.negb_odd. apply negb_true_iff.
  destruct (Nat.odd idx) eqn:O; [|reflexivity].
  apply Nat.odd_spec in O. destruct O as [m ->].
  exfalso. revert E.
  replace (Z.of_nat (2 * m + 1)) with (2 * Z.of_nat m + 1)%Z by lia.
  intro E. pose proof (Z.mod_pos_bound (2 * Z.of_nat m + 1) 4 ltac:(lia)).
  Z.div_mod_to_equations. lia.
Qed.

Lemma kick_position_cases (q : Z) (idx : nat) :
  Z_in (q * 4 + Z.of_nat idx mod 4) [0; 8]%Z = true \/
  Z_in (q * 4 + Z.of_nat idx mod 4) [4; 12]%Z = true \/
  Z_in (q * 4 + Z.of_nat idx mod 4) [2; 6; 10; 14]%Z = true ->
  Nat.even idx = true.
Proof.
  intro H. apply (@kick_position_even q). unfold Z_in in *.
  change [0; 8; 4; 12; 2; 6; 10; 14]%Z
    with ([0; 8] ++ [4; 12] ++ [2; 6; 10; 14])%Z.
  rewrite !existsb_app, !orb_true_iff. exact H.
Qed.

Section BeatAlignedFacts.
Context {AU : Audio}.

Lemma beat_aligned_bandpass_returns
      (data : Signal) (lowcut highcut : Q) (sr : Z) :
  sr <> 0%Z ->
  exists s, BeatAligned.bandpass_filter data lowcut highcut (inject_Z sr) 4
            = Some s.
Proof.
  intro Hsr. unfold BeatAligned.bandpass_filter. cbv zeta.
  assert (Hn : ~ (1#2) * inject_Z sr == 0).
  { intro E. apply Hsr.
    assert (E' : inject_Z sr == 0) by lra.
    unfold Qeq in E'. cbn in E'. lia. }
  rewrite !py_div_some by exact Hn. cbn [bind].
  destruct (Qgeb _ _); eexists; reflexivity.
Qed.

Lemma beat_aligned_bandpass_raises
      (data : Signal) (lowcut highcut : Q) :
  BeatAligned.bandpass_filter data lowcut highcut (inject_Z 0) 4 = None.
Proof. reflexivity. Qed.

(** X13. When the beat-aligned detector raises.  The detector raises
    exactly when the sample rate is 0 (the band filter divides by the
    Nyquist frequency) or the time signature is 0 and there is at least
    one beat ([i % time_signature]); otherwise it returns a result. *)
Theorem detect_drums_beat_aligned_raises
    (y : Signal) (sr : Z) (beats : list Q) (time_signature : Z) :
  detect_drums_beat_aligned y sr beats time_signature = None
  <-> sr = 0%Z \/ (time_signature = 0%Z /\ beats <> []).
Proof.
  destruct (Z.eq_dec sr 0) as [->|Hsr].
  { split; [intros _; left; reflexivity | intros _; reflexivity]. }
  unfold detect_drums_beat_aligned. cbv zeta.
  destruct (beat_aligned_bandpass_returns
              (apply_hpss_preprocessing y sr) 20 300 Hsr) as [l ->].
  destruct (beat_aligned_bandpass_returns
              (apply_hpss_preprocessing y sr) 150 2000 Hsr) as [m ->].
  destruct (beat_aligned_bandpass_returns
              (apply_hpss_preprocessing y sr) 5000
              (py_min 16000 (inject_Z sr / 2 - 100)) Hsr) as [h ->].
  cbn [bind].
  destruct (time_signature =? 0)%Z eqn:T; cbn [andb].
  - apply Z.eqb_eq in T.
    destruct beats as [|b bs]; cbn [nonempty].
    + match goal with
      | |- context [let '(snare, clap) := ?p in _] =>
          destruct p as [snare clap]
      end.
      split; [discriminate | intros [H|[_ H]]; contradiction].
    + split; [intros _; right; split; [exact T | discriminate]
             | reflexivity].
  - apply Z.eqb_neq in T.
    match goal with
    | |- context [let '(snare, clap) := ?p in _] =>
        destruct p as [snare clap]
    end.
    split; [discriminate | intros [H|[H _]]; contradiction].
Qed.

(** The lists the loops of the detector build, before
    [sorted(set(...))]. *)
Lemma detect_drums_beat_aligned_grid
    (y : Signal) (sr : Z) (beats : list Q) (time_signature : Z)
    (r : list (string * list Q)) :
  detect_drums_beat_aligned y sr beats time_signature = Some r ->
  exists kick snare hihat clap,
    r = [("kick", sorted_set kick); ("snare", sorted_set snare);
         ("hihat", sorted_set hihat); ("clap", sorted_set clap);
         ("tom", []); ("perc", [])] /\
    Forall (on_even_sixteenth beats) kick /\
    Forall (on_backbeat beats time_signature) snare /\
    Forall (fun t => In t (interpolate_beats beats)) hihat /\
    Forall (on_backbeat beats time_signature) clap.
Proof.
  unfold detect_drums_beat_aligned.
  repeat match goal with
         | |- bind ?m _ = Some _ -> _ =>
             destruct m; cbn [bind]; [|discriminate]
         end.
  cbv zeta.
  destruct (_ && _); [discriminate|].
  match goal with
  | |- (let '(snare, clap) := fold_left ?F ?L ?I in _) = _ -> _ =>
      assert (Hsc : (fun p => Forall (on_backbeat beats time_signature)
                                     (fst p)
                              /\ Forall (on_backbeat beats time_signature)
                                        (snd p))
                      (fold_left F L I));
      [ apply fold_left_inv; [split; constructor|]
      | destruct (fold_left F L I) as [snare clap] ]
  end.
  { intros [sn cl] [i t] Hin [Hs Hc]. cbv beta iota zeta.
    apply in_enumerate in Hin. rewrite Nat.sub_0_r in Hin.
    destruct Hin as (_ & Hi & Ht).
    assert (Hon : Z_in (Z.of_nat i mod time_signature) [1; 3]%Z = true ->
                  on_backbeat beats time_signature t)
      by (intro Hb; exists i; repeat split; assumption).
    destruct (Z_in (Z.of_nat i mod time_signature) [1; 3]%Z);
      cbn [fst snd]; [|split; assumption].
    split.
    - repeat match goal with
             | |- context [if ?c then _ else _] => destruct c
             end;
        try exact Hs; apply Forall_snoc; auto.
    - repeat match goal with
             | |- context [if ?c then _ else _] => destruct c
             end;
        try exact Hc; apply Forall_snoc; auto. }
  cbn [fst snd] in Hsc. destruct Hsc as [Hsnare Hclap].
  cbn [map].
  match goal with
  | |- Some [("kick", sorted_set (fold_left ?F ?L ?I)); _;
             ("hihat", sorted_set (fold_left ?G ?M ?J)); _; _; _] = _ -> _ =>
      assert (Hkick : Forall (on_even_sixteenth beats) (fold_left F L I));
      [ apply fold_left_inv; [constructor|]
      | assert (Hhat : Forall (fun t => In t (interpolate_beats beats))
                              (fold_left G M J));
        [ apply fold_left_inv; [constructor|] |] ]
  end.
  { intros k [idx t] Hin Hk. cbv beta iota zeta.
    apply in_enumerate in Hin. rewrite Nat.sub_0_r in Hin.
    destruct Hin as (_ & Hi & Ht).
    set (q := ((Z.of_nat idx / 4) mod time_signature)%Z).
    assert (Hon : Z_in (q * 4 + Z.of_nat idx mod 4) [0; 8]%Z = true \/
                  Z_in (q * 4 + Z.of_nat idx mod 4) [4; 12]%Z = true \/
                  Z_in (q * 4 + Z.of_nat idx mod 4) [2; 6; 10; 14]%Z = true ->
                  on_even_sixteenth beats t).
    { intro Hpos. exists idx. repeat split; try assumption.
      exact (kick_position_cases q idx Hpos). }
    destruct (Z_in (q * 4 + Z.of_nat idx mod 4) [0; 8]%Z);
      [destruct (Qgtb _ _); [apply Forall_snoc; auto | exact Hk]|].
    destruct (Z_in (q * 4 + Z.of_nat idx mod 4) [4; 12]%Z);
      [destruct (Qgtb _ _); [apply Forall_snoc; auto | exact Hk]|].
    destruct (Z_in (q * 4 + Z.of_nat idx mod 4) [2; 6; 10; 14]%Z);
      [destruct (Qgtb _ _); [apply Forall_snoc; auto | exact Hk]|].
    exact Hk. }
  { intros hh t Hin Hh. cbv beta iota zeta.
    destruct (_ && _); [apply Forall_snoc; assumption | exact Hh]. }
  intro H. injection H as <-.
  do 4 eexists. split; [reflexivity|].
  repeat split; assumption.
Qed.

(** X14. Where the beat-aligned detector places hits.  Whenever it
    returns, the result has the six drum types in the order kick, snare,
    hihat, clap, tom, perc; the tom and perc lists are empty; every list
    is strictly increasing; every snare and clap time is a beat whose
    index [i] has [i % time_signature] in [1, 3]; every kick time is an
    even entry of the 16th-note positions (never the second or fourth
    16th of a beat); every hi-hat time is one of the 8th-note positions. *)
Theorem detect_drums_beat_aligned_on_grid
    (y : Signal) (sr : Z) (beats : list Q) (time_signature : Z)
    (r : list (string * list Q)) :
  detect_drums_beat_aligned y sr beats time_signature = Some r ->
  exists kick snare hihat clap,
    r = [("kick", kick); ("snare", snare); ("hihat", hihat);
         ("clap", clap); ("tom", []); ("perc", [])] /\
    (StronglySorted Qlt kick /\ StronglySorted Qlt snare /\
     StronglySorted Qlt hihat /\ StronglySorted Qlt clap) /\
    Forall (on_even_sixteenth beats) kick /\
    Forall (on_backbeat beats time_signature) snare /\
    Forall (fun t => In t (interpolate_beats beats)) hihat /\
    Forall (on_backbeat beats time_signature) clap.
Proof.
  intro H. apply detect_drums_beat_aligned_grid in H.
  destruct H as (kick & snare & hihat & clap & -> & Hk & Hs & Hh & Hc).
  exists (sorted_set kick), (sorted_set snare), (sorted_set hihat),
         (sorted_set clap).
  split; [reflexivity|].
  split; [repeat split; apply sorted_set_sorted|].
  repeat split; apply sorted_set_Forall; assumption.
Qed.
End BeatAlignedFacts.

Lemma detect_drums_beat_aligned_on_grid_witness :
  exists r,
    detect_drums_beat_aligned (AU := clip_audio) clip_backbeat 44100
                              [0; 1#2; 1; 3#2] 4 = Some r /\
    assoc "snare" r = Some [1#2] /\
    exists kick snare hihat clap,
      r = [("kick", kick); ("snare", snare); ("hihat", hihat);
           ("clap", clap); ("tom", []); ("perc", [])] /\
      (StronglySorted Qlt kick /\ StronglySorted Qlt snare /\
       StronglySorted Qlt hihat /\ StronglySorted Qlt clap) /\
      Forall (on_even_sixteenth [0; 1#2; 1; 3#2]) kick /\
      Forall (on_backbeat [0; 1#2; 1; 3#2] 4) snare /\
      Forall (fun t => In t (interpolate_beats [0; 1#2; 1; 3#2])) hihat /\
      Forall (on_backbeat [0; 1#2; 1; 3#2] 4) clap.
Proof.
  eexists. split; [vm_compute; reflexivity|].
  split; [vm_compute; reflexivity|].
  apply (@detect_drums_beat_aligned_on_grid clip_audio clip_backbeat 44100
           [0; 1#2; 1; 3#2] 4).
  vm_compute. reflexivity.
Defined.

(** ** Adaptive rescan *)

Lemma rounded_grid_separation (a b : Q) :
  3#100 <= Qabs (py_round_digits a 3 - b) ->
  294#10000 <= Qabs (py_round_digits a 4 - py_round_digits b 4).
Proof.
  pose proof (round3_error a) as H3. pose proof (round4_error a) as H4.
  pose proof (round4_error b) as H4'.
  set (a3 := py_round_digits a 3) in *.
  set (a4 := py_round_digits a 4) in *.
  set (b4 := py_round_digits b 4) in *.
  apply Qabs_Qle_condition in H3, H4, H4'.
  revert H3 H4 H4'.
  apply Qabs_case; intros Ha H3 H4 H4' H; apply Qabs_case; intro Hb; lra.
Qed.

Section SortApart.
Variable A : Type.
Variable key : A -> Q.
Variable gap : Q.

Let apart (a b : A) : Prop := gap <= Qabs (key a - key b).
Let ahead (a b : A) : Prop := key a + gap <= key b.

Lemma insert_by_apart (x : A) (s : list A) :
  StronglySorted ahead s -> Forall (apart x) s ->
  StronglySorted ahead (insert_by key x s).
Proof.
  induction 1 as [|y s Hs IH Hy]; intro Hx; cbn [insert_by].
  - constructor; constructor.
  - inversion Hx as [|? ? Hxy Hxs]; subst.
    unfold apart in Hxy.
    destruct (Qle_bool (key x) (key y)) eqn:E.
    + apply Qle_bool_iff in E.
      assert (Hxy' : ahead x y).
      { unfold ahead. revert Hxy. apply Qabs_case; intros; lra. }
      constructor; [constructor; assumption|].
      constructor; [exact Hxy'|].
      rewrite Forall_forall in Hy |- *. intros z Hz.
      specialize (Hy z Hz). unfold ahead in *. lra.
    + apply Qle_bool_gt in E.
      constructor; [apply IH; exact Hxs|].
      apply Forall_forall. intros z Hz.
      apply (proj1 (insert_by_In key x z s)) in Hz.
      destruct Hz as [-> | Hz].
      * unfold ahead. revert Hxy. apply Qabs_case; intros; lra.
      * rewrite Forall_forall in Hy. auto.
Qed.

Lemma sort_by_apart (l : list A) :
  StronglySorted apart l -> StronglySorted ahead (sort_by key l).
Proof.
  induction 1 as [|x l Hl IH Hx]; cbn [sort_by fold_right]; [constructor|].
  apply insert_by_apart; [exact IH|].
  apply Forall_forall. intros z Hz. apply (proj1 (sort_by_In key z l)) in Hz.
  rewrite Forall_forall in Hx. apply Hx. exact Hz.
Qed.
End SortApart.

Lemma scan_apart_times (st : list Q * list NewHit.t) :
  scan_apart st ->
  StronglySorted
    (fun a b => 294#10000 <= Qabs (NewHit.time a - NewHit.time b)) (snd st).
Proof.
  intros (hts & Ht & _ & Hs). revert hts Ht Hs.
  induction (snd st) as [|n l IH]; intros hts Ht Hs; [constructor|].
  destruct hts as [|h hts]; [discriminate|].
  cbn [map] in Ht. injection Ht as Hn Hl.
  inversion Hs as [|? ? Hs' Hh]; subst.
  constructor; [exact (IH hts Hl Hs')|].
  apply Forall_forall. intros m Hm.
  apply (in_map NewHit.time) in Hm. rewrite Hl in Hm.
  apply in_map_iff in Hm. destruct Hm as (b & Hb & Hin).
  rewrite Forall_forall in Hh. specialize (Hh b Hin).
  rewrite Hn, <- Hb. apply rounded_grid_separation. exact Hh.
Qed.

Section ScanApart.
Context {AU : Audio}.

Lemma scan_position_apart
      sr window_samples duration bar_start grid_duration bar_num is_quiet
      drum_type filtered_y threshold st grid_pos :
  scan_apart st ->
  scan_apart
    (scan_position sr window_samples duration bar_start grid_duration
                   bar_num is_quiet drum_type filtered_y threshold
                   st grid_pos).
Proof.
  intro Hst. unfold scan_position.
  destruct st as [existing_times new_hits]. cbv zeta.
  destruct (_ || _); [exact Hst|].
  destruct (existsb _ existing_times) eqn:Hnear; [exact Hst|].
  destruct (Qgtb _ threshold); [|exact Hst].
  destruct Hst as (hts & Ht & Hin & Hs). cbn [fst snd] in *.
  set (ht := bar_start + inject_Z grid_pos * grid_duration) in *.
  exists (hts ++ [ht]). cbn [fst snd]. repeat split.
  - rewrite !map_app, Ht. reflexivity.
  - apply Forall_app. split.
    + eapply Forall_impl; [|exact Hin].
      intros a Ha. apply in_or_app. left. exact Ha.
    + constructor; [|constructor]. apply in_or_app. right. left. reflexivity.
  - apply StronglySorted_app; [exact Hs | constructor; constructor |].
    intros a b Ha [<-|[]].
    rewrite Forall_forall in Hin. specialize (Hin a Ha).
    destruct (Qltb (Qabs (py_round_digits a 3 - ht)) (3#100)) eqn:E.
    + assert (Hex : existsb (fun t => Qltb (Qabs (t - ht)) (3#100))
                            existing_times = true)
        by (apply existsb_exists; eexists; split; [exact Hin | exact E]).
      rewrite Hex in Hnear. discriminate.
    + apply Qltb_ge in E. exact E.
Qed.

Lemma scan_bar_apart
      sr window_samples duration downbeat_offset bar_duration grid_duration
      sensitivity_boost bar_energies filtered_audio st bar_num st' :
  scan_apart st ->
  scan_bar sr window_samples duration downbeat_offset bar_duration
           grid_duration sensitivity_boost bar_energies filtered_audio
           st bar_num = Some st' ->
  scan_apart st'.
Proof.
  intros Hst. unfold scan_bar. cbv zeta.
  match goal with
  | |- bind ?m _ = _ -> _ =>
      destruct m as [mult|]; cbn [bind]; [|discriminate]
  end.
  apply fold_option_invariant with (P := scan_apart); [| |exact Hst].
  - intros [ty ps]. reflexivity.
  - intros s [ty ps] s' Hs. cbn [bind].
    destruct (negb (nonempty ps)); [intro H; injection H as <-; exact Hs|].
    destruct (assoc ty filtered_audio) as [fy|]; cbn [bind]; [|discriminate].
    destruct (assoc ty BASE_THRESHOLDS) as [base|]; cbn [bind];
      [|discriminate].
    intro H. injection H as <-.
    apply fold_left_inv; [exact Hs|].
    intros a x _ Ha. apply scan_position_apart. exact Ha.
Qed.

(** X15. The new hits of an adaptive rescan are apart.  Whenever the
    rescan returns, its new hits are in strictly increasing order of
    time and consecutive (indeed any two) new hits are at least 29.4 ms
    apart, whatever their drum types: a grid time that received a hit of
    one type is closed to the types scanned after it. *)
Theorem detect_adaptive_new_hits_apart
    (y : Signal) (bpm downbeat_offset : Q) (time_signature : Z)
    (existing : list ExistingHit) (target_bars : TargetBars)
    (sensitivity_boost : Q) (res : AdaptiveResult.t) :
  detect_adaptive y bpm downbeat_offset time_signature existing target_bars
                  sensitivity_boost = Some res ->
  StronglySorted well_before (AdaptiveResult.new_hits res).
Proof.
  unfold detect_adaptive. cbv zeta.
  destruct (py_div _ _) as [duration|]; cbn [bind]; [|discriminate].
  destruct (py_div 60 bpm) as [beat_duration|]; cbn [bind]; [|discriminate].
  destruct (py_div duration _) as [bars|]; cbn [bind]; [|discriminate].
  match goal with
  | |- bind ?m _ = _ -> _ =>
      destruct m as [filtered_audio|]; cbn [bind]; [|discriminate]
  end.
  match goal with
  | |- bind ?m _ = _ -> _ =>
      destruct m as [scanned|] eqn:Hscan; cbn [bind]; [|discriminate]
  end.
  intro H. injection H as <-. cbn [AdaptiveResult.new_hits].
  assert (Hap : scan_apart scanned).
  { revert Hscan.
    apply fold_option_invariant with (P := scan_apart).
    - reflexivity.
    - intros st bar_num st' Hst. cbn [bind]. apply scan_bar_apart. exact Hst.
    - exists []. cbn. repeat split; constructor. }
  apply scan_apart_times in Hap.
  exact (@sort_by_apart NewHit.t NewHit.time (294#10000) _ Hap).
Qed.
End ScanApart.

Lemma detect_adaptive_new_hits_apart_witness :
  exists res,
    detect_adaptive (AU := clip_audio) clip_loud 120 0 4
                    [mkExistingHit (Some (296#10000)) "kick"] TargetAll 2
    = Some res
    /\ map (fun n => (Qred (NewHit.time n), NewHit.type n))
           (AdaptiveResult.new_hits res)
       = [(0, "kick"); (1#4, "hihat"); (1#2, "snare"); (3#4, "hihat");
          (1, "kick"); (5#4, "hihat"); (3#2, "snare"); (7#4, "hihat")]
    /\ StronglySorted well_before (AdaptiveResult.new_hits res).
Proof.
  eexists. split; [vm_compute; reflexivity|].
  split; [vm_compute; reflexivity|].
  apply (@detect_adaptive_new_hits_apart clip_audio clip_loud 120 0
           4%Z [mkExistingHit (Some (296#10000)) "kick"] TargetAll 2).
  vm_compute. reflexivity.
Defined.

Section OptionFoldIn.
Variables (S X : Type) (P : S -> Prop).
Variable f : option S -> X -> option S.
Variable l0 : list X.
Hypothesis f_none : forall x, f None x = None.
Hypothesis f_keeps :
  forall st x st', In x l0 -> P st -> f (Some st) x = Some st' -> P st'.

Lemma fold_option_invariant_In (l : list X) (st st' : S) :
  incl l l0 -> P st -> fold_left f l (Some st) = Some st' -> P st'.
Proof.
  revert st. induction l as [|x l IH]; intros st Hl HP H; cbn [fold_left] in H.
  - injection H as <-. exact HP.
  - destruct (f (Some st) x) as [st1|] eqn:E.
    + apply (IH st1); [intros z Hz; apply Hl; right; exact Hz | | exact H].
      apply (f_keeps (st := st) (x := x)); [apply Hl; left; reflexivity | exact HP | exact E].
    + rewrite (fold_option_none f f_none) in H. discriminate.
Qed.
End OptionFoldIn.

Section ScanForall.
Context {AU : Audio}.
Variable P : NewHit.t -> Prop.

Lemma scan_position_forall
      sr window_samples duration bar_start grid_duration bar_num is_quiet
      drum_type filtered_y threshold st grid_pos :
  (0 <= bar_start + inject_Z grid_pos * grid_duration ->
   bar_start + inject_Z grid_pos * grid_duration < duration ->
   threshold < get_window_energy
                 filtered_y (bar_start + inject_Z grid_pos * grid_duration)
                 sr window_samples ->
   P (adaptive_new_hit
        (bar_start + inject_Z grid_pos * grid_duration) drum_type
        (get_window_energy
           filtered_y (bar_start + inject_Z grid_pos * grid_duration)
           sr window_samples)
        threshold bar_num grid_pos is_quiet)) ->
  Forall P (snd st) ->
  Forall P (snd (scan_position sr window_samples duration bar_start
                               grid_duration bar_num is_quiet drum_type
                               filtered_y threshold st grid_pos)).
Proof.
  intros Hnew Hst. unfold scan_position.
  destruct st as [existing_times new_hits]. cbv zeta.
  destruct (_ || _) eqn:Hrange; [exact Hst|].
  destruct (existsb _ existing_times); [exact Hst|].
  destruct (Qgtb _ threshold) eqn:He; [|exact Hst].
  cbn [snd] in *. apply Forall_snoc; [exact Hst|].
  apply orb_false_iff in Hrange. destruct Hrange as [H0 H1].
  apply Qltb_ge in H0. apply Qgeb_lt in H1. apply Qgtb_gt in He.
  exact (Hnew H0 H1 He).
Qed.
End ScanForall.

Section RescanFields.
Context {AU : Audio}.
Variables (y : Signal) (bpm downbeat_offset : Q) (time_signature : Z)
          (existing : list ExistingHit) (target_bars : TargetBars)
          (sensitivity_boost : Q).
Variable P : NewHit.t -> Prop.

(** What suffices for every new hit to satisfy [P]. *)
Hypothesis P_new :
  forall (bar_num grid_pos : Z) (drum_type : string) (positions : list Z)
         (base mult energy : Q) (is_quiet : bool),
    In (drum_type, positions) Adaptive16.EXPECTED_POSITIONS ->
    In grid_pos positions ->
    assoc drum_type BASE_THRESHOLDS = Some base ->
    (if is_quiet then py_div 1 sensitivity_boost else Some 1) = Some mult ->
    let hit_time :=
      adaptive_grid_time bpm downbeat_offset time_signature bar_num grid_pos
    in
    0 <= hit_time ->
    hit_time < inject_Z (Z.of_N (len y)) / inject_Z 44100 ->
    base * mult < energy ->
    P (adaptive_new_hit hit_time drum_type energy (base * mult)
                        bar_num grid_pos is_quiet).

Lemma scan_bar_forall
      window_samples bar_energies filtered_audio st bar_num st' :
  Forall P (snd st) ->
  scan_bar 44100 window_samples
           (inject_Z (Z.of_N (len y)) / inject_Z 44100)
           downbeat_offset (60 / bpm * inject_Z time_signature)
           (60 / bpm / 4) sensitivity_boost bar_energies filtered_audio
           st bar_num = Some st' ->
  Forall P (snd st').
Proof.
  intros Hst. unfold scan_bar. cbv zeta.
  match goal with
  | |- bind (if ?q then _ else _) _ = _ -> _ => set (is_quiet := q)
  end.
  destruct (if is_quiet then py_div 1 sensitivity_boost else Some 1)
    as [mult|] eqn:Hm; cbn [bind]; [|discriminate].
  apply fold_option_invariant_In
    with (P := fun s => Forall P (snd s))
         (l0 := Adaptive16.EXPECTED_POSITIONS);
    [| |apply incl_refl|exact Hst].
  - intros [ty ps]. reflexivity.
  - intros s [ty ps] s' Hin Hs. cbn [bind].
    destruct (negb (nonempty ps)); [intro H; injection H as <-; exact Hs|].
    destruct (assoc ty filtered_audio) as [fy|]; cbn [bind]; [|discriminate].
    destruct (assoc ty BASE_THRESHOLDS) as [base|] eqn:Hb; cbn [bind];
      [|discriminate].
    intro H. injection H as <-.
    apply fold_left_inv with (Inv := fun s => Forall P (snd s));
      [exact Hs|].
    intros a gp Hgp Ha. apply scan_position_forall; [|exact Ha].
    intros H0 H1 He.
    exact (@P_new bar_num gp ty ps base mult _ is_quiet Hin Hgp Hb Hm
                  H0 H1 He).
Qed.

Lemma detect_adaptive_forall (res : AdaptiveResult.t) :
  detect_adaptive y bpm downbeat_offset time_signature existing target_bars
                  sensitivity_boost = Some res ->
  Forall P (AdaptiveResult.new_hits res).
Proof.
  unfold detect_adaptive. cbv zeta.
  destruct (py_div (inject_Z (Z.of_N (len y))) (inject_Z 44100))
    as [duration|] eqn:D1; cbn [bind]; [|discriminate].
  apply py_div_inv in D1. destruct D1 as [_ ->].
  destruct (py_div 60 bpm) as [beat_duration|] eqn:D2; cbn [bind];
    [|discriminate].
  apply py_div_inv in D2. destruct D2 as [_ ->].
  destruct (py_div (inject_Z (Z.of_N (len y)) / inject_Z 44100) _)
    as [bars|]; cbn [bind]; [|discriminate].
  match goal with
  | |- bind ?m _ = _ -> _ =>
      destruct m as [filtered_audio|]; cbn [bind]; [|discriminate]
  end.
  match goal with
  | |- bind ?m _ = _ -> _ =>
      destruct m as [scanned|] eqn:Hscan; cbn [bind]; [|discriminate]
  end.
  intro H. injection H as <-. cbn [AdaptiveResult.new_hits].
  apply sort_by_Forall.
  revert Hscan.
  apply fold_option_invariant with (P := fun s => Forall P (snd s)).
  - reflexivity.
  - intros st bar_num st' Hst. cbn [bind]. apply scan_bar_forall. exact Hst.
  - constructor.
Qed.
End RescanFields.

Lemma base_threshold_pos (drum_type : string) (base : Q) :
  assoc drum_type BASE_THRESHOLDS = Some base -> 0 < base.
Proof.
  intro H. apply assoc_In in H. cbn in H.
  repeat (destruct H as [H|H]; [injection H as _ <-; reflexivity|]).
  contradiction.
Qed.


Section RescanOutputFields.
Context {AU : Audio}.
Variables (y : Signal) (bpm downbeat_offset : Q) (time_signature : Z)
          (existing : list ExistingHit) (target_bars : TargetBars)
          (sensitivity_boost : Q).

(** The comparison with the duration is decided by rounding when a
    grid time equals the duration: with 92610 samples (2.1 s) at
    200 BPM, position 12 of bar 2 is at 2.1 s exactly and the exact
    comparison skips it, while the binary64 grid time is
    2.0999999999999996, below the float duration, and the source scans
    it. *)
Example adaptive_grid_time_tie_b64 :
  adaptive_grid_time 200 0 4 2 12 == inject_Z 92610 / inject_Z 44100
  /\ PrimFloat.ltb (adaptive_grid_time_b64 200 0 4 2 12)
                   (b64_of_Z 92610 / b64_of_Z 44100) = true.
Proof. split; vm_compute; reflexivity. Qed.


(** X17. The confidence of a new hit carries no information.  For a
    positive sensitivity boost, whenever the rescan returns, every new
    hit has confidence 1: a hit is added only when its energy exceeds
    the threshold, and the confidence is [min(energy / threshold, 1.0)]. *)
Theorem detect_adaptive_confidence_one (res : AdaptiveResult.t) :
  0 < sensitivity_boost ->
  detect_adaptive y bpm downbeat_offset time_signature existing target_bars
                  sensitivity_boost = Some res ->
  Forall (fun n => NewHit.confidence n == 1) (AdaptiveResult.new_hits res).
Proof.
  intro Hboost. apply detect_adaptive_forall.
  intros bar_num grid_pos drum_type positions base mult energy is_quiet
         Hin Hgp Hb Hm hit_time H0 H1 He.
  unfold adaptive_new_hit. cbn [NewHit.confidence].
  pose proof (@base_threshold_pos _ _ Hb) as Hbase.
  assert (Hmult : 0 < mult).
  { destruct is_quiet.
    - apply py_div_inv in Hm. destruct Hm as [_ ->].
      unfold Qdiv. rewrite Qmult_1_l. apply Qinv_lt_0_compat. exact Hboost.
    - injection Hm as <-. reflexivity. }
  assert (Hth : 0 < base * mult) by (apply Qmult_lt_0_compat; assumption).
  set (th := base * mult) in *.
  assert (Hq : 1 < energy / th).
  { apply Qlt_shift_div_l; [exact Hth | lra]. }
  unfold py_min.
  assert (C : Qltb 1 (energy / th) = true) by (apply Qltb_lt; exact Hq).
  rewrite C. reflexivity.
Qed.
End RescanOutputFields.


Lemma detect_adaptive_confidence_one_witness :
  exists res,
    detect_adaptive (AU := clip_audio) clip_downbeat_kick 120 0 4
                    [mkExistingHit (Some (296#10000)) "kick"] TargetAll 2
    = Some res
    /\ AdaptiveResult.new_hits res <> []
    /\ Forall (fun n => NewHit.confidence n == 1)
              (AdaptiveResult.new_hits res).
Proof.
  eexists. split; [vm_compute; reflexivity|].
  split; [discriminate|].
  apply (@detect_adaptive_confidence_one clip_audio clip_downbeat_kick
           120 0 4%Z [mkExistingHit (Some (296#10000)) "kick"] TargetAll 2);
    [reflexivity | vm_compute; reflexivity].
Defined.

(** ** Standard analysis *)

Lemma Forall_filter (A : Type) (P : A -> Prop) (f : A -> bool) (l : list A) :
  Forall P l -> Forall P (filter f l).
Proof.
  intro H. apply Forall_forall. intros x Hx. apply filter_In in Hx.
  rewrite Forall_forall in H. apply H. tauto.
Qed.

Lemma Forall_map_intro (A B : Type) (P : B -> Prop) (f : A -> B)
      (Q0 : A -> Prop) (l : list A) :
  (forall x, Q0 x -> P (f x)) -> Forall Q0 l -> Forall P (map f l).
Proof.
  intros Hf H. induction H as [|x l Hx Hl IH]; cbn [map]; constructor; auto.
Qed.

Section AnalysisHits.
Context {AU : Audio}.
Variables (beat_result : BeatResult) (method : string)
          (y_full : Signal) (sr_full : Z) (stem : option (Signal * Z))
          (apply_pattern_filter : bool) (pattern_tolerance_ms : Q).

Lemma hits_before_pattern_filter_content (pre : list DrumHit) :
  hits_before_pattern_filter beat_result y_full sr_full stem = Some pre ->
  Forall (fun h =>
            on_detection_grid (beats beat_result)
                              (time_signature beat_result) h /\
            confidence h = match stem with
                           | Some _ => 90#100
                           | None => 70#100
                           end /\
            features h = None)
         pre.
Proof.
  unfold hits_before_pattern_filter.
  destruct stem as [[y_stem sr_stem]|];
    (destruct (detect_drums_beat_aligned _ _ _ _) as [d|] eqn:D;
     cbn [bind]; [|discriminate]);
    intro H; injection H as <-;
    apply detect_drums_beat_aligned_grid in D;
    destruct D as (kick & snare & hihat & clap & -> & Hk & Hs & Hh & Hc);
    apply (sorted_set_Forall (P := on_even_sixteenth (beats beat_result)))
      in Hk;
    apply (sorted_set_Forall
             (P := on_backbeat (beats beat_result)
                               (time_signature beat_result))) in Hs, Hc;
    apply (sorted_set_Forall
             (P := fun t => In t (interpolate_beats (beats beat_result))))
      in Hh;
    unfold detected_hits; apply sort_by_Forall;
    cbn [flat_map map app]; rewrite app_nil_r;
    repeat (apply Forall_app; split);
    try (eapply Forall_map_intro; [|eassumption];
         intros t Ht; cbn [type time confidence features];
         unfold on_detection_grid; cbn [type time];
         split; [|split; reflexivity]).
  all: try (left; split; [reflexivity | exact Ht]).
  all: try (right; left; split; [reflexivity | exact Ht]).
  all: try (right; right; left; split; [reflexivity | exact Ht]).
  all: try (right; right; right; split; [reflexivity | exact Ht]).
Qed.

(** X18. The hits of a standard analysis.  Whenever the analysis
    returns, every hit of the output is a kick, a snare, a hi-hat or a
    clap (never a tom or a percussion hit) and stands where the
    beat-aligned detector looks for that type: a kick on an even entry
    of the 16th-note positions, a snare or clap on a beat whose index
    [i] has [i % time_signature] in [1, 3], a hi-hat on an 8th-note
    position.  Its confidence is 0.9 when a drums stem was used and 0.7
    otherwise, and it carries no features. *)
Theorem analysis_hits_content (res : RhythmAnalysisResult.t) :
  analyze_rhythm_from beat_result method y_full sr_full stem
                      apply_pattern_filter pattern_tolerance_ms
  = Some res ->
  Forall (fun h =>
            on_detection_grid (beats beat_result)
                              (time_signature beat_result) h /\
            confidence h = match stem with
                           | Some _ => 90#100
                           | None => 70#100
                           end /\
            features h = None)
         (RhythmAnalysisResult.hits res).
Proof.
  intro H. apply analyze_rhythm_from_inv in H.
  destruct H as (pre & Hpre & _ & _ & keep & ->).
  apply Forall_filter.
  apply hits_before_pattern_filter_content. exact Hpre.
Qed.
End AnalysisHits.

Lemma analysis_hits_content_witness :
  exists res,
    analyze_rhythm_from (AU := clip_audio)
      (mkBeatResult 120 (8#10) [0; 1#2; 1; 3#2]
         (downbeats_mod4 [0; 1#2; 1; 3#2]) 4)
      "librosa" clip_backbeat 44100%Z None true 100 = Some res
    /\ RhythmAnalysisResult.hits res <> []
    /\ Forall (fun h =>
                 on_detection_grid [0; 1#2; 1; 3#2] 4 h /\
                 confidence h = (70#100) /\ features h = None)
              (RhythmAnalysisResult.hits res).
Proof.
  eexists. split; [vm_compute; reflexivity|].
  split; [discriminate|].
  eapply (@analysis_hits_content clip_audio
            (mkBeatResult 120 (8#10) [0; 1#2; 1; 3#2]
               (downbeats_mod4 [0; 1#2; 1; 3#2]) 4)
            "librosa" clip_backbeat 44100%Z None true 100).
  vm_compute. reflexivity.
Defined.

(** ** Downbeat shifting *)

Lemma max_beat_position_ge (ds : list Downbeat) (m : Z) :
  (m <= fold_left (fun m d => Z.max m (beat_position d)) ds m)%Z /\
  Forall (fun d => (beat_position d
                    <= fold_left (fun m d => Z.max m (beat_position d)) ds m)%Z)
         ds.
Proof.
  revert m. induction ds as [|d ds IH]; intro m; cbn [fold_left].
  - split; [lia | constructor].
  - destruct (IH (Z.max m (beat_position d))) as [A B].
    split; [lia|]. constructor; [lia | exact B].
Qed.

Lemma max_beat_position_In (ds : list Downbeat) (m : Z) :
  fold_left (fun m d => Z.max m (beat_position d)) ds m = m \/
  In (fold_left (fun m d => Z.max m (beat_position d)) ds m)
     (map beat_position ds).
Proof.
  revert m. induction ds as [|d ds IH]; intro m; cbn [fold_left map].
  - left. reflexivity.
  - destruct (IH (Z.max m (beat_position d))) as [E|E].
    + rewrite E. destruct (Z.max_spec m (beat_position d)) as [[_ ->]|[_ ->]].
      * right. left. reflexivity.
      * left. reflexivity.
    + right. right. exact E.
Qed.

Lemma max_beat_position_spec (d0 : Downbeat) (ds : list Downbeat) :
  Forall (fun d => (beat_position d <= max_beat_position d0 ds)%Z) (d0 :: ds)
  /\ In (max_beat_position d0 ds) (map beat_position (d0 :: ds)).
Proof.
  unfold max_beat_position.
  destruct (max_beat_position_ge ds (beat_position d0)) as [A B].
  split.
  - constructor; assumption.
  - destruct (max_beat_position_In ds (beat_position d0)) as [E|E].
    + left. symmetry. exact E.
    + right. exact E.
Qed.

Lemma max_beat_position_unique (d0 : Downbeat) (ds : list Downbeat) (m : Z) :
  Forall (fun d => (beat_position d <= m)%Z) (d0 :: ds) ->
  In m (map beat_position (d0 :: ds)) ->
  max_beat_position d0 ds = m.
Proof.
  intros Hle Hin.
  destruct (max_beat_position_spec d0 ds) as [A B].
  apply in_map_iff in Hin. destruct Hin as (d & <- & Hd).
  apply in_map_iff in B. destruct B as (d' & E & Hd').
  rewrite Forall_forall in Hle, A.
  specialize (A d Hd). specialize (Hle d' Hd'). lia.
Qed.

Lemma shift_loop (ts k : Z) (ds : list Downbeat) (acc : list Downbeat) :
  ts <> 0%Z ->
  fold_left
    (fun acc d =>
       new_downbeats <- acc ;;
       m <- py_imod (beat_position d - 1 + k) ts ;;
       let new_position := (m + 1)%Z in
       Some (new_downbeats ++ [mkDownbeat (downbeat_time d) new_position]))
    ds (Some acc)
  = Some (acc ++ map (fun d => mkDownbeat (downbeat_time d)
                                 ((beat_position d - 1 + k) mod ts + 1)%Z)
                     ds).
Proof.
  intro Hts.
  match goal with |- fold_left ?f _ _ = _ => set (body := f) end.
  assert (Hbody : forall acc d,
             body (Some acc) d
             = Some (acc ++ [mkDownbeat (downbeat_time d)
                               ((beat_position d - 1 + k) mod ts + 1)%Z])).
  { intros a d. unfold body, py_imod. cbn [bind].
    destruct (ts =? 0)%Z eqn:E; [apply Z.eqb_eq in E; contradiction|].
    reflexivity. }
  revert acc.
  induction ds as [|d ds IH]; intro acc; cbn [fold_left map].
  - rewrite app_nil_r. reflexivity.
  - rewrite Hbody, IH, <- app_assoc. reflexivity.
Qed.

Lemma shift_downbeat_some (beats : list Q) (d0 : Downbeat)
      (ds : list Downbeat) (k : Z) :
  max_beat_position d0 ds <> 0%Z ->
  shift_downbeat beats (d0 :: ds) k
  = Some (ShiftResult.mk
            (map (fun d => mkDownbeat (downbeat_time d)
                             ((beat_position d - 1 + k)
                                mod max_beat_position d0 ds + 1)%Z)
                 (d0 :: ds))
            k (Some (max_beat_position d0 ds))).
Proof.
  intro Hts. pose proof (shift_loop k (d0 :: ds) [] Hts) as L.
  cbv zeta in L. unfold shift_downbeat. cbv zeta.
  rewrite L. reflexivity.
Qed.

(** X19. What [shift_downbeat] returns.  With no downbeat it returns its
    argument and a shift of 0.  Otherwise the time signature is the
    largest beat position; when that is 0 the function raises
    ([% time_signature]), and when it is positive the function returns
    one downbeat per input downbeat, with the same times in the same
    order and every new beat position in 1..time_signature. *)
Theorem shift_downbeat_positions
    (beats : list Q) (d0 : Downbeat) (ds : list Downbeat) (k : Z) :
  shift_downbeat beats [] k = Some (ShiftResult.mk [] 0 None) /\
  (max_beat_position d0 ds = 0%Z ->
   shift_downbeat beats (d0 :: ds) k = None) /\
  ((0 < max_beat_position d0 ds)%Z ->
   exists new,
     shift_downbeat beats (d0 :: ds) k
     = Some (ShiftResult.mk new k (Some (max_beat_position d0 ds))) /\
     map downbeat_time new = map downbeat_time (d0 :: ds) /\
     Forall (fun d => (1 <= beat_position d <= max_beat_position d0 ds)%Z)
            new).
Proof.
  split; [reflexivity|]. split.
  - intro E. unfold shift_downbeat. cbv zeta. rewrite E.
    cbn [fold_left bind]. unfold py_imod at 1. cbn [Z.eqb bind].
    rewrite fold_option_none; [reflexivity|]. intro x. reflexivity.
  - intro Hts. eexists. split; [apply shift_downbeat_some; lia|].
    split.
    + rewrite map_map. reflexivity.
    + apply Forall_forall. intros d Hd. apply in_map_iff in Hd.
      destruct Hd as (d' & <- & _). cbn [beat_position].
      pose proof (Z.mod_pos_bound (beat_position d' - 1 + k)
                    (max_beat_position d0 ds) Hts). lia.
Qed.

Lemma shift_position_cycle (ts p n : Z) :
  (1 <= p <= ts)%Z -> ((p - 1 + n * ts) mod ts + 1 = p)%Z.
Proof.
  intro Hp. rewrite Z.mod_add by lia. rewrite Z.mod_small by lia. lia.
Qed.

(** X20. Shifting by whole bars changes nothing.  When every beat
    position is at least 1, shifting the downbeats by any multiple of
    the time signature (the largest beat position) returns the same
    downbeats. *)
Theorem shift_downbeat_whole_bars
    (beats : list Q) (d0 : Downbeat) (ds : list Downbeat) (n : Z) :
  Forall (fun d => (1 <= beat_position d)%Z) (d0 :: ds) ->
  shift_downbeat beats (d0 :: ds) (n * max_beat_position d0 ds)
  = Some (ShiftResult.mk (d0 :: ds) (n * max_beat_position d0 ds)
                         (Some (max_beat_position d0 ds))).
Proof.
  intro H1.
  destruct (max_beat_position_spec d0 ds) as [Hle _].
  assert (Hts : (1 <= max_beat_position d0 ds)%Z).
  { inversion H1 as [|? ? A _]; subst. inversion Hle as [|? ? B _]; subst.
    lia. }
  rewrite shift_downbeat_some by lia.
  f_equal. f_equal.
  set (ts := max_beat_position d0 ds) in *.
  revert H1 Hle. generalize (d0 :: ds). intro l.
  induction l as [|d l IH]; intros H1 Hle; [reflexivity|].
  inversion H1 as [|? ? A H1']; subst. inversion Hle as [|? ? B Hle']; subst.
  cbn [map]. rewrite shift_position_cycle by lia.
  rewrite (IH H1' Hle'). destruct d. reflexivity.
Qed.

Lemma shift_downbeat_whole_bars_witness :
  shift_downbeat [] [mkDownbeat 0 1; mkDownbeat (1#2) 2; mkDownbeat 1 3] (-2 * 3)
  = Some (ShiftResult.mk
            [mkDownbeat 0 1; mkDownbeat (1#2) 2; mkDownbeat 1 3] (-2 * 3)
            (Some 3%Z)).
Proof.
  apply (@shift_downbeat_whole_bars [] (mkDownbeat 0 1)
           [mkDownbeat (1#2) 2; mkDownbeat 1 3] (-2)).
  repeat constructor; discriminate.
Defined.

Section WholeBar.
Variable ts : Z.
Hypothesis ts_pos : (0 < ts)%Z.

Lemma whole_bar_cons (l : list Downbeat) :
  whole_bar ts l -> exists d0 ds, l = d0 :: ds /\ max_beat_position d0 ds = ts.
Proof.
  intros [Hr Hc]. destruct l as [|d0 ds].
  - destruct (Hc 1%Z ltac:(lia)).
  - exists d0, ds. split; [reflexivity|].
    apply max_beat_position_unique.
    + eapply Forall_impl; [|exact Hr]. intros d Hd. cbv beta in Hd. lia.
    + apply Hc. lia.
Qed.

Lemma whole_bar_shift (k : Z) (l : list Downbeat) :
  whole_bar ts l ->
  whole_bar ts
    (map (fun d => mkDownbeat (downbeat_time d)
                     ((beat_position d - 1 + k) mod ts + 1)%Z) l).
Proof.
  intros [Hr Hc]. split.
  - apply Forall_forall. intros d Hd. apply in_map_iff in Hd.
    destruct Hd as (d' & <- & _). cbn [beat_position].
    pose proof (Z.mod_pos_bound (beat_position d' - 1 + k) ts ts_pos). lia.
  - intros q Hq.
    pose proof (Z.mod_pos_bound (q - 1 - k) ts ts_pos) as Hp.
    specialize (Hc ((q - 1 - k) mod ts + 1)%Z ltac:(lia)).
    apply in_map_iff in Hc. destruct Hc as (d & Ed & Hd).
    apply in_map_iff.
    exists (mkDownbeat (downbeat_time d)
                       ((beat_position d - 1 + k) mod ts + 1)%Z).
    split.
    + cbn [beat_position]. rewrite Ed.
      replace ((q - 1 - k) mod ts + 1 - 1 + k)%Z
        with ((q - 1 - k) mod ts + k)%Z by lia.
      rewrite Zplus_mod_idemp_l.
      replace (q - 1 - k + k)%Z with (q - 1)%Z by lia.
      rewrite Z.mod_small by lia. lia.
    + apply in_map_iff. exists d. split; [reflexivity | exact Hd].
Qed.

Lemma shift_downbeat_whole_bar (beats : list Q) (l : list Downbeat) (k : Z) :
  whole_bar ts l ->
  shift_downbeat beats l k
  = Some (ShiftResult.mk
            (map (fun d => mkDownbeat (downbeat_time d)
                             ((beat_position d - 1 + k) mod ts + 1)%Z) l)
            k (Some ts)).
Proof.
  intro H. destruct (whole_bar_cons H) as (d0 & ds & -> & E).
  rewrite shift_downbeat_some by lia. rewrite E. reflexivity.
Qed.
End WholeBar.

(** X21. Shifts compose.  When the beat positions of the downbeats cover
    a whole bar (each is in 1..time_signature and each of
    1..time_signature occurs), the shifted downbeats cover a whole bar
    again, shifting by [a] and then by [b] returns the downbeats of one
    shift by [a + b], and shifting by [a] and then by [-a] returns the
    original downbeats. *)
Theorem shift_downbeat_composes
    (beats : list Q) (downbeats : list Downbeat) (ts a b : Z) :
  (0 < ts)%Z -> whole_bar ts downbeats ->
  whole_bar ts (shifted_downbeats beats downbeats a) /\
  shifted_downbeats beats (shifted_downbeats beats downbeats a) b
  = shifted_downbeats beats downbeats (a + b) /\
  shifted_downbeats beats (shifted_downbeats beats downbeats a) (- a)
  = downbeats.
Proof.
  intros Hts H. unfold shifted_downbeats.
  rewrite (shift_downbeat_whole_bar Hts beats a H).
  cbn [ShiftResult.downbeats].
  pose proof (whole_bar_shift Hts a H) as Ha.
  rewrite !(shift_downbeat_whole_bar Hts beats _ Ha).
  rewrite (shift_downbeat_whole_bar Hts beats (a + b) H).
  cbn [ShiftResult.downbeats].
  split; [exact Ha|]. rewrite !map_map. cbn [beat_position downbeat_time].
  split.
  - apply map_ext. intro d. f_equal.
    replace ((beat_position d - 1 + a) mod ts + 1 - 1 + b)%Z
      with ((beat_position d - 1 + a) mod ts + b)%Z by lia.
    rewrite Zplus_mod_idemp_l. f_equal. f_equal. lia.
  - destruct H as [Hr _]. clear Ha.
    induction Hr as [|d l Hd Hl IH]; [reflexivity|].
    cbn [map]. rewrite IH. f_equal.
    replace ((beat_position d - 1 + a) mod ts + 1 - 1 + - a)%Z
      with ((beat_position d - 1 + a) mod ts + - a)%Z by lia.
    rewrite Zplus_mod_idemp_l.
    replace (beat_position d - 1 + a + - a)%Z
      with (beat_position d - 1)%Z by lia.
    rewrite Z.mod_small by lia.
    destruct d as [t p]. cbn [downbeat_time beat_position]. f_equal. lia.
Qed.

Lemma shift_downbeat_composes_witness :
  whole_bar 3 (shifted_downbeats []
                 [mkDownbeat 0 1; mkDownbeat (1#2) 2; mkDownbeat 1 3] 2) /\
  shifted_downbeats []
    (shifted_downbeats []
       [mkDownbeat 0 1; mkDownbeat (1#2) 2; mkDownbeat 1 3] 2) 5
  = shifted_downbeats []
      [mkDownbeat 0 1; mkDownbeat (1#2) 2; mkDownbeat 1 3] (2 + 5) /\
  shifted_downbeats []
    (shifted_downbeats []
       [mkDownbeat 0 1; mkDownbeat (1#2) 2; mkDownbeat 1 3] 2) (- 2)
  = [mkDownbeat 0 1; mkDownbeat (1#2) 2; mkDownbeat 1 3].
Proof.
  apply (@shift_downbeat_composes []
           [mkDownbeat 0 1; mkDownbeat (1#2) 2; mkDownbeat 1 3] 3 2 5).
  - reflexivity.
  - split.
    + repeat constructor; discriminate.
    + intros p Hp. cbn [map beat_position].
      assert (C : p = 1%Z \/ p = 2%Z \/ p = 3%Z) by lia.
      destruct C as [ -> | [ -> | -> ] ]; cbn; tauto.
Defined.

(** ** Merging onsets *)

Lemma keep_mask_rec (x : Q) (b : bool) (l : list Q) :
  map fst (filter snd
             (combine (x :: l)
                      (b :: map (fun d => Qgtb d (3#100)) (np_diff (x :: l)))))
  = (if b then [x] else []) ++ later_than_predecessor x l.
Proof.
  revert x b. induction l as [|y l IH]; intros x b.
  - cbn. destruct b; reflexivity.
  - change (np_diff (x :: y :: l)) with ((y - x) :: np_diff (y :: l)).
    change (map (fun d => Qgtb d (3#100)) ((y - x) :: np_diff (y :: l)))
      with (Qgtb (y - x) (3#100)
              :: map (fun d => Qgtb d (3#100)) (np_diff (y :: l))).
    specialize (IH y (Qgtb (y - x) (3#100))).
    remember (combine (y :: l)
                (Qgtb (y - x) (3#100)
                   :: map (fun d => Qgtb d (3#100)) (np_diff (y :: l))))
      as rest eqn:Er.
    change (combine (x :: y :: l)
              (b :: Qgtb (y - x) (3#100)
                 :: map (fun d => Qgtb d (3#100)) (np_diff (y :: l))))
      with ((x, b) :: combine (y :: l)
                        (Qgtb (y - x) (3#100)
                           :: map (fun d => Qgtb d (3#100))
                                  (np_diff (y :: l)))).
    rewrite <- Er. cbn [filter snd later_than_predecessor].
    destruct b; cbn [map fst app]; rewrite IH; reflexivity.
Qed.

Lemma py_sorted_sorted (l : list Q) : StronglySorted Qle (py_sorted l).
Proof.
  unfold py_sorted.
  apply StronglySorted_weaken
    with (R := fun a b : Q => a < b \/ (a == b /\ True)).
  { intros a b [H|[H _]]; lra. }
  apply (@sort_by_stable Q (fun x => x) (fun _ _ => True)).
  induction l as [|x l IH]; constructor; [exact IH|].
  apply Forall_forall. intros. exact I.
Qed.

Lemma later_than_predecessor_apart (p : Q) (l : list Q) :
  StronglySorted Qle (p :: l) ->
  Forall (fun y => p + (3#100) < y) (later_than_predecessor p l) /\
  StronglySorted (fun a b => a + (3#100) < b) (later_than_predecessor p l) /\
  incl (later_than_predecessor p l) l.
Proof.
  revert p. induction l as [|y l IH]; intros p Hs;
    cbn [later_than_predecessor].
  - repeat split; [constructor | constructor | intros z []].
  - inversion Hs as [|? ? Hs' Hp]; subst.
    inversion Hp as [|? ? Hpy _]; subst.
    destruct (IH y Hs') as (A & B & C).
    assert (A' : Forall (fun z => p + (3#100) < z)
                        (later_than_predecessor y l)).
    { eapply Forall_impl; [|exact A]. intros z Hz. cbv beta in Hz. lra. }
    destruct (Qgtb (y - p) (3#100)) eqn:E; cbn [app].
    + apply Qgtb_gt in E. repeat split.
      * constructor; [lra | exact A'].
      * constructor; assumption.
      * intros z [<-|Hz]; [left; reflexivity | right; apply C, Hz].
    + repeat split; [exact A' | exact B |].
      intros z Hz. right. apply C, Hz.
Qed.

(** X22. The merged onsets.  The onsets [detect_onsets] returns from the
    answers of its two detectors are onsets of one of the two, in
    strictly increasing order, and any two of them are more than 30 ms
    apart; the list is empty only when both detectors found nothing. *)
Theorem detect_onsets_from_apart (drum_onsets standard_onsets : list Q) :
  incl (detect_onsets_from drum_onsets standard_onsets)
       (drum_onsets ++ standard_onsets) /\
  StronglySorted (fun a b => a + (3#100) < b)
                 (detect_onsets_from drum_onsets standard_onsets) /\
  (detect_onsets_from drum_onsets standard_onsets = [] ->
   drum_onsets = [] /\ standard_onsets = []).
Proof.
  unfold detect_onsets_from. cbv zeta.
  pose proof (py_sorted_sorted (drum_onsets ++ standard_onsets)) as Hs.
  assert (Hin : incl (py_sorted (drum_onsets ++ standard_onsets))
                     (drum_onsets ++ standard_onsets)).
  { intros z Hz. unfold py_sorted in Hz.
    apply (proj1 (sort_by_In (fun x => x) z _)) in Hz. exact Hz. }
  assert (Hlen : length (py_sorted (drum_onsets ++ standard_onsets))
                 = length (drum_onsets ++ standard_onsets))
    by apply sort_by_length.
  assert (Hnil : py_sorted (drum_onsets ++ standard_onsets) = [] ->
                 drum_onsets = [] /\ standard_onsets = []).
  { intro E. rewrite E in Hlen. cbn in Hlen. symmetry in Hlen.
    apply length_zero_iff_nil in Hlen. apply app_eq_nil in Hlen.
    exact Hlen. }
  destruct (py_sorted (drum_onsets ++ standard_onsets)) as [|x [|y l]].
  - cbn. split; [exact Hin | split; [constructor | exact Hnil]].
  - cbn. split; [exact Hin|].
    split; [repeat constructor | intro E; discriminate E].
  - change (1 <? length (x :: y :: l))%nat with true. cbv iota.
    rewrite keep_mask_rec. cbn [app].
    destruct (later_than_predecessor_apart Hs) as (A & B & C).
    split; [|split].
    + intros z [<-|Hz]; apply Hin; [left; reflexivity | right; apply C, Hz].
    + constructor; assumption.
    + intro E. discriminate E.
Qed.

Lemma later_than_predecessor_run (p : Q) (l : list Q) :
  Forall (fun d => d <= 3#100) (np_diff (p :: l)) ->
  later_than_predecessor p l = [].
Proof.
  revert p. induction l as [|y l IH]; intros p H; [reflexivity|].
  change (np_diff (p :: y :: l)) with ((y - p) :: np_diff (y :: l)) in H.
  inversion H as [|? ? Hd Hl]; subst.
  cbn [later_than_predecessor].
  assert (E : Qgtb (y - p) (3#100) = false) by (apply Qgtb_le; exact Hd).
  rewrite E, (IH y Hl). reflexivity.
Qed.

(** X23. A run of close onsets collapses to its first.  An onset is
    compared with its predecessor in the sorted array, not with the last
    onset kept: when every gap between consecutive sorted onsets is at
    most 30 ms, [detect_onsets] returns the earliest onset alone, however
    long the run lasts. *)
Theorem detect_onsets_from_run (drum_onsets standard_onsets : list Q) :
  Forall (fun d => d <= 3#100)
         (np_diff (py_sorted (drum_onsets ++ standard_onsets))) ->
  detect_onsets_from drum_onsets standard_onsets
  = firstn 1 (py_sorted (drum_onsets ++ standard_onsets)).
Proof.
  unfold detect_onsets_from. cbv zeta.
  destruct (py_sorted (drum_onsets ++ standard_onsets)) as [|x [|y l]];
    intro H; [reflexivity | reflexivity |].
  change (1 <? length (x :: y :: l))%nat with true. cbv iota.
  rewrite keep_mask_rec, (@later_than_predecessor_run x (y :: l) H).
  reflexivity.
Qed.

Lemma detect_onsets_from_run_witness :
  detect_onsets_from [0; 5#100] [25#1000; 75#1000; 1#10]
  = firstn 1 (py_sorted ([0; 5#100] ++ [25#1000; 75#1000; 1#10])).
Proof.
  apply (@detect_onsets_from_run [0; 5#100] [25#1000; 75#1000; 1#10]).
  vm_compute. repeat constructor; discriminate.
Defined.

(** ** Quantizer endpoints *)

Lemma instrument_hits_loop (drum_type : string) (hits : list RawHit)
      (acc : list DrumHit) :
  fold_left
    (fun acc h =>
       instrument_hits <- acc ;;
       if has_type drum_type h
       then
         hit <- instrument_hit drum_type h ;;
         Some (instrument_hits ++ [hit])
       else Some instrument_hits)
    hits (Some acc)
  = option_map (app acc)
      (fold_right
         (fun h rest =>
            hit <- instrument_hit drum_type h ;;
            tl <- rest ;;
            Some (hit :: tl))
         (Some [])
         (filter (has_type drum_type) hits)).
Proof.
  revert acc. induction hits as [|h hs IH]; intro acc;
    cbn [fold_left filter bind].
  - cbn. rewrite app_nil_r. reflexivity.
  - destruct (has_type drum_type h); [|apply IH].
    cbn [fold_right].
    destruct (instrument_hit drum_type h) as [hit|]; cbn [bind].
    + rewrite IH.
      destruct (fold_right _ _ _) as [tl|]; cbn [bind option_map];
        [|reflexivity].
      rewrite <- app_assoc. reflexivity.
    + cbn [option_map].
      apply fold_option_none. reflexivity.
Qed.

Lemma instrument_hit_some (drum_type : string) (h : RawHit) (hit : DrumHit) :
  instrument_hit drum_type h = Some hit ->
  type hit = drum_type /\ confidence hit = confidence_or_one h.
Proof.
  unfold instrument_hit, make_DrumHit, confidence_or_one.
  destruct (raw_time h) as [[t|]|], (raw_confidence h) as [[c|]|],
           (raw_features h) as [f|];
    cbn [get_or]; intro E; try discriminate E;
    injection E as <-; split; reflexivity.
Qed.

(** The hits of the drum type all validate, or one of them does not. *)
Lemma instrument_hits_built (drum_type : string) (sel : list RawHit) :
  (exists built,
      fold_right
        (fun h rest =>
           hit <- instrument_hit drum_type h ;;
           tl <- rest ;;
           Some (hit :: tl))
        (Some []) sel = Some built
      /\ length built = length sel
      /\ Forall (fun d => type d = drum_type) built
      /\ map confidence built = map confidence_or_one sel
      /\ Forall (fun h => instrument_hit drum_type h <> None) sel)
  \/
  (fold_right
     (fun h rest =>
        hit <- instrument_hit drum_type h ;;
        tl <- rest ;;
        Some (hit :: tl))
     (Some []) sel = None
   /\ exists h, In h sel /\ instrument_hit drum_type h = None).
Proof.
  induction sel as [|h sel IH]; cbn [fold_right].
  - left. exists []. repeat split; constructor.
  - destruct (instrument_hit drum_type h) as [hit|] eqn:E; cbn [bind].
    + destruct IH as [(built & -> & Hl & Ht & Hc & Hv) | (-> & h' & Hin & Hn)].
      * left. exists (hit :: built). cbn [bind length map].
        destruct (instrument_hit_some _ _ E) as [E1 E2].
        split; [reflexivity|]. split; [f_equal; exact Hl|].
        split; [constructor; [exact E1 | exact Ht]|].
        split; [f_equal; [exact E2 | exact Hc]|].
        constructor; [rewrite E; discriminate | exact Hv].
      * right. split; [reflexivity|].
        exists h'. split; [right; exact Hin | exact Hn].
    + right. split; [reflexivity|].
      exists h. split; [left; reflexivity | exact E].
Qed.

(** X24. The per-instrument quantizer.  [quantize_instrument_endpoint]
    raises exactly when some hit of the request with the drum type
    carries a value that [DrumHit] rejects (a null or non-numeric time,
    say), or some hit has the drum type and the tempo or the subdivision
    is 0; with no hit of the drum type it returns empty lists whatever
    the tempo and whatever the other hits carry, whereas
    [quantize_grid_endpoint] raises at tempo 0 even on an empty hit list.
    When it returns, it returns one quantized hit and one grid position
    per hit of the drum type, every returned hit has that type, and a
    hit without a confidence got confidence 1. *)
Theorem quantize_instrument_endpoint_result
    (drum_type : string) (hits : list RawHit)
    (bpm downbeat_offset swing quantize_strength : Q) (subdivision : Z) :
  (quantize_instrument_endpoint drum_type hits bpm downbeat_offset swing
                                quantize_strength subdivision = None
   <-> (exists h, In h hits /\ has_type drum_type h = true
                  /\ instrument_hit drum_type h = None)
       \/ (filter (has_type drum_type) hits <> []
           /\ (bpm == 0 \/ subdivision = 0%Z))) /\
  (forall quantized positions ty,
      quantize_instrument_endpoint drum_type hits bpm downbeat_offset swing
                                   quantize_strength subdivision
      = Some (quantized, positions, ty) ->
      ty = drum_type /\
      length quantized = length (filter (has_type drum_type) hits) /\
      length positions = length (filter (has_type drum_type) hits) /\
      Forall (fun h => type h = drum_type) quantized /\
      map confidence quantized
      = map confidence_or_one (filter (has_type drum_type) hits)) /\
  quantize_grid_endpoint [] 0 downbeat_offset swing quantize_strength = None.
Proof.
  unfold quantize_instrument_endpoint. cbv zeta.
  rewrite instrument_hits_loop.
  set (sel := filter (has_type drum_type) hits).
  assert (Hsel : forall h, In h sel ->
                           In h hits /\ has_type drum_type h = true)
    by (intros h Hh; apply filter_In in Hh; exact Hh).
  split; [|split; [|reflexivity]].
  - destruct (instrument_hits_built drum_type sel)
      as [(ih & -> & Hl & _ & _ & Hv) | (-> & h & Hin & Hn)];
      cbn [option_map bind app].
    + assert (Hne : nonempty ih = false <-> sel = []).
      { destruct ih, sel; cbn in Hl |- *; split; intro H;
          try reflexivity; discriminate. }
      assert (Hvalid :
                ~ exists h, In h hits /\ has_type drum_type h = true
                            /\ instrument_hit drum_type h = None).
      { intros (h & Hin & Hty & Hn). rewrite Forall_forall in Hv.
        apply (Hv h); [|exact Hn]. apply filter_In. split; assumption. }
      destruct (nonempty ih) eqn:N; cbn [negb].
      * assert (Hs : sel <> []).
        { intro E. apply Hne in E. congruence. }
        destruct (Qeq_dec bpm 0) as [Hb|Hb].
        -- split; [intros _; right; split; [exact Hs | left; exact Hb]|].
           intros _. unfold quantize_to_grid, py_div.
           assert (E : Qeq_bool bpm 0 = true)
             by (apply Qeq_bool_iff; exact Hb).
           rewrite E. reflexivity.
        -- destruct (Z.eq_dec subdivision 0) as [Hz|Hz].
           ++ split; [intros _; right; split; [exact Hs | right; exact Hz]|].
              intros _. subst subdivision. unfold quantize_to_grid.
              rewrite (py_div_some 60 Hb). cbn [bind].
              change (py_div (60 / bpm) (inject_Z 0)) with (@None Q).
              reflexivity.
           ++ rewrite quantize_to_grid_total by assumption. cbn [bind].
              split; [discriminate|].
              intros [H | [_ [H|H]]]; [exfalso; exact (Hvalid H) | |];
                contradiction.
      * split; [discriminate|].
        intros [H | [H _]]; [exfalso; exact (Hvalid H)|].
        exfalso. apply H, Hne. reflexivity.
    + split; [|reflexivity].
      intros _. left. exists h. destruct (Hsel h Hin) as [A B].
      repeat split; assumption.
  - intros quantized positions ty.
    destruct (instrument_hits_built drum_type sel)
      as [(ih & -> & Hl & Ht & Hc & _) | (-> & _)];
      cbn [option_map bind app]; [|discriminate].
    destruct (nonempty ih) eqn:N; cbn [negb].
    + destruct (quantize_to_grid ih _ _ _ _ _) as [[q g]|] eqn:Q0;
        cbn [bind]; [|discriminate].
      apply quantize_to_grid_inv in Q0. destruct Q0 as (_ & _ & -> & ->).
      intro H. injection H as <- <- <-.
      rewrite !length_map, map_map. cbn [fst quantize_with quantize_hit].
      split; [reflexivity|]. split; [exact Hl|]. split; [exact Hl|].
      split.
      * apply Forall_forall. intros h Hh. apply in_map_iff in Hh.
        destruct Hh as (r & <- & Hr). rewrite Forall_forall in Ht.
        exact (Ht r Hr).
      * rewrite <- Hc. apply map_ext. intro d. reflexivity.
    + intro H. injection H as <- <- <-.
      destruct ih; [|discriminate N]. destruct sel; [|discriminate Hl].
      repeat split. constructor.
Qed.

(** A null time raises at any tempo when the hit has the drum type of
    the request, and is not looked at otherwise. *)
Example quantize_instrument_endpoint_null_time :
  quantize_instrument_endpoint
    "kick" [mkRawHit (Some Rejected) (Some "kick") None (Accepted None)]
    120 0 50 1 4 = None
  /\ quantize_instrument_endpoint
       "snare" [mkRawHit (Some Rejected) (Some "kick") None (Accepted None)]
       120 0 50 1 4 = Some ([], [], "snare").
Proof. split; reflexivity. Qed.

(** ** Pattern matching *)

Section GridStep.
Variables (bpm downbeat_offset : Q) (time_signature : Z).
Hypothesis bpm_pos : 0 < bpm.
Hypothesis signature_pos : (0 < time_signature)%Z.

End GridStep.



(** ** Rule-based classification *)

Lemma best_key_max (d : list (string * Q)) k v :
  best_key d = Some (k, v) -> Forall (fun kv => snd kv <= v) d.
Proof.
  revert k v. induction d as [|[k0 v0] d IH]; intros k v; [discriminate|].
  cbn [best_key]. destruct (best_key d) as [[k' v']|] eqn:E.
  - specialize (IH k' v' eq_refl).
    destruct (Qltb v0 v') eqn:C; intro H; injection H as <- <-.
    + apply Qltb_lt in C. constructor; [cbn [snd]; lra | exact IH].
    + apply Qltb_ge in C. constructor; [cbn [snd]; lra|].
      eapply Forall_impl; [|exact IH]. intros kv Hkv. cbv beta in Hkv. lra.
  - intro H. injection H as <- <-.
    apply best_key_none in E. subst d.
    constructor; [cbn [snd]; lra | constructor].
Qed.

Lemma py_sum_acc (l : list Q) (a : Q) :
  fold_left Qplus l a == a + py_sum l.
Proof.
  unfold py_sum. revert a. induction l as [|x l IH]; intro a; cbn [fold_left].
  - ring.
  - rewrite (IH (a + x)), (IH (0 + x)). ring.
Qed.

Lemma py_sum_ge (l : list Q) (v : Q) :
  Forall (fun x => 0 <= x) l -> In v l -> v <= py_sum l.
Proof.
  intro H. induction H as [|x l Hx Hl IH]; intro Hin; [destruct Hin|].
  assert (Hs : 0 <= py_sum l).
  { clear IH Hin. induction Hl as [|y l Hy Hl IH].
    - unfold py_sum. cbn. lra.
    - unfold py_sum in *. cbn [fold_left]. rewrite py_sum_acc.
      unfold py_sum. lra. }
  unfold py_sum. cbn [fold_left]. rewrite py_sum_acc.
  destruct Hin as [<-|Hin]; [lra|]. specialize (IH Hin). lra.
Qed.

Lemma rule_scores_shape
      (low low_mid mid high_mid hihat_band all_high : Q)
      (decay flatness zcr centroid : Q) (beat_position : option Q)
      (scores : list (string * Q)) :
  rule_scores low low_mid mid high_mid hihat_band all_high
              decay flatness zcr centroid beat_position = Some scores ->
  exists kick snare hihat clap tom,
    scores
    = [("kick", kick); ("snare", snare); ("hihat", hihat); ("clap", clap);
       ("tom", tom); ("perc", 0 + (8#100))].
Proof.
  unfold rule_scores. cbv zeta.
  destruct (py_div low _); cbn [bind]; [|discriminate].
  destruct (py_div mid _); cbn [bind]; [|discriminate].
  destruct (py_div all_high _); cbn [bind]; [|discriminate].
  destruct beat_position as [bp|]; intro H; injection H as <-;
    do 5 eexists; reflexivity.
Qed.

(** The three quotients raise together, exactly when [total_energy]
    is 0. *)
Lemma rule_scores_returns
      (low low_mid mid high_mid hihat_band all_high : Q)
      (decay flatness zcr centroid : Q) (beat_position : option Q) :
  rule_scores low low_mid mid high_mid hihat_band all_high
              decay flatness zcr centroid beat_position = None
  <-> low + mid + all_high + (1#1000) == 0.
Proof.
  unfold rule_scores. cbv zeta.
  set (total := low + mid + all_high + (1#1000)).
  destruct (Qeq_dec total 0) as [E|E].
  - unfold py_div.
    assert (B : Qeq_bool total 0 = true) by (apply Qeq_bool_iff; exact E).
    rewrite B. cbn [bind]. split; [intros _; exact E | reflexivity].
  - rewrite !(py_div_some _ E). cbn [bind].
    split; [|intro H; contradiction].
    destruct beat_position; discriminate.
Qed.

Lemma rule_verdict_positive (scores : list (string * Q)) :
  In ("perc", 0 + (8#100)) scores ->
  In (fst (rule_verdict scores)) (map fst scores) /\
  0 < snd (rule_verdict scores).
Proof.
  intro Hperc. unfold rule_verdict.
  destruct (best_key scores) as [[ty v]|] eqn:E.
  - pose proof (best_key_In _ E) as Hin.
    pose proof (best_key_max _ E) as Hmax.
    rewrite Forall_forall in Hmax. specialize (Hmax _ Hperc).
    cbn [snd] in Hmax.
    assert (Hv : 0 < v) by lra.
    cbv zeta. cbn [fst snd]. split.
    + apply in_map_iff. exists (ty, v). split; [reflexivity | exact Hin].
    + set (total := py_sum (map snd scores)).
      assert (Hc : 0 < (if Qgtb total 0 then v / total else 5 # 10)).
      { destruct (Qgtb total 0) eqn:C; [|reflexivity].
        apply Qgtb_gt in C. apply Qlt_shift_div_l; [exact C | lra]. }
      destruct (_ && _); [|exact Hc].
      unfold py_min. case_cmp; lra.
  - apply best_key_none in E. subst scores. destruct Hperc.
Qed.

(** With every key present the classifier still raises when the
    energies sum to -0.001: [total_energy] is then 0 (in binary64 as
    well: -0.001 + 0.0 + 0.0 + 0.001 is 0.0). *)
Example classify_hit_rules_zero_division :
  classify_hit_rules
    [("low_energy_ratio", - (1#1000)); ("mid_energy_ratio", 0);
     ("high_energy_ratio", 0); ("high_mid_ratio", 0);
     ("transient_width", 5); ("decay_time", 25);
     ("spectral_flatness", 1#10); ("zero_crossing_rate", 1#100)]
    None = None.
Proof. vm_compute. reflexivity. Qed.

(** X26. The verdict of the rule-based classifier.  [classify_hit_rules]
    raises when one of the seven required features is missing.  With
    the seven present and the low, mid and all-high energies not
    negative (they are shares of the spectrum) it returns.  Whenever it
    returns, the type is one of the six drum types and the confidence
    is strictly positive. *)
Theorem classify_hit_rules_verdict
    (features : list (string * Q)) (beat_position : option Q) :
  ((exists k,
       In k ["low_energy_ratio"; "mid_energy_ratio"; "high_energy_ratio";
             "transient_width"; "decay_time"; "spectral_flatness";
             "zero_crossing_rate"] /\
       assoc k features = None) ->
   classify_hit_rules features beat_position = None) /\
  (forall low mid high,
      assoc "low_energy_ratio" features = Some low ->
      assoc "mid_energy_ratio" features = Some mid ->
      assoc "high_energy_ratio" features = Some high ->
      assoc "transient_width" features <> None ->
      assoc "decay_time" features <> None ->
      assoc "spectral_flatness" features <> None ->
      assoc "zero_crossing_rate" features <> None ->
      0 <= low -> 0 <= mid ->
      0 <= get_or (high + get_or (15#100) (assoc "high_mid_ratio" features))
                  (assoc "all_high_ratio" features) ->
      exists ty conf,
        classify_hit_rules features beat_position = Some (ty, conf)) /\
  (forall ty conf,
      classify_hit_rules features beat_position = Some (ty, conf) ->
      In ty DRUM_ORDER /\ 0 < conf).
Proof.
  split; [|split].
  - intros (k & Hk & Hnone). unfold classify_hit_rules. cbn in Hk.
    destruct (assoc "low_energy_ratio" features) as [low|] eqn:E1;
      [|reflexivity].
    destruct (assoc "mid_energy_ratio" features) as [mid|] eqn:E2;
      [|reflexivity].
    destruct (assoc "high_energy_ratio" features) as [high|] eqn:E3;
      [|reflexivity].
    destruct (assoc "transient_width" features) as [transient|] eqn:E4;
      [|reflexivity].
    destruct (assoc "decay_time" features) as [decay|] eqn:E5;
      [|reflexivity].
    destruct (assoc "spectral_flatness" features) as [flatness|] eqn:E6;
      [|reflexivity].
    destruct (assoc "zero_crossing_rate" features) as [zcr|] eqn:E7;
      [|reflexivity].
    repeat (destruct Hk as [<-|Hk]; [congruence|]). destruct Hk.
  - intros low mid high E1 E2 E3 E4 E5 E6 E7 Hl Hmid Hh.
    unfold classify_hit_rules. rewrite E1, E2, E3. cbn [bind].
    destruct (assoc "transient_width" features) as [transient|];
      [|contradiction]. cbn [bind].
    destruct (assoc "decay_time" features) as [decay|];
      [|contradiction]. cbn [bind].
    destruct (assoc "spectral_flatness" features) as [flatness|];
      [|contradiction]. cbn [bind].
    destruct (assoc "zero_crossing_rate" features) as [zcr|];
      [|contradiction]. cbn [bind]. cbv zeta.
    set (all_high := get_or _ (assoc "all_high_ratio" features)) in *.
    match goal with
    | |- exists ty conf, bind ?m _ = _ =>
        destruct m as [scores|] eqn:Es
    end.
    + cbn [bind]. destruct (rule_verdict scores) as [ty conf].
      exists ty, conf. reflexivity.
    + apply rule_scores_returns in Es. lra.
  - intros ty conf. unfold classify_hit_rules.
    destruct (assoc "low_energy_ratio" features) as [low|];
      cbn [bind]; [|discriminate].
    destruct (assoc "mid_energy_ratio" features) as [mid|];
      cbn [bind]; [|discriminate].
    destruct (assoc "high_energy_ratio" features) as [high|];
      cbn [bind]; [|discriminate].
    destruct (assoc "transient_width" features) as [transient|];
      cbn [bind]; [|discriminate].
    destruct (assoc "decay_time" features) as [decay|];
      cbn [bind]; [|discriminate].
    destruct (assoc "spectral_flatness" features) as [flatness|];
      cbn [bind]; [|discriminate].
    destruct (assoc "zero_crossing_rate" features) as [zcr|];
      cbn [bind]; [|discriminate].
    cbv zeta.
    match goal with
    | |- bind ?m _ = _ -> _ => destruct m as [scores|] eqn:Es
    end; cbn [bind]; [|discriminate].
    intro H. injection H as H.
    destruct (rule_scores_shape _ _ _ _ _ _ _ _ _ _ _ Es)
      as (kick & snare & hihat & clap & tom & ->).
    destruct (@rule_verdict_positive
                [("kick", kick); ("snare", snare); ("hihat", hihat);
                 ("clap", clap); ("tom", tom); ("perc", 0 + (8#100))]
                ltac:(do 5 right; left; reflexivity)) as [A B].
    rewrite H in A, B. cbn [fst snd map] in A, B. split; assumption.
Qed.

Lemma classify_hit_rules_verdict_witness :
  exists ty conf,
    classify_hit_rules
      [("low_energy_ratio", 3#10); ("mid_energy_ratio", 3#10);
       ("high_energy_ratio", 2#10); ("transient_width", 5);
       ("decay_time", 40); ("spectral_flatness", 3#10);
       ("zero_crossing_rate", 8#100); ("spectral_centroid", 3#10)]
      (Some (1#2)) = Some (ty, conf).
Proof.
  apply (proj1 (proj2 (@classify_hit_rules_verdict
                         [("low_energy_ratio", 3#10);
                          ("mid_energy_ratio", 3#10);
                          ("high_energy_ratio", 2#10);
                          ("transient_width", 5);
                          ("decay_time", 40); ("spectral_flatness", 3#10);
                          ("zero_crossing_rate", 8#100);
                          ("spectral_centroid", 3#10)]
                         (Some (1#2))))
           (3#10) (3#10) (2#10));
    try reflexivity; try discriminate.
Defined.

Ltac split_ifs :=
  repeat match goal with
         | |- context [if ?c then _ else _] => destruct c
         end.

Lemma rule_scores_nonneg
      (low low_mid mid high_mid hihat_band all_high : Q)
      (decay flatness zcr centroid : Q) (beat_position : option Q)
      (scores : list (string * Q)) :
  centroid <= 30#100 ->
  low / (low + mid + all_high + (1#1000)) <= 40#100 ->
  rule_scores low low_mid mid high_mid hihat_band all_high
              decay flatness zcr centroid beat_position = Some scores ->
  Forall (fun kv => 0 <= snd kv) scores.
Proof.
  intros Hc Hl. unfold rule_scores, add_if. cbv zeta.
  set (total := low + mid + all_high + (1#1000)) in *.
  destruct (Qeq_dec total 0) as [E|E].
  - unfold py_div.
    assert (B : Qeq_bool total 0 = true) by (apply Qeq_bool_iff; exact E).
    rewrite B. cbn [bind]. discriminate.
  - rewrite !(py_div_some _ E). cbn [bind].
    assert (C1 : Qgtb centroid (30#100) = false)
      by (apply Qgtb_le; exact Hc).
    assert (C2 : Qgtb centroid (40#100) = false) by (apply Qgtb_le; lra).
    assert (C3 : Qgtb (low / total) (40#100) = false)
      by (apply Qgtb_le; exact Hl).
    rewrite C1, C2, C3.
    set (ld := low / total). set (md := mid / total).
    set (hd := all_high / total).
    destruct beat_position as [bp|]; cbv beta iota;
      intro H; injection H as <-;
      repeat (apply Forall_cons; [cbn [snd]|]); try apply Forall_nil;
      split_ifs; lra.
Qed.

Lemma rule_verdict_at_most_one (scores : list (string * Q)) :
  In ("perc", 0 + (8#100)) scores ->
  Forall (fun kv => 0 <= snd kv) scores ->
  snd (rule_verdict scores) <= 1.
Proof.
  intros Hperc Hnn. unfold rule_verdict.
  destruct (best_key scores) as [[bt v]|] eqn:E;
    [|apply best_key_none in E; subst scores; destruct Hperc].
  cbv zeta. cbn [snd].
  pose proof (best_key_In _ E) as Hin.
  pose proof (best_key_max _ E) as Hmax.
  rewrite Forall_forall in Hmax. specialize (Hmax _ Hperc).
  cbn [snd] in Hmax.
  assert (Hsum : v <= py_sum (map snd scores)).
  { apply py_sum_ge.
    - apply Forall_forall. intros x Hx. apply in_map_iff in Hx.
      destruct Hx as (kv & <- & Hkv). rewrite Forall_forall in Hnn.
      apply Hnn, Hkv.
    - apply in_map_iff. exists (bt, v). split; [reflexivity | exact Hin]. }
  set (total := py_sum (map snd scores)) in *.
  assert (Ht : 0 < total) by lra.
  assert (C : Qgtb total 0 = true) by (apply Qgtb_gt; exact Ht).
  rewrite C.
  assert (Hq : v / total <= 1).
  { apply Qle_shift_div_r; [exact Ht | lra]. }
  destruct (_ && _); [|exact Hq].
  pose proof (py_min_le_r (v / total * (12#10)) (95#100)). lra.
Qed.

(** The confidence is not a probability: with a bright, tonal hit the
    two kick penalties leave a total score of 0.03 against a best score
    of 0.3, and the returned confidence is 10. *)
Example classify_hit_rules_confidence_ten :
  exists conf,
    classify_hit_rules
      [("low_energy_ratio", 25#100); ("mid_energy_ratio", 15#100);
       ("high_energy_ratio", 15#100); ("transient_width", 5);
       ("decay_time", 25); ("spectral_flatness", 1#10);
       ("zero_crossing_rate", 1#100); ("spectral_centroid", 5#10);
       ("low_mid_ratio", 1#10); ("high_mid_ratio", 5#100)]
      None = Some ("hihat", conf)
    /\ conf == 10.
Proof. eexists. split; [vm_compute; reflexivity | reflexivity]. Qed.

(** X27. When the confidence of the rule-based classifier is at most 1.
    The kick and hi-hat scores can be negative (the penalties), so the
    confidence [best_score / total_score] is not bounded by 1 in general;
    when no penalty applies (spectral centroid at most 0.30 and low
    dominance at most 0.40) every score is non-negative and the returned
    confidence is at most 1. *)
Theorem classify_hit_rules_confidence_bound
    (features : list (string * Q)) (beat_position : option Q)
    (low mid high : Q) (ty : string) (conf : Q) :
  assoc "low_energy_ratio" features = Some low ->
  assoc "mid_energy_ratio" features = Some mid ->
  assoc "high_energy_ratio" features = Some high ->
  get_or (5#10) (assoc "spectral_centroid" features) <= 30#100 ->
  low / (low + mid
         + get_or (high + get_or (15#100) (assoc "high_mid_ratio" features))
                  (assoc "all_high_ratio" features)
         + (1#1000)) <= 40#100 ->
  classify_hit_rules features beat_position = Some (ty, conf) ->
  conf <= 1.
Proof.
  intros E1 E2 E3 Hc Hl. unfold classify_hit_rules.
  rewrite E1, E2, E3. cbn [bind].
  destruct (assoc "transient_width" features); cbn [bind]; [|discriminate].
  destruct (assoc "decay_time" features) as [decay|]; cbn [bind];
    [|discriminate].
  destruct (assoc "spectral_flatness" features) as [flatness|]; cbn [bind];
    [|discriminate].
  destruct (assoc "zero_crossing_rate" features) as [zcr|]; cbn [bind];
    [|discriminate].
  cbv zeta.
  match goal with
  | |- bind ?m _ = _ -> _ => destruct m as [scores|] eqn:Es
  end; cbn [bind]; [|discriminate].
  intro H. injection H as H.
  pose proof (rule_scores_nonneg _ _ _ _ _ _ _ Hc Hl Es) as Hnn.
  destruct (rule_scores_shape _ _ _ _ _ _ _ _ _ _ _ Es)
    as (kick & snare & hihat & clap & tom & ->).
  pose proof (@rule_verdict_at_most_one
                [("kick", kick); ("snare", snare); ("hihat", hihat);
                 ("clap", clap); ("tom", tom); ("perc", 0 + (8#100))]
                ltac:(do 5 right; left; reflexivity) Hnn) as B.
  rewrite H in B. exact B.
Qed.

Lemma classify_hit_rules_confidence_bound_witness :
  exists ty conf,
    classify_hit_rules
      [("low_energy_ratio", 3#10); ("mid_energy_ratio", 3#10);
       ("high_energy_ratio", 2#10); ("transient_width", 5);
       ("decay_time", 40); ("spectral_flatness", 3#10);
       ("zero_crossing_rate", 8#100); ("spectral_centroid", 3#10)]
      None = Some (ty, conf)
    /\ conf <= 1.
Proof.
  eexists. eexists. split; [vm_compute; reflexivity|].
  eapply (@classify_hit_rules_confidence_bound
            [("low_energy_ratio", 3#10); ("mid_energy_ratio", 3#10);
             ("high_energy_ratio", 2#10); ("transient_width", 5);
             ("decay_time", 40); ("spectral_flatness", 3#10);
             ("zero_crossing_rate", 8#100); ("spectral_centroid", 3#10)]
            None (3#10) (3#10) (2#10));
    [reflexivity | reflexivity | reflexivity
    | vm_compute; discriminate | vm_compute; discriminate
    | vm_compute; reflexivity].
Defined.

(** ** The synthetic beat grid *)

Lemma nth_map_seq (A : Type) (f : nat -> A) (n i : nat) (d : A) :
  (i < n)%nat -> nth i (map f (seq 0 n)) d = f i.
Proof.
  intro Hi.
  rewrite (nth_indep (map f (seq 0 n)) d (f 0%nat))
    by (rewrite length_map, length_seq; exact Hi).
  rewrite (map_nth f (seq 0 n) 0%nat i), seq_nth by exact Hi.
  reflexivity.
Qed.

Lemma np_arange0_grid (stop step : Q) :
  0 <= stop -> 0 < step ->
  (forall i, (i < length (np_arange0 stop step))%nat ->
             nth i (np_arange0 stop step) 0 = inject_Z (Z.of_nat i) * step) /\
  Forall (fun b => 0 <= b /\ b < stop) (np_arange0 stop step) /\
  stop <= inject_Z (Z.of_nat (length (np_arange0 stop step))) * step.
Proof.
  intros H0 Hs. unfold np_arange0.
  set (n := Z.to_nat (Qceiling (stop / step))).
  assert (Hq : 0 <= stop / step) by (apply Qdiv_nonneg; assumption).
  assert (Hc : (0 <= Qceiling (stop / step))%Z).
  { pose proof (Qle_ceiling (stop / step)) as A.
    destruct (Z_lt_le_dec (Qceiling (stop / step)) 0) as [B|B]; [|exact B].
    assert (C : inject_Z (Qceiling (stop / step)) <= inject_Z (-1))
      by (rewrite <- Zle_Qle; lia).
    change (inject_Z (-1)) with (-1) in C. lra. }
  assert (Hn : inject_Z (Z.of_nat n) = inject_Z (Qceiling (stop / step))).
  { unfold n. rewrite Z2Nat.id by exact Hc. reflexivity. }
  assert (E : stop == step * (stop / step))
    by (field; apply Qpos_neq0; exact Hs).
  split; [|split].
  - intros i Hi. rewrite length_map, length_seq in Hi.
    apply nth_map_seq. exact Hi.
  - apply Forall_forall. intros b Hb. apply in_map_iff in Hb.
    destruct Hb as (i & <- & Hi). apply in_seq in Hi.
    assert (Hi0 : 0 <= inject_Z (Z.of_nat i))
      by (apply inject_Z_nonneg; lia).
    split; [apply Qmult_le_0_compat; lra|].
    assert (Hlt : inject_Z (Z.of_nat i) < stop / step).
    { pose proof (Qceiling_lt (stop / step)) as A.
      rewrite inject_Z_pred in A.
      assert (B : inject_Z (Z.of_nat i) <= inject_Z (Z.of_nat n) - 1).
      { rewrite <- inject_Z_pred, <- Zle_Qle. lia. }
      rewrite Hn in B. lra. }
    assert (C : step * inject_Z (Z.of_nat i) < step * (stop / step))
      by (apply Qmult_lt_l; assumption).
    lra.
  - rewrite length_map, length_seq, Hn.
    pose proof (Qle_ceiling (stop / step)) as A.
    assert (C : step * (stop / step)
                <= step * inject_Z (Qceiling (stop / step)))
      by (apply Qmult_le_nonneg_l; [lra | exact A]).
    lra.
Qed.

Section SyntheticGrid.
Context {AU : Audio}.

(** X28. The synthetic beat grid.  When the tracker finds fewer than two
    beats, at a positive tempo and sample rate, [detect_beats_librosa]
    returns the tracker's tempo with a grid of its own: beat [i] is at
    [i * 60 / bpm], every beat lies in [0, duration] up to the rounding
    margin, and the grid reaches the end of the audio up to the rounding
    margin (the next grid time is not before the duration).  Whether a
    grid time equal to the duration is itself a beat is decided by the
    rounding of [duration / interval] and is left open.  The tracker's
    single beat, if any, is not among the returned beats unless it lies
    on that grid. *)
Theorem detect_beats_librosa_synthetic
    (y : Signal) (sr : Z) (tempo : Tempo) (beats0 : list Q) :
  beat_track y sr = (tempo, beats0) ->
  (length beats0 < 2)%nat -> 0 < tempo_value tempo -> (0 < sr)%Z ->
  exists r,
    detect_beats_librosa y sr = Some r /\
    bpm r = tempo_value tempo /\
    (forall i, (i < length (beats r))%nat ->
               nth i (beats r) 0 = inject_Z (Z.of_nat i) * (60 / bpm r)) /\
    Forall (fun b => 0 <= b /\
                     b <= inject_Z (Z.of_N (len y)) / inject_Z sr
                          + rounding_margin)
           (beats r) /\
    inject_Z (Z.of_N (len y)) / inject_Z sr
    <= inject_Z (Z.of_nat (length (beats r))) * (60 / bpm r)
       + rounding_margin.
Proof.
  intros Ht Hlen Hb Hsr. unfold detect_beats_librosa. rewrite Ht.
  fold (tempo_value tempo).
  assert (C : (length beats0 <? 2)%nat = true)
    by (apply Nat.ltb_lt; exact Hlen).
  rewrite C.
  assert (Hsr' : 0 < inject_Z sr) by (apply inject_Z_pos; exact Hsr).
  rewrite (py_div_some _ (Qpos_neq0 Hsr')). cbn [bind].
  rewrite (py_div_some 60 (Qpos_neq0 Hb)). cbn [bind].
  eexists. split; [reflexivity|]. cbn [bpm beats].
  split; [reflexivity|].
  assert (Hm : 0 < rounding_margin) by reflexivity.
  destruct (@np_arange0_grid (inject_Z (Z.of_N (len y)) / inject_Z sr)
              (60 / tempo_value tempo)) as (G1 & G2 & G3).
  - apply Qdiv_nonneg; [apply inject_Z_nonneg; lia | exact Hsr'].
  - apply beat_duration_pos. exact Hb.
  - set (duration := inject_Z (Z.of_N (len y)) / inject_Z sr) in *.
    split; [exact G1|]. split.
    + eapply Forall_impl; [|exact G2]. intros b [B1 B2]. cbv beta. lra.
    + set (reach := inject_Z (Z.of_nat (length (np_arange0 duration
                                               (60 / tempo_value tempo))))
                    * (60 / tempo_value tempo)) in *.
      lra.
Qed.
End SyntheticGrid.

(** At the boundary the float quotient decides: 92610 samples at
    44.1 kHz and 200 BPM give a duration of 2.1 s and an interval of
    0.3 s; the exact quotient is 7 and the exact grid has 7 beats, while
    the binary64 quotient is 7.000000000000001 and [np.arange] returns 8
    beats, the last one at the duration. *)
Example np_arange0_length_tie_b64 :
  length (np_arange0 (inject_Z 92610 / inject_Z 44100) (60 / 200)) = 7%nat
  /\ np_arange0_length_b64 (b64_of_Z 92610 / b64_of_Z 44100) (60 / 200)
     = Some 8%Z.
Proof. split; vm_compute; reflexivity. Qed.

Lemma detect_beats_librosa_synthetic_witness :
  exists r,
    detect_beats_librosa (AU := clip_audio) clip_untracked 44100 = Some r /\
    bpm r = 100 /\
    beats r = [0 * (60 / 100); 1 * (60 / 100); 2 * (60 / 100);
               3 * (60 / 100)] /\
    Forall (fun b => 0 <= b /\
                     b <= inject_Z 88200 / inject_Z 44100 + rounding_margin)
           (beats r).
Proof.
  destruct (@detect_beats_librosa_synthetic clip_audio clip_untracked 44100
              (TempoScalar 100) [1#4] eq_refl ltac:(cbn; lia)
              ltac:(reflexivity) ltac:(reflexivity))
    as (r & Hr & Hbpm & _ & Hin & _).
  exists r. split; [exact Hr|]. split; [exact Hbpm|].
  split; [|exact Hin].
  vm_compute in Hr. injection Hr as <-. reflexivity.
Defined.

(** ** The quantizer keeps the order of the hits *)

Lemma py_round_monotone (x y : Q) : x <= y -> (py_round x <= py_round y)%Z.
Proof.
  intro Hxy.
  destruct (Z_lt_le_dec (py_round y) (py_round x)) as [Hlt|Hle];
    [|exact Hle].
  pose proof (py_round_near x) as Hx. pose proof (py_round_near y) as Hy.
  apply Qabs_Qle_condition in Hx, Hy.
  assert (H1 : inject_Z (py_round y) + 1 <= inject_Z (py_round x)).
  { rewrite <- inject_Z_succ, <- Zle_Qle. lia. }
  assert (E : x == y) by lra.
  rewrite (py_round_comp E) in Hlt. lia.
Qed.

Section KeepsOrder.
Variables (bpm downbeat_offset swing strength : Q).
Hypothesis bpm_pos : 0 < bpm.
Hypothesis swing_range : 0 <= swing <= 100.
Hypothesis strength_range : 0 <= strength <= 1.

Lemma grid_step_time_monotone (j k : Z) :
  (j <= k)%Z ->
  grid_step_time bpm downbeat_offset swing j
  <= grid_step_time bpm downbeat_offset swing k.
Proof.
  intro Hjk. pose proof (step_duration_pos bpm_pos) as Hg.
  destruct (Z.eq_dec j k) as [->|Hne]; [apply Qle_refl|].
  assert (H1 : inject_Z j + 1 <= inject_Z k).
  { rewrite <- inject_Z_succ, <- Zle_Qle. lia. }
  unfold grid_step_time.
  set (g := step_duration bpm 4) in *.
  assert (Hm : (inject_Z j + 1) * g <= inject_Z k * g)
    by (apply Qmult_le_compat_r; lra).
  assert (Hs1 : (swing / 100 - (1#2)) * g <= (1#2) * g).
  { apply Qmult_le_compat_r; [|lra].
    unfold Qdiv. change (/ 100) with (1#100). lra. }
  assert (Hs2 : - ((1#2) * g) <= (swing / 100 - (1#2)) * g).
  { assert (A : (- (1#2)) * g <= (swing / 100 - (1#2)) * g).
    { apply Qmult_le_compat_r; [|lra].
      unfold Qdiv. change (/ 100) with (1#100). lra. }
    lra. }
  set (o := (swing / 100 - (1#2)) * g) in *.
  destruct (Z.odd j), (Z.odd k); lra.
Qed.

Lemma quantize_hit_monotone (h1 h2 : DrumHit) :
  time h1 <= time h2 ->
  time (fst (quantize_with bpm downbeat_offset swing strength 4 h1))
  <= time (fst (quantize_with bpm downbeat_offset swing strength 4 h2)).
Proof.
  intro H12. pose proof (step_duration_pos bpm_pos) as Hg.
  rewrite !quantized_time_formula.
  set (k1 := py_round ((time h1 - downbeat_offset) / step_duration bpm 4)).
  set (k2 := py_round ((time h2 - downbeat_offset) / step_duration bpm 4)).
  assert (Hk : (k1 <= k2)%Z).
  { apply py_round_monotone. unfold Qdiv.
    apply Qmult_le_compat_r; [lra|].
    apply Qlt_le_weak, Qinv_lt_0_compat, Hg. }
  pose proof (grid_step_time_monotone Hk) as Hgst.
  set (a1 := grid_step_time bpm downbeat_offset swing k1) in *.
  set (a2 := grid_step_time bpm downbeat_offset swing k2) in *.
  assert (A : time h1 * (1 - strength) <= time h2 * (1 - strength))
    by (apply Qmult_le_compat_r; lra).
  assert (B : a1 * strength <= a2 * strength)
    by (apply Qmult_le_compat_r; lra).
  lra.
Qed.
End KeepsOrder.

(** Two hits that snap to the same step can come back one unit in the
    last place out of order: in binary64, at 140 BPM, offset 0.013 and
    swing 55, the hits at 0.02 s and 0.03 s are returned as
    0.012999999999999999 and 0.012999999999999998. *)
Example quantize_time_order_b64 :
  exists a b,
    quantize_time_b64 140 0.013 55 1 0.02 = Some a
    /\ quantize_time_b64 140 0.013 55 1 0.03 = Some b
    /\ PrimFloat.ltb b a = true.
Proof. do 2 eexists. repeat split; vm_compute; reflexivity. Qed.

(** X29. The quantizer does not reorder hits beyond rounding.  With a
    positive tempo, swing in [0, 100], strength in [0, 1] and
    subdivision 4, hits given in non-decreasing order of time are
    returned in non-decreasing order of time up to the rounding margin:
    no returned hit is more than the margin before a hit returned
    ahead of it.  Rounding to the grid is monotone, a swung odd step
    stays between its neighbours, and the result is a weighted mean of
    the two; the margin covers the last place of the float sum. *)
Theorem quantize_to_grid_keeps_order
    (hits : list DrumHit) (bpm downbeat_offset swing strength : Q) outs gps :
  0 < bpm -> 0 <= swing <= 100 -> 0 <= strength <= 1 ->
  quantize_to_grid hits bpm downbeat_offset swing strength 4
  = Some (outs, gps) ->
  StronglySorted (fun a b => time a <= time b) hits ->
  StronglySorted (fun a b => time a <= time b + rounding_margin) outs.
Proof.
  intros Hb Hsw Hst H Hs.
  apply quantize_to_grid_inv in H. destruct H as (_ & _ & -> & _).
  assert (Hm : 0 < rounding_margin) by reflexivity.
  induction Hs as [|h hs Hs IH Hh]; cbn [map]; constructor; [exact IH|].
  apply Forall_forall. intros o Ho. apply in_map_iff in Ho.
  destruct Ho as (h' & <- & Hin).
  rewrite Forall_forall in Hh.
  pose proof (@quantize_hit_monotone bpm downbeat_offset swing strength
                Hb Hsw Hst h h' (Hh _ Hin)) as Hmono.
  set (a := time (fst (quantize_with bpm downbeat_offset swing strength 4 h)))
    in *.
  set (b := time (fst (quantize_with bpm downbeat_offset swing strength 4 h')))
    in *.
  lra.
Qed.

Lemma quantize_to_grid_keeps_order_witness :
  exists outs gps,
    quantize_to_grid [mkDrumHit (1#10) "hihat" (7#10) None;
                      mkDrumHit (12#100) "kick" (7#10) None;
                      mkDrumHit (2#10) "hihat" (7#10) None]
                     120 0 66 (1#2) 4
    = Some (outs, gps)
    /\ StronglySorted (fun a b => time a <= time b + rounding_margin) outs.
Proof.
  eexists. eexists. split; [vm_compute; reflexivity|].
  eapply (@quantize_to_grid_keeps_order
            [mkDrumHit (1#10) "hihat" (7#10) None;
             mkDrumHit (12#100) "kick" (7#10) None;
             mkDrumHit (2#10) "hihat" (7#10) None] 120 0 66 (1#2));
    [reflexivity | split; discriminate | split; discriminate
    | vm_compute; reflexivity
    | repeat constructor; discriminate].
Defined.

(** ** Swing on an evenly spaced beat grid *)

Lemma sixteenths_groups (l : list Q) :
  sixteenths l =
  sixteenth_groups l ++ match l with [] => [] | _ :: _ => [last l 0] end.
Proof.
  induction l as [|a [|b l'] IH]; try reflexivity.
  change (sixteenths (a :: b :: l'))
    with (a :: (a + (b - a) * (25#100)) :: (a + (b - a) * (5#10))
            :: (a + (b - a) * (75#100)) :: sixteenths (b :: l')).
  rewrite IH. reflexivity.
Qed.

Lemma sixteenth_loop (pre l acc : list Q) :
  fold_left
    (fun sixteenth_notes i =>
       let beat_duration :=
         nth (i + 1) (pre ++ l) 0 - nth i (pre ++ l) 0 in
       (((sixteenth_notes ++ [nth i (pre ++ l) 0])
           ++ [nth i (pre ++ l) 0 + beat_duration * (25#100)])
          ++ [nth i (pre ++ l) 0 + beat_duration * (5#10)])
         ++ [nth i (pre ++ l) 0 + beat_duration * (75#100)])
    (seq (length pre) (length l - 1)) acc
  = acc ++ sixteenth_groups l.
Proof.
  revert pre acc.
  induction l as [|a [|b l'] IH]; intros pre acc;
    try (cbn; now rewrite app_nil_r).
  replace (length (a :: b :: l') - 1)%nat with (S (length l'))
    by (cbn; lia).
  rewrite <- cons_seq. cbn [fold_left]. cbv zeta.
  replace (nth (length pre) (pre ++ a :: b :: l') 0) with a
    by (rewrite app_nth2, Nat.sub_diag by lia; reflexivity).
  replace (nth (length pre + 1) (pre ++ a :: b :: l') 0) with b
    by (rewrite app_nth2 by lia;
        replace (length pre + 1 - length pre)%nat with 1%nat by lia;
        reflexivity).
  specialize (IH (pre ++ [a])).
  rewrite <- app_assoc, length_app, Nat.add_1_r in IH. cbn [app] in IH.
  replace (length (b :: l') - 1)%nat with (length l') in IH
    by (cbn; lia).
  cbv zeta in IH. rewrite IH.
  cbn [sixteenth_groups]. rewrite <- !app_assoc. reflexivity.
Qed.

Lemma sixteenth_positions_sixteenths (l : list Q) :
  sixteenth_positions l = sixteenths l.
Proof.
  unfold sixteenth_positions. cbv zeta.
  pose proof (sixteenth_loop [] l []) as H. cbn [app length] in H.
  cbv zeta in H. rewrite H, sixteenths_groups.
  destruct l; reflexivity.
Qed.

Section EvenGrid.
Variable d : Q.

Lemma evenly_spaced_nth (l : list Q) (b0 : Q) (i : nat) :
  evenly_spaced b0 d l -> (i < length l)%nat ->
  nth i l 0 == b0 + inject_Z (Z.of_nat i) * d.
Proof.
  revert b0 i. induction l as [|a l IH]; intros b0 i H Hi; [cbn in Hi; lia|].
  destruct H as [Ha Hl]. destruct i as [|i].
  - cbn [nth]. rewrite Ha. change (inject_Z (Z.of_nat 0)) with 0. ring.
  - cbn [nth length] in *. rewrite (IH (b0 + d) i Hl) by lia.
    rewrite Nat2Z.inj_succ. unfold Z.succ. rewrite inject_Z_succ. ring.
Qed.

Lemma on_half_grid_shift (b0 t : Q) :
  on_half_grid (b0 + d) d t -> on_half_grid b0 d t.
Proof.
  intros [k Hk]. exists (S (S k)). rewrite Hk.
  rewrite !Nat2Z.inj_succ. unfold Z.succ. rewrite !inject_Z_succ. ring.
Qed.

Lemma with_midpoints_half_grid (l : list Q) (b0 t : Q) :
  evenly_spaced b0 d l -> In t (with_midpoints l) -> on_half_grid b0 d t.
Proof.
  revert b0. induction l as [|a [|b l'] IH]; intros b0 H Hin.
  - destruct Hin.
  - destruct H as [Ha _]. destruct Hin as [<-|[]].
    exists 0%nat. rewrite Ha. change (inject_Z (Z.of_nat 0)) with 0. ring.
  - change (with_midpoints (a :: b :: l'))
      with (a :: (a + b) / 2 :: with_midpoints (b :: l')) in Hin.
    destruct H as [Ha Hl]. pose proof Hl as [Hb _].
    destruct Hin as [<-|[<-|Hin]].
    + exists 0%nat. rewrite Ha. change (inject_Z (Z.of_nat 0)) with 0. ring.
    + exists 1%nat. rewrite Ha, Hb. change (inject_Z (Z.of_nat 1)) with 1.
      unfold Qdiv. change (/ 2) with (1#2). ring.
    + apply on_half_grid_shift. exact (IH (b0 + d) Hl Hin).
Qed.

Lemma sixteenths_nth (l : list Q) (b0 : Q) (idx : nat) :
  evenly_spaced b0 d l -> (idx < length (sixteenths l))%nat ->
  nth idx (sixteenths l) 0
  == b0 + inject_Z (Z.of_nat idx) * (d * (1#4)).
Proof.
  revert b0 idx. induction l as [|a [|b l'] IH]; intros b0 idx H Hi.
  - cbn in Hi. lia.
  - destruct H as [Ha _]. cbn in Hi.
    assert (idx = 0%nat) by lia. subst idx. cbn [sixteenths nth].
    rewrite Ha. change (inject_Z (Z.of_nat 0)) with 0. ring.
  - change (sixteenths (a :: b :: l'))
      with (a :: (a + (b - a) * (25#100)) :: (a + (b - a) * (5#10))
              :: (a + (b - a) * (75#100)) :: sixteenths (b :: l')) in *.
    destruct H as [Ha Hl]. pose proof Hl as [Hb _].
    destruct idx as [|[|[|[|idx]]]]; cbn [nth].
    + rewrite Ha. change (inject_Z (Z.of_nat 0)) with 0. ring.
    + rewrite Ha, Hb. change (inject_Z (Z.of_nat 1)) with 1. ring.
    + rewrite Ha, Hb. change (inject_Z (Z.of_nat 2)) with 2. ring.
    + rewrite Ha, Hb. change (inject_Z (Z.of_nat 3)) with 3. ring.
    + cbn [length] in Hi. rewrite (IH (b0 + d) idx Hl) by lia.
      rewrite !Nat2Z.inj_succ. unfold Z.succ. rewrite !inject_Z_succ. ring.
Qed.

Lemma even_sixteenth_half_grid (l : list Q) (b0 t : Q) :
  evenly_spaced b0 d l -> on_even_sixteenth l t -> on_half_grid b0 d t.
Proof.
  intros H (idx & Hi & <- & He).
  rewrite sixteenth_positions_sixteenths in *.
  apply Nat.even_spec in He. destruct He as [k ->].
  exists k. rewrite (@sixteenths_nth l b0 (2 * k) H Hi).
  rewrite Nat2Z.inj_mul, inject_Z_mult.
  change (inject_Z (Z.of_nat 2)) with 2. ring.
Qed.

Lemma backbeat_half_grid (l : list Q) (b0 t : Q) (ts : Z) :
  evenly_spaced b0 d l -> on_backbeat l ts t -> on_half_grid b0 d t.
Proof.
  intros H (i & Hi & <- & _).
  exists (2 * i)%nat. rewrite (@evenly_spaced_nth l b0 i H Hi).
  rewrite Nat2Z.inj_mul, inject_Z_mult.
  change (inject_Z (Z.of_nat 2)) with 2. ring.
Qed.
End EvenGrid.

Lemma np_median_const (l : list Q) (c : Q) :
  l <> [] -> Forall (fun x => x == c) l -> np_median l == c.
Proof.
  intros Hne Hl. unfold np_median. cbv zeta.
  assert (Hs : Forall (fun x => x == c) (py_sorted l))
    by (apply sort_by_Forall; exact Hl).
  assert (Hlen : length (py_sorted l) = length l) by apply sort_by_length.
  assert (Hpos : (0 < length (py_sorted l))%nat).
  { rewrite Hlen. destruct l; [contradiction | cbn; lia]. }
  set (s := py_sorted l) in *. set (n := length s) in *.
  assert (Hnth : forall i, (i < n)%nat -> nth i s 0 == c).
  { intros i Hi. exact (proj1 (Forall_nth _ s) Hs i 0 Hi). }
  assert (Hhalf : (n / 2 < n)%nat) by (apply Nat.div_lt; lia).
  destruct (Nat.even n).
  - rewrite (Hnth (n / 2 - 1)%nat) by lia. rewrite (Hnth (n / 2)%nat Hhalf).
    unfold Qdiv. change (/ 2) with (1#2). ring.
  - apply Hnth. exact Hhalf.
Qed.

Section EvenGridSwing.
Variables (b0 d : Q).
Hypothesis d_pos : 0 < d.

Lemma np_diff_evenly (l : list Q) (b : Q) :
  evenly_spaced b d l -> Forall (fun x => x == d) (np_diff l).
Proof.
  revert b. induction l as [|a [|a' l'] IH]; intros b H;
    [cbn; constructor | cbn; constructor |].
  change (np_diff (a :: a' :: l')) with ((a' - a) :: np_diff (a' :: l')).
  destruct H as [Ha Hl]. pose proof Hl as [Ha' _].
  apply Forall_cons; [cbv beta; rewrite Ha, Ha'; ring | exact (IH (b + d) Hl)].
Qed.

Lemma beat_intervals_evenly (l : list Q) (b s e : Q) :
  evenly_spaced b d l -> In (s, e) (beat_intervals l) ->
  exists i : nat, s == b + inject_Z (Z.of_nat i) * d /\ e == s + d.
Proof.
  revert b. induction l as [|a [|a' l'] IH]; intros b H Hin;
    try (cbn in Hin; contradiction).
  change (beat_intervals (a :: a' :: l'))
    with ((a, a') :: beat_intervals (a' :: l')) in Hin.
  destruct H as [Ha Hl]. pose proof Hl as [Ha' _].
  destruct Hin as [E|Hin].
  - injection E as <- <-. exists 0%nat. rewrite Ha, Ha'.
    change (inject_Z (Z.of_nat 0)) with 0. split; ring.
  - destruct (IH (b + d) Hl Hin) as (i & Hs & He).
    exists (S i). split; [|exact He]. rewrite Hs.
    rewrite Nat2Z.inj_succ. unfold Z.succ. rewrite inject_Z_succ. ring.
Qed.

(** A hit on the half-beat grid stands at 0 or at 1/2 of its beat. *)
Lemma half_grid_position (t s e : Q) (i : nat) :
  on_half_grid b0 d t ->
  s == b0 + inject_Z (Z.of_nat i) * d -> e == s + d ->
  s <= t -> t < e ->
  t - s == 0 \/ t - s == d * (1#2).
Proof.
  intros [k Hk] Hs He Hst Hte.
  assert (Hh : 0 < d * (1#2)) by lra.
  assert (A : inject_Z (Z.of_nat (2 * i)) * (d * (1#2))
              <= inject_Z (Z.of_nat k) * (d * (1#2))).
  { rewrite Nat2Z.inj_mul, inject_Z_mult.
    change (inject_Z (Z.of_nat 2)) with 2. lra. }
  assert (B : inject_Z (Z.of_nat k) * (d * (1#2))
              < inject_Z (Z.of_nat (2 * i + 2)) * (d * (1#2))).
  { rewrite Nat2Z.inj_add, inject_Z_plus, Nat2Z.inj_mul, inject_Z_mult.
    change (inject_Z (Z.of_nat 2)) with 2. lra. }
  apply Qmult_le_r in A; [|exact Hh].
  apply Qmult_lt_r in B; [|exact Hh].
  rewrite <- Zle_Qle in A. rewrite <- Zlt_Qlt in B.
  assert (C : k = (2 * i)%nat \/ k = (2 * i + 1)%nat) by lia.
  destruct C as [-> | ->]; [left | right]; rewrite Hk, Hs.
  - rewrite Nat2Z.inj_mul, inject_Z_mult.
    change (inject_Z (Z.of_nat 2)) with 2. ring.
  - rewrite Nat2Z.inj_add, inject_Z_plus, Nat2Z.inj_mul, inject_Z_mult.
    change (inject_Z (Z.of_nat 2)) with 2.
    change (inject_Z (Z.of_nat 1)) with 1. ring.
Qed.

Lemma offbeat_percentages_fifty (bd : Q) (hit_times beats : list Q) :
  bd == d ->
  evenly_spaced b0 d beats ->
  Forall (on_half_grid b0 d) hit_times ->
  Forall (fun x => x == 50)
         (offbeat_percentages (fun _ _ => bd) hit_times beats).
Proof.
  intros Hbd Hev Hh. apply Forall_forall. intros x Hx.
  unfold offbeat_percentages in Hx. apply in_flat_map in Hx.
  destruct Hx as ([s e] & Hse & Hx).
  apply in_map_iff in Hx. destruct Hx as (p & <- & Hp).
  apply filter_In in Hp. destruct Hp as [Hp Hc].
  apply in_map_iff in Hp. destruct Hp as (t & <- & Ht).
  apply filter_In in Ht. destruct Ht as [Ht Hr].
  apply andb_true_iff in Hc, Hr. destruct Hc as [C1 C2], Hr as [R1 R2].
  apply Qltb_lt in C1, C2, R2. apply Qgeb_ge in R1.
  destruct (@beat_intervals_evenly beats b0 s e Hev Hse) as (i & Hs & He).
  rewrite Forall_forall in Hh.
  assert (Hd0 : ~ d == 0) by (apply Qpos_neq0; exact d_pos).
  assert (E : (t - s) / bd == (t - s) / d)
    by (apply Qdiv_comp; [reflexivity | exact Hbd]).
  rewrite E in *.
  destruct (@half_grid_position t s e i (Hh t Ht) Hs He R1 R2) as [P|P].
  - assert (Z0 : (t - s) / d == 0) by (rewrite P; field; exact Hd0).
    rewrite Z0 in C1. discriminate C1.
  - assert (Z1 : (t - s) / d == 1#2) by (rewrite P; field; exact Hd0).
    rewrite Z1. reflexivity.
Qed.

Lemma detect_swing_even_grid
      (hits : list DrumHit) (beats : list Q) (time_signature : Z) :
  evenly_spaced b0 d beats ->
  Forall (fun h => on_half_grid b0 d (time h)) hits ->
  detect_swing hits beats time_signature == 50.
Proof.
  intros Hev Hh. unfold detect_swing. cbv zeta.
  destruct (_ || _) eqn:C; [reflexivity|].
  apply orb_false_iff in C. destruct C as [_ C].
  apply Nat.ltb_ge in C.
  pose proof (offbeat_outer_loop (map time hits) (np_median (np_diff beats))
                                 [] beats []) as L.
  cbn [app length] in L. cbv zeta in L. rewrite L. clear L.
  assert (Hbd : np_median (np_diff beats) == d).
  { apply np_median_const; [|exact (@np_diff_evenly beats b0 Hev)].
    destruct beats as [|a [|a' l']]; cbn in C; try lia. discriminate. }
  assert (Hps : Forall (fun x => x == 50)
                       (offbeat_percentages
                          (fun _ _ => np_median (np_diff beats))
                          (map time hits) beats)).
  { apply (@offbeat_percentages_fifty _ (map time hits) beats Hbd Hev).
    apply Forall_forall. intros t Ht. apply in_map_iff in Ht.
    destruct Ht as (h & <- & Hin). rewrite Forall_forall in Hh.
    apply Hh, Hin. }
  set (ps := offbeat_percentages _ _ _) in *.
  destruct (length ps <? 2)%nat eqn:N; [reflexivity|].
  apply Nat.ltb_ge in N.
  assert (Hm : np_median ps == 50).
  { apply np_median_const; [|exact Hps].
    destruct ps; [cbn in N; lia | discriminate]. }
  set (m := np_median ps) in *. clearbody m.
  unfold py_min. case_cmp; unfold py_max; case_cmp; lra.
Qed.
End EvenGridSwing.

Section AnalysisSwing.
Context {AU : Audio}.
Variables (beat_result : BeatResult) (method : string)
          (y_full : Signal) (sr_full : Z) (stem : option (Signal * Z))
          (apply_pattern_filter : bool) (pattern_tolerance_ms : Q).

Lemma analyze_rhythm_from_swing (res : RhythmAnalysisResult.t) :
  analyze_rhythm_from beat_result method y_full sr_full stem
                      apply_pattern_filter pattern_tolerance_ms
  = Some res ->
  exists pre,
    hits_before_pattern_filter beat_result y_full sr_full stem = Some pre
    /\ RhythmAnalysisResult.swing res
       = detect_swing pre (beats beat_result) (time_signature beat_result).
Proof.
  unfold analyze_rhythm_from, hits_before_pattern_filter.
  destruct (py_div _ _) as [duration|]; cbn [bind]; [|discriminate].
  destruct stem as [[y_stem sr_stem]|];
    (destruct (detect_drums_beat_aligned _ _ _ _) as [d|];
     cbn [bind]; [|discriminate]);
    (destruct (detect_genre _ _ _) as [genre conf]);
    (destruct (apply_pattern_filter && nonempty (downbeats beat_result));
     [ destruct (filter_hits_by_pattern _ _ _ _ _ _) as [hits'|];
       cbn [bind]; [|discriminate]
     | cbn [bind] ]);
    intro H; injection H as <-; cbn [RhythmAnalysisResult.swing];
    eexists; split; reflexivity.
Qed.

(** X30. On an evenly spaced beat grid the standard analysis reports no
    swing.  The beat-aligned detector places hits on beats and half
    beats only, so when beat [i] is at [b0 + i * d] with [d > 0] every
    hit stands at 0 or 1/2 of its beat and [detect_swing] returns 50,
    whatever the audio contains (exact arithmetic). *)
Theorem analysis_swing_straight (b0 d : Q) (res : RhythmAnalysisResult.t) :
  0 < d -> evenly_spaced b0 d (beats beat_result) ->
  analyze_rhythm_from beat_result method y_full sr_full stem
                      apply_pattern_filter pattern_tolerance_ms
  = Some res ->
  RhythmAnalysisResult.swing res == 50.
Proof.
  intros Hd Hev H. apply analyze_rhythm_from_swing in H.
  destruct H as (pre & Hpre & ->).
  apply hits_before_pattern_filter_content in Hpre.
  apply (@detect_swing_even_grid b0 d Hd pre (beats beat_result)
           (time_signature beat_result) Hev).
  eapply Forall_impl; [|exact Hpre].
  intros h [[(_ & Hk)|[(_ & Hs)|[(_ & Hh)|(_ & Hc)]]] _].
  - exact (@even_sixteenth_half_grid d _ b0 _ Hev Hk).
  - exact (@backbeat_half_grid d _ b0 _ _ Hev Hs).
  - rewrite interpolate_beats_midpoints in Hh.
    exact (@with_midpoints_half_grid d _ b0 _ Hev Hh).
  - exact (@backbeat_half_grid d _ b0 _ _ Hev Hc).
Qed.
End AnalysisSwing.

Lemma analysis_swing_straight_witness :
  exists res pre,
    analyze_rhythm_from (AU := clip_audio)
      (mkBeatResult 120 (8#10) [0; 1#2; 1; 3#2]
         (downbeats_mod4 [0; 1#2; 1; 3#2]) 4)
      "librosa" clip_offbeat_hats 44100%Z None true 100 = Some res
    /\ hits_before_pattern_filter (AU := clip_audio)
         (mkBeatResult 120 (8#10) [0; 1#2; 1; 3#2]
            (downbeats_mod4 [0; 1#2; 1; 3#2]) 4)
         clip_offbeat_hats 44100%Z None = Some pre
    /\ map (fun h => (time h, type h)) pre
       = [(0, "kick"); (1#4, "hihat"); (3#4, "hihat"); (5#4, "hihat")]
    /\ length (offbeat_percentages interval_width (map time pre)
                                   [0; 1#2; 1; 3#2]) = 3%nat
    /\ RhythmAnalysisResult.swing res == 50.
Proof.
  eexists. eexists. split; [vm_compute; reflexivity|].
  split; [vm_compute; reflexivity|].
  split; [reflexivity|]. split; [reflexivity|].
  eapply (@analysis_swing_straight clip_audio
            (mkBeatResult 120 (8#10) [0; 1#2; 1; 3#2]
               (downbeats_mod4 [0; 1#2; 1; 3#2]) 4)
            "librosa" clip_offbeat_hats 44100%Z None true 100 0 (1#2));
    [reflexivity | cbn; repeat split; reflexivity | vm_compute; reflexivity].
Defined.
